(** * lab::rational_t and lab::vector: a shallow embedding

    The two class templates of the laboratory work, [rational.h] and
    [vector.h], are embedded as Rocq functions and their documented behaviour
    is checked against the embedding.

    C++ control flow is embedded through [outcome]: a call returns a value,
    throws an exception to its caller, ends the program through
    [std::terminate] (an exception leaving a [noexcept] function), has
    undefined behaviour, or never comes back (a loop or recursion whose fuel
    ran out). *)

From Stdlib Require Import ZArith Lia Bool List.
From stdpp Require Import base option list gmap.

Local Open Scope Z_scope.

(** ** Outcomes of a C++ call *)

(** The three exception classes of [<stdexcept>] and [<new>] that the two
    headers throw. *)
Inductive exn : Type :=
| invalid_argument
| out_of_range
| bad_alloc.

Inductive outcome (A : Type) : Type :=
| Returns (a : A)
| Throws (e : exn)
| Terminates (e : exn)
| Undefined
| Diverges.

Arguments Returns {A} a.
Arguments Throws {A} e.
Arguments Terminates {A} e.
Arguments Undefined {A}.
Arguments Diverges {A}.

Definition bind {A B : Type} (o : outcome A) (k : A -> outcome B) : outcome B :=
  match o with
  | Returns a => k a
  | Throws e => Throws e
  | Terminates e => Terminates e
  | Undefined => Undefined
  | Diverges => Diverges
  end.

Notation "'do' x <- o ; k" := (bind o (fun x => k))
  (at level 10, x name, o at level 100, k at level 200).

(** A function declared [noexcept]: an exception that would leave it calls
    [std::terminate] instead of reaching the caller. *)
Definition noexcept {A : Type} (o : outcome A) : outcome A :=
  match o with
  | Throws e => Terminates e
  | _ => o
  end.

(** Two's complement wrap-around of [z] to [w] bits. *)
Definition wrap (w z : Z) : Z := (z + 2 ^ (w - 1)) mod 2 ^ w - 2 ^ (w - 1).

(** ** rational.h *)

Module Rational.

(** The template parameter [IntT].  [Char] (signed, 8 bits) and [Int]
    (32 bits) are the two instantiations of the repository
    ([rational_t<char>] in [main.cpp], the [typedef rational_t<int>
    rational]); [Exact] is the idealised reading in which integers are
    unbounded. *)
Inductive int_type : Type :=
| Exact
| Char
| Int.

Definition width (k : int_type) : option Z :=
  match k with
  | Exact => None
  | Char => Some 8
  | Int => Some 32
  end.

(** The values an object of type [IntT] can hold. *)
Definition in_range (k : int_type) (z : Z) : Prop :=
  match width k with
  | None => True
  | Some w => - 2 ^ (w - 1) <= z < 2 ^ (w - 1)
  end.

Definition fits (k : int_type) (z : Z) : bool :=
  match width k with
  | None => true
  | Some w => (- 2 ^ (w - 1) <=? z) && (z <? 2 ^ (w - 1))
  end.

(** The most negative value of [IntT], when there is one. *)
Definition lowest (k : int_type) : option Z :=
  match width k with
  | None => None
  | Some w => Some (- 2 ^ (w - 1))
  end.

(** The result [z] of an arithmetic operation: the operands of type [char]
    or [int] are promoted to the 32-bit [int], and signed overflow of [int]
    is undefined. *)
Definition arith (k : int_type) (z : Z) : outcome Z :=
  match width k with
  | None => Returns z
  | Some _ =>
      if (- 2 ^ 31 <=? z) && (z <? 2 ^ 31) then Returns z else Undefined
  end.

(** Conversion of an [int] to [IntT] (a store to [num_] or [denom_], or a
    constructor argument): modular. *)
Definition narrow (k : int_type) (z : Z) : Z :=
  match width k with
  | None => z
  | Some w => wrap w z
  end.

Record rational_t : Type := mk { num_ : Z; denom_ : Z }.

Section IntT.

Variable IntT : int_type.

(** Integer division: truncating, undefined for a zero divisor. *)
Definition quot (a b : Z) : outcome Z :=
  if b =? 0 then Undefined else arith IntT (Z.quot a b).

(** [static inline int gcd(IntT a, IntT b)]: the first statement returns
    [std::experimental::gcd(a, b)], and the statements after it are never
    reached.  By its contract [std::experimental::gcd] returns the greatest
    common divisor of [|a|] and [|b|], and its behaviour is undefined when
    [|a|] or [|b|] is not a value of the common type [IntT]. *)
Definition gcd (a b : Z) : outcome Z :=
  if fits IntT (Z.abs a) && fits IntT (Z.abs b)
  then Returns (Z.gcd a b)
  else Undefined.

(** [void check() noexcept] *)
Definition check (r : rational_t) : outcome rational_t :=
  do r1 <- (if denom_ r <? 0
            then
              do d <- arith IntT (- denom_ r) ;
              do n <- arith IntT (- num_ r) ;
              Returns {| num_ := narrow IntT n; denom_ := narrow IntT d |}
            else Returns r) ;
  do gcd_ <- gcd (num_ r1) (denom_ r1) ;
  do d <- quot (denom_ r1) gcd_ ;
  do n <- quot (num_ r1) gcd_ ;
  Returns {| num_ := narrow IntT n; denom_ := narrow IntT d |}.

(** [rational_t() noexcept] *)
Definition rational_default : rational_t := {| num_ := 0; denom_ := 1 |}.

(** [rational_t(IntT num, IntT denom) noexcept(false)] *)
Definition rational (num denom : Z) : outcome rational_t :=
  let num := narrow IntT num in
  let denom := narrow IntT denom in
  if denom =? 0 then Throws invalid_argument
  else check {| num_ := num; denom_ := denom |}.

(** [operator-(rational_t const&) noexcept], unary *)
Definition neg (number : rational_t) : outcome rational_t :=
  noexcept (
    do n <- arith IntT (- num_ number) ;
    rational n (denom_ number)).

(** [operator==] *)
Definition eq (lhs rhs : rational_t) : bool :=
  (denom_ lhs =? denom_ rhs) && (num_ lhs =? num_ rhs).

(** [operator+(rational_t const&, rational_t const&) noexcept] *)
Definition add (lhs rhs : rational_t) : outcome rational_t :=
  noexcept (
    do p <- arith IntT (denom_ lhs * denom_ rhs) ;
    do g <- gcd (denom_ lhs) (denom_ rhs) ;
    do temp_denom <- quot p g ;
    do ql <- quot temp_denom (denom_ lhs) ;
    do tl <- arith IntT (ql * num_ lhs) ;
    do qr <- quot temp_denom (denom_ rhs) ;
    do tr <- arith IntT (qr * num_ rhs) ;
    do temp_num <- arith IntT (tl + tr) ;
    rational temp_num temp_denom).

(** [operator-(rational_t const&, rational_t const&) noexcept], binary *)
Definition sub (lhs rhs : rational_t) : outcome rational_t :=
  noexcept (do m <- neg rhs ; add lhs m).

(** [operator*] *)
Definition mul (lhs rhs : rational_t) : outcome rational_t :=
  noexcept (
    do n <- arith IntT (num_ lhs * num_ rhs) ;
    do d <- arith IntT (denom_ lhs * denom_ rhs) ;
    rational n d).

(** [operator/] *)
Definition div (lhs rhs : rational_t) : outcome rational_t :=
  noexcept (
    do n <- arith IntT (num_ lhs * denom_ rhs) ;
    do d <- arith IntT (denom_ lhs * num_ rhs) ;
    rational n d).

(** [operator<] *)
Definition lt (lhs rhs : rational_t) : outcome bool :=
  noexcept (do d <- sub lhs rhs ; Returns (num_ d <? 0)).

(** [operator>] *)
Definition gt (lhs rhs : rational_t) : outcome bool :=
  noexcept (lt rhs lhs).

(** [operator<=] and [operator>=] *)
Definition le (lhs rhs : rational_t) : outcome bool :=
  noexcept (do b <- gt lhs rhs ; Returns (negb b)).

Definition ge (lhs rhs : rational_t) : outcome bool :=
  noexcept (do b <- lt lhs rhs ; Returns (negb b)).

(** [operator!=] *)
Definition ne (lhs rhs : rational_t) : bool := negb (eq lhs rhs).

(** [operator+(rational_t const&) noexcept], unary *)
Definition plus (number : rational_t) : rational_t := number.

(** [operator++(rational_t&) noexcept], prefix:
    [number = number + rational_t(1, 1); return number;].  The value is
    [number] after the call, which is also what the returned reference
    leads to. *)
Definition pre_inc (number : rational_t) : outcome rational_t :=
  noexcept (do one <- rational 1 1 ; add number one).

(** [operator++(rational_t&, int) noexcept], postfix: the pair is the
    returned copy [old] and [number] after the call. *)
Definition post_inc (number : rational_t) : outcome (rational_t * rational_t) :=
  noexcept (
    let old := number in
    do one <- rational 1 1 ;
    do number' <- add number one ;
    Returns (old, number')).

(** [operator--(rational_t&) noexcept], prefix *)
Definition pre_dec (number : rational_t) : outcome rational_t :=
  noexcept (do one <- rational 1 1 ; sub number one).

(** [operator--(rational_t&, int) noexcept], postfix *)
Definition post_dec (number : rational_t) : outcome (rational_t * rational_t) :=
  noexcept (
    let old := number in
    do one <- rational 1 1 ;
    do number' <- sub number one ;
    Returns (old, number')).

(** [operator+=], [operator-=], [operator*=], [operator/=]: [lhs] after
    [lhs = lhs + rhs] and the like. *)
Definition add_assign (lhs rhs : rational_t) : outcome rational_t :=
  noexcept (add lhs rhs).

Definition sub_assign (lhs rhs : rational_t) : outcome rational_t :=
  noexcept (sub lhs rhs).

Definition mul_assign (lhs rhs : rational_t) : outcome rational_t :=
  noexcept (mul lhs rhs).

Definition div_assign (lhs rhs : rational_t) : outcome rational_t :=
  noexcept (div lhs rhs).

End IntT.

(** The class invariant of the specification: reduced form with a positive
    denominator. *)
Definition reduced (r : rational_t) : Prop :=
  0 < denom_ r /\ Z.gcd (Z.abs (num_ r)) (denom_ r) = 1.

End Rational.

(** ** vector.h *)

Module Vector.

(** [enum : size_type] *)
Definition initial_capacity : Z := 10.
Definition capacity_factor : Z := 2.
Definition capacity_sanitize_factor : Z := capacity_factor * 2.

(** Arithmetic of [size_type], the 64-bit unsigned [size_t]. *)
Definition size_type (z : Z) : Z := z mod 2 ^ 64.

(** The state of [std::allocator<T>] that matters: which blocks are live.
    A block is named by a number; [next] is the first name not yet used. *)
Record allocator : Type := { next : nat; live : gset nat }.

(** Code that uses the allocator. *)
Definition M (A : Type) : Type := allocator -> outcome (A * allocator).

Definition ret {A : Type} (a : A) : M A := fun s => Returns (a, s).

Definition mbind {A B : Type} (m : M A) (k : A -> M B) : M B :=
  fun s =>
    match m s with
    | Returns (a, s') => k a s'
    | Throws e => Throws e
    | Terminates e => Terminates e
    | Undefined => Undefined
    | Diverges => Diverges
    end.

Definition lift {A : Type} (o : outcome A) : M A :=
  fun s => do a <- o ; Returns (a, s).

Definition throw {A : Type} (e : exn) : M A := fun _ => Throws e.

Definition mnoexcept {A : Type} (m : M A) : M A := fun s => noexcept (m s).

Notation "'run' x <- m ; k" := (mbind m (fun x => k))
  (at level 10, x name, m at level 100, k at level 200).

(** The objects of a block: [None] is an object that was never assigned. *)
Abbreviation block T := (list (option T)).

Section Vector.

Context {T : Type}.

(** [value_type()], the value-initialised element. *)
Variable value_type : T.

(** Whether [std::allocator<T>::allocate] can satisfy a request for [n]
    objects; otherwise it throws [std::bad_alloc]. *)
Variable can_allocate : Z -> bool.

(** A vector.  [start] names the owned block and [cells] are its objects;
    the pointers [finish] and [end_of_storage] are kept as their distance
    from [start]. *)
Record vector : Type := {
  start : nat;
  cells : block T;
  finish : Z;
  end_of_storage : Z
}.

(** [size()] and [capacity()] *)
Definition size (v : vector) : Z := finish v.
Definition capacity (v : vector) : Z := end_of_storage v.

(** [p[i]] read through a raw pointer to the objects [p]. *)
Definition load (p : block T) (i : Z) : outcome T :=
  if i <? 0 then Undefined
  else match p !! Z.to_nat i with
       | Some (Some x) => Returns x
       | _ => Undefined
       end.

(** [p[i] = x] written through a raw pointer. *)
Definition store (p : block T) (i : Z) (x : T) : outcome (block T) :=
  if (0 <=? i) && (i <? Z.of_nat (length p))
  then Returns (<[Z.to_nat i := Some x]> p)
  else Undefined.

(** [pointer allocate(size_type n)]: [None] is the null pointer. *)
Definition allocate (n : Z) : M (option nat) :=
  fun s =>
    if n =? 0 then Returns (None, s)
    else if can_allocate n
         then Returns (Some (next s),
                       {| next := S (next s); live := {[next s]} ∪ live s |})
         else Throws bad_alloc.

(** [void deallocate()] *)
Definition deallocate (v : vector) : M unit :=
  fun s =>
    if decide (start v ∈ live s)
    then Returns (tt, {| next := next s; live := live s ∖ {[start v]} |})
    else Undefined.

(** [void create_storage(size_type capacity)] *)
Definition create_storage (capacity : Z) : M vector :=
  run p <- allocate capacity ;
  match p with
  | None => throw bad_alloc
  | Some b =>
      ret {| start := b;
             cells := replicate (Z.to_nat capacity) None;
             finish := 0;
             end_of_storage := capacity |}
  end.

(** [for (pointer p = start; p != finish; ++p) *p = value;] with [n] rounds
    to go and [p] at distance [i] from [start]. *)
Fixpoint fill (n : nat) (i : Z) (value : T) (to : block T) : outcome (block T) :=
  match n with
  | O => Returns to
  | S n' => do to' <- store to i value ; fill n' (i + 1) value to'
  end.

(** [void assign_content(size_type a_size, const_reference value)].  The
    first statement, [finish = start + a_size], forms a pointer; when it
    would lie beyond the end of the block, the addition has undefined
    behaviour, and the loop that runs up to [finish] has no meaning. *)
Definition assign_content_value (a_size : Z) (value : T) (v : vector)
  : outcome vector :=
  if a_size <=? capacity v
  then
    do c <- fill (Z.to_nat a_size) 0 value (cells v) ;
    Returns {| start := start v; cells := c; finish := a_size;
               end_of_storage := end_of_storage v |}
  else Undefined.

(** [for (size_type it = 0; it != size; it++) to[it] = from[it];] with [n]
    rounds to go. *)
Fixpoint copy (n : nat) (it : Z) (from to : block T) : outcome (block T) :=
  match n with
  | O => Returns to
  | S n' =>
      do x <- load from it ;
      do to' <- store to it x ;
      copy n' (it + 1) from to'
  end.

(** [void assign_content(size_type size, const_pointer from, pointer to)]:
    the objects of [to] after the loop; [finish = to + size] is set by the
    caller, which knows whose block [to] is. *)
Definition assign_content (size : Z) (from to : block T) : outcome (block T) :=
  copy (Z.to_nat size) 0 from to.

(** [void assign_content(std::initializer_list<value_type> const& from)]:
    [*p++ = *it] for every element. *)
Fixpoint assign_list (from : list T) (p : Z) (to : block T) : outcome (block T) :=
  match from with
  | [] => Returns to
  | x :: from' => do to' <- store to p x ; assign_list from' (p + 1) to'
  end.

(** [void move_content(vector&& vec)]: the pair is [*this] and [vec]. *)
Definition move_content (vec : vector) : M (vector * vector) :=
  run fresh <- create_storage initial_capacity ;
  ret (vec, fresh).

(** [vector()], [noexcept] for [std::allocator]. *)
Definition vector_default : M vector :=
  mnoexcept (create_storage initial_capacity).

(** [explicit vector(size_type n)] *)
Definition vector_n (n : Z) : M vector :=
  run v <- create_storage (size_type (n * capacity_factor)) ;
  lift (assign_content_value n value_type v).

(** [explicit vector(size_type n, const_reference value)] *)
Definition vector_fill (n : Z) (value : T) : M vector :=
  run v <- create_storage (size_type (n * capacity_factor)) ;
  lift (assign_content_value n value v).

(** [explicit vector(size_type n, const_pointer p)]: [None] is the null
    pointer. *)
Definition vector_ptr (n : Z) (p : option (block T)) : M vector :=
  match p with
  | None => throw invalid_argument
  | Some from =>
      if n =? 0 then throw invalid_argument
      else
        run v <- create_storage (size_type (n * capacity_factor)) ;
        run c <- lift (assign_content n from (cells v)) ;
        ret {| start := start v; cells := c; finish := n;
               end_of_storage := end_of_storage v |}
  end.

(** [explicit vector(const vector& vec)], [noexcept] for [std::allocator]. *)
Definition vector_copy (vec : vector) : M vector :=
  mnoexcept (
    run v <- create_storage (size_type (size vec * capacity_factor)) ;
    run c <- lift (assign_content (size vec) (cells vec) (cells v)) ;
    ret {| start := start v; cells := c; finish := size vec;
           end_of_storage := end_of_storage v |}).

(** [explicit vector(vector&& other) noexcept]: the pair is the new vector
    and [other]. *)
Definition vector_move (other : vector) : M (vector * vector) :=
  mnoexcept (
    run v <- create_storage (size_type (size other * capacity_factor)) ;
    move_content other).

(** [explicit vector(std::initializer_list<value_type> const& list)],
    [noexcept] for [std::allocator]. *)
Definition vector_list (list : list T) : M vector :=
  mnoexcept (
    run v <- create_storage
               (size_type (Z.of_nat (length list) * capacity_factor)) ;
    run c <- lift (assign_list list 0 (cells v)) ;
    ret {| start := start v; cells := c;
           finish := Z.of_nat (length list);
           end_of_storage := end_of_storage v |}).

(** [vector& operator=(vector&& other) noexcept] for two distinct objects:
    the pair is [*this] and [other]. *)
Definition move_assign (this other : vector) : M (vector * vector) :=
  mnoexcept (
    run _ <- deallocate this ;
    move_content other).

(** [~vector()] *)
Definition destroy (v : vector) : M unit := deallocate v.

(** [void clear()] *)
Definition clear (v : vector) : M vector :=
  run _ <- deallocate v ;
  create_storage initial_capacity.

(** [void reserve(size_type new_capacity = 0)] *)
Definition reserve (new_capacity : Z) (v : vector) : M vector :=
  if new_capacity =? 0 then clear v
  else if new_capacity =? capacity v then ret v
  else
    run temp <- allocate new_capacity ;
    let new_size := if new_capacity <? size v then new_capacity else size v in
    match temp with
    | None => lift Undefined
    | Some b =>
        run c <- lift (assign_content new_size (cells v)
                         (replicate (Z.to_nat new_capacity) None)) ;
        run _ <- deallocate v ;
        ret {| start := b; cells := c; finish := new_size;
               end_of_storage := new_capacity |}
    end.


(** [inline void sanitize()] *)
Definition sanitize (v : vector) : M vector :=
  if size_type (size v * capacity_sanitize_factor) <? capacity v
  then reserve (size_type (size v * capacity_factor)) v
  else ret v.

(** [while (pos + len < size()) { start[pos] = start[pos + len]; ++pos; }]:
    the objects and [pos] after the loop. *)
Fixpoint erase_loop (fuel : nat) (pos len : Z) (size : Z) (c : block T)
  : outcome (block T * Z) :=
  match fuel with
  | O => Diverges
  | S fuel' =>
      if size_type (pos + len) <? size
      then
        do x <- load c (size_type (pos + len)) ;
        do c' <- store c pos x ;
        erase_loop fuel' (size_type (pos + 1)) len size c'
      else Returns (c, pos)
  end.

(** [vector& erase(size_type pos = 0, size_type len = 0)] *)
Definition erase (pos len : Z) (v : vector) : M vector :=
  if size v <? pos then ret v
  else
    let len := if len =? 0 then size v else len in
    run r <- lift (erase_loop (S (Z.to_nat (size v))) pos len (size v)
                     (cells v)) ;
    sanitize {| start := start v; cells := fst r; finish := snd r;
                end_of_storage := end_of_storage v |}.

(** [void pop_back()] *)
Definition pop_back (v : vector) : M vector :=
  if 0 <? size v
  then sanitize {| start := start v; cells := cells v;
                   finish := finish v - 1;
                   end_of_storage := end_of_storage v |}
  else ret v.

(** An argument of type [const_reference]: a reference to an object
    outside the block of the vector (a literal, a local variable, an element
    of another container), or to the element [start[k]] of the vector
    itself. *)
Inductive const_reference : Type :=
| Outside (x : T)
| Element (k : Z).

(** An argument of type [const_pointer]: a pointer to objects outside the
    block of the vector, or the pointer [start + k] into the block. *)
Inductive const_pointer : Type :=
| Buffer (objects : block T)
| Into (k : Z).

(** Whether the block [b], which was the block of the vector when the
    member function was entered, still is the block of [v] and has not been
    released: only then can a pointer or reference into it be used. *)
Definition intact (b : nat) (v : vector) : M bool :=
  fun s => Returns (bool_decide (b ∈ live s /\ start v = b), s).

(** Reading through a [const_reference] that was valid when the member
    function was entered with the block [b]. *)
Definition deref (r : const_reference) (b : nat) (v : vector) : M T :=
  match r with
  | Outside x => ret x
  | Element k =>
      run ok <- intact b v ;
      lift (if ok then load (cells v) k else Undefined)
  end.

(** [void push_back(const_reference element)]: [element] is read in the
    last statement, after [reserve] may have released the block. *)
Definition push_back (element : const_reference) (v : vector) : M vector :=
  let b := start v in
  run v <- (if capacity v <? size_type (size v + 1)
            then reserve (size_type (size_type (size v + 1) * capacity_factor)) v
            else ret v) ;
  run x <- deref element b v ;
  run c <- lift (store (cells v) (finish v) x) ;
  ret {| start := start v; cells := c; finish := finish v + 1;
         end_of_storage := end_of_storage v |}.

(** [reference operator[](size_type pos) noexcept(false)]: the reference is
    the distance of the object from [start]. *)
Definition index (pos : Z) (v : vector) : outcome Z :=
  if size v <=? pos then Throws out_of_range else Returns pos.

(** [const_reference operator[](size_type pos) const noexcept(false)]: in a
    [const] member function the call [operator [](pos)] resolves to the
    [const] overload, the function itself. *)
Fixpoint index_const (fuel : nat) (pos : Z) (v : vector) : outcome Z :=
  match fuel with
  | O => Diverges
  | S fuel' => index_const fuel' pos v
  end.

(** Reading through the reference that [operator[]] returned. *)
Definition get (pos : Z) (v : vector) : outcome T :=
  do r <- index pos v ; load (cells v) r.

(** [p[j]], where [c] are the objects of the block of the vector as they
    are now and [ok] tells whether a pointer into the block that the vector
    had on entry can still be used. *)
Definition fetch (p : const_pointer) (ok : bool) (c : block T) (j : Z)
  : outcome T :=
  match p with
  | Buffer objects => load objects j
  | Into k => if ok then load c (k + j) else Undefined
  end.

(** [for (i = pos, j = 0; j != p_size; i++, j++) start[i] = p[j];] with [n]
    rounds to go: the objects and [i] after the loop. *)
Fixpoint insert_loop (n : nat) (i j : Z) (p : const_pointer) (ok : bool)
  (c : block T) : outcome (block T * Z) :=
  match n with
  | O => Returns (c, i)
  | S n' =>
      do x <- fetch p ok c j ;
      do c' <- store c i x ;
      insert_loop n' (size_type (i + 1)) (size_type (j + 1)) p ok c'
  end.

(** [for (j = 0; j != temp.size(); j++, i++) start[i] = temp[j];] with [n]
    rounds to go. *)
Fixpoint insert_tail (n : nat) (i j : Z) (temp : vector) (c : block T)
  : outcome (block T) :=
  match n with
  | O => Returns c
  | S n' =>
      do x <- get j temp ;
      do c' <- store c i x ;
      insert_tail n' (size_type (i + 1)) (size_type (j + 1)) temp c'
  end.

(** [vector& insert(size_type pos, const_pointer p, size_type p_size)]: [p]
    is read in the first loop, after the tail was saved and after [reserve]
    may have released the block, and while the loop overwrites the objects
    from [pos] on. *)
Definition insert (pos : Z) (p : const_pointer) (p_size : Z) (v : vector)
  : M vector :=
  let b := start v in
  run temp <- vector_default ;
  run pt <- (if size v <=? pos then ret (size v, temp)
             else
               run t <- vector_ptr (size_type (size v - pos))
                          (Some (drop (Z.to_nat pos) (cells v))) ;
               run tt' <- move_assign temp t ;
               run _ <- destroy (snd tt') ;
               ret (pos, fst tt')) ;
  let pos := fst pt in
  let temp := snd pt in
  let res_size := size_type (size v + p_size) in
  run v <- (if capacity v <? res_size
            then reserve (size_type (res_size * capacity_factor)) v
            else ret v) ;
  run ok <- intact b v ;
  run ci <- lift (insert_loop (Z.to_nat p_size) pos 0 p ok (cells v)) ;
  run c <- (if pos =? size v then ret (fst ci)
            else lift (insert_tail (Z.to_nat (size temp)) (snd ci) 0 temp
                         (fst ci))) ;
  run _ <- destroy temp ;
  ret {| start := start v; cells := c; finish := res_size;
         end_of_storage := end_of_storage v |}.

(** [pointer data() noexcept]: the objects that the pointer leads to. *)
Definition data (v : vector) : block T := cells v.

(** [vector& insert(size_type pos, vector const& p, size_type inserted_size)]:
    [p] is [None] when it is the vector itself, whose [data()] is [start],
    and another vector otherwise, whose [data()] leads to the objects of
    another block. *)
Definition insert_vector (pos : Z) (p : option vector) (inserted_size : Z)
  (v : vector) : M vector :=
  let p_size := match p with None => size v | Some p => size p end in
  let p_data := match p with None => Into 0 | Some p => Buffer (data p) end in
  let inserted_size := if inserted_size =? 0 then p_size else inserted_size in
  insert pos p_data inserted_size v.

(** [vector& insert(size_type pos, const_reference value)]: [value] is
    copied into the initializer list of the temporary [vector{value}], which
    lives until the call returns. *)
Definition insert_value (pos : Z) (value : const_reference) (v : vector)
  : M vector :=
  run x <- deref value (start v) v ;
  run single <- vector_list [x] ;
  run v' <- insert_vector pos (Some single) 0 v ;
  run _ <- destroy single ;
  ret v'.

(** [bool empty() const noexcept] *)
Definition empty (v : vector) : bool := finish v =? 0.

(** [vector& assign(vector const& vec)]: [vec] is [None] when it is the
    vector itself ([this == &vec]), and another vector otherwise. *)
Definition assign (vec : option vector) (this : vector) : M vector :=
  match vec with
  | None => ret this
  | Some vec =>
      run this <- (if capacity this <? size vec
                   then reserve (size_type (size vec * capacity_factor)) this
                   else ret this) ;
      run c <- lift (assign_content (size vec) (cells vec) (cells this)) ;
      ret {| start := start this; cells := c; finish := size vec;
             end_of_storage := end_of_storage this |}
  end.

(** [v[pos] = x]: the non-[const] [operator[]] and a write through the
    reference it returns. *)
Definition put (pos : Z) (x : T) (v : vector) : outcome vector :=
  do r <- index pos v ;
  do c <- store (cells v) r x ;
  Returns {| start := start v; cells := c; finish := finish v;
             end_of_storage := end_of_storage v |}.

End Vector.

End Vector.

(** * Vocabulary of the properties *)

(** Exactly one of three booleans is [true]. *)
Definition exactly_one (x y z : bool) : bool :=
  match x, y, z with
  | true, false, false | false, true, false | false, false, true => true
  | _, _, _ => false
  end.

(** The rational [r] has the value [N / D]. *)
Definition represents (r : Rational.rational_t) (N D : Z) : Prop :=
  D <> 0 /\ Rational.num_ r * D = N * Rational.denom_ r.

(** ** Allocator and vector invariants *)

Section Vocabulary.

Import Vector.

Context {T : Type}.

Variable can_allocate : Z -> bool.

(** The allocator satisfies every request of at most [B] objects. *)
Definition generous (B : Z) : Prop :=
  forall n, 0 < n <= B -> can_allocate n = true.

(** The judgement on code [m] run from the allocator state [s]: it returns
    and [Q] holds of the result, or it fails on [bad_alloc], which does not
    happen under an allocator generous up to [B]; it has no undefined
    behaviour and comes back. *)
Definition spec {A : Type} (B : Z) (m : M A) (s : allocator)
  (Q : A -> allocator -> Prop) : Prop :=
  match m s with
  | Returns (a, s') => Q a s'
  | Throws e | Terminates e => e = bad_alloc /\ ~ generous B
  | Undefined | Diverges => False
  end.

(** The allocator state after a block was handed out and after block [b]
    was given back. *)
Definition after_allocate (s : allocator) : allocator :=
  {| next := S (next s); live := {[next s]} ∪ live s |}.

Definition after_deallocate (b : nat) (s : allocator) : allocator :=
  {| next := next s; live := live s ∖ {[b]} |}.

(** Names of live blocks have been handed out. *)
Definition consistent (s : allocator) : Prop :=
  forall b, b ∈ live s -> (b < next s)%nat.

(** The vector [v] owns a live block of [capacity v] objects, of which the
    first [size v] are the elements [l]. *)
Definition holds (s : allocator) (v : vector (T:=T)) (l : list T) : Prop :=
  start v ∈ live s /\
  Z.of_nat (length (cells v)) = capacity v /\
  0 <= size v <= capacity v /\
  0 < capacity v < 2 ^ 62 /\
  size v = Z.of_nat (length l) /\
  take (length l) (cells v) = Some <$> l.

(** The vector that [reserve(n)] leaves when it reallocates. *)
Definition reserved (n : Z) (s : allocator) (v : vector (T:=T)) (l : list T)
  : vector (T:=T) :=
  {| start := next s;
     cells := (Some <$> take (Z.to_nat n) l)
              ++ replicate (Z.to_nat n - length l) None;
     finish := Z.min n (size v);
     end_of_storage := n |}.

(** What [insert] knows after the tail has been saved: the position and the
    vector [temp]. *)
Definition tail_saved (s0 : allocator) (pos : Z) (v : vector (T:=T))
  (l : list T) (pt : Z * vector (T:=T)) (s : allocator) : Prop :=
  (forall b, b ∈ live s0 -> b ∈ live s /\ b <> start (snd pt)) /\
  consistent s /\ holds s v l /\
  start (snd pt) ∈ live s /\ start (snd pt) <> start v /\
  fst pt = Z.min pos (size v) /\
  (pos < size v ->
   exists junk,
     cells (snd pt) = (Some <$> drop (Z.to_nat pos) l) ++ junk /\
     size (snd pt) = Z.of_nat (length (drop (Z.to_nat pos) l))).

(** The object that the reference [r] leads to when the vector has the
    elements [l]. *)
Definition referent (r : const_reference (T:=T)) (l : list T) : option T :=
  match r with
  | Outside x => Some x
  | Element k => if 0 <=? k then l !! Z.to_nat k else None
  end.

(** Partial correctness: whenever [m], run from [s], returns, [Q] holds of
    the result. *)
Definition ensures {A : Type} (m : M A) (s : allocator)
  (Q : A -> allocator -> Prop) : Prop :=
  forall a s', m s = Returns (a, s') -> Q a s'.

(** What [sanitize] leaves: a capacity of at most four times the size, or
    an empty vector with the initial capacity. *)
Definition sanitized (v : vector (T:=T)) : Prop :=
  capacity v <= capacity_sanitize_factor * size v \/
  (size v = 0 /\ capacity v = initial_capacity).

(** Between [s] and [s'] the block of the vector may have been replaced,
    and nothing else has changed: no other block was released and none
    stays behind. *)
Definition only_own_block (s : allocator) (v : vector (T:=T))
  (s' : allocator) (v' : vector (T:=T)) : Prop :=
  start v' ∈ live s' /\ live s' ∖ {[start v']} = live s ∖ {[start v]}.

(** The constructor [m], run from [s], returns a vector with the elements
    [l] and the capacity [c], in a block of its own that was not live
    before; no other block is touched. *)
Definition constructs (m : M (vector (T:=T))) (s : allocator) (l : list T)
  (c : Z) : Prop :=
  exists v,
    m s = Returns (v, after_allocate s) /\
    start v = next s /\ capacity v = c /\ holds (after_allocate s) v l.

End Vocabulary.

(** ** The logical contents that the operations prescribe

    These follow the words of the specification, on plain lists. *)

Section Contents.

Context {T : Type}.

(** [push_back(value)]: appends. *)
Definition contents_push_back (value : T) (l : list T) : list T := l ++ [value].

(** [pop_back()]: no-op if empty, otherwise one element shorter. *)
Definition contents_pop_back (l : list T) : list T :=
  take (length l - 1)%nat l.

(** [erase(pos, len)]: no-op if [pos > size]; [len == 0] erases to the end;
    otherwise the valid overlap [[pos, min(pos + len, size))] is removed and
    the trailing elements move left over the gap. *)
Definition contents_erase (pos len : Z) (l : list T) : list T :=
  if Z.of_nat (length l) <? pos then l
  else if len =? 0 then take (Z.to_nat pos) l
  else take (Z.to_nat pos) l
       ++ drop (Z.to_nat (Z.min (pos + len) (Z.of_nat (length l)))) l.

(** [insert(pos, data, count)]: appended at the end if [pos >= size];
    otherwise the elements go in before the tail that starts at [pos]. *)
Definition contents_insert (pos : Z) (p : list T) (l : list T) : list T :=
  if Z.of_nat (length l) <=? pos then l ++ p
  else take (Z.to_nat pos) l ++ p ++ drop (Z.to_nat pos) l.

(** The four mutating operations of the container invariant, called with
    arguments of the caller's own: [PushBack value] is [push_back] of an
    object outside the block of the vector, [Insert pos p] is [insert] from
    a buffer [p] outside the block. *)
Inductive operation : Type :=
| PushBack (value : T)
| PopBack
| Insert (pos : Z) (p : list T)
| Erase (pos len : Z).

(** The logical contents after an operation and after a sequence. *)
Definition prescribed (op : operation) (l : list T) : list T :=
  match op with
  | PushBack value => contents_push_back value l
  | PopBack => contents_pop_back l
  | Insert pos p => contents_insert pos p l
  | Erase pos len => contents_erase pos len l
  end.

Definition prescribed_all (ops : list operation) (l : list T) : list T :=
  fold_left (fun l op => prescribed op l) ops l.

(** The operation on the vector. *)
Definition perform (can_allocate : Z -> bool) (op : operation)
  (v : Vector.vector (T:=T)) : Vector.M (Vector.vector (T:=T)) :=
  match op with
  | PushBack value => Vector.push_back can_allocate (Vector.Outside value) v
  | PopBack => Vector.pop_back can_allocate v
  | Insert pos p =>
      Vector.insert can_allocate pos (Vector.Buffer (Some <$> p))
        (Z.of_nat (length p)) v
  | Erase pos len => Vector.erase can_allocate pos len v
  end.

Fixpoint perform_all (can_allocate : Z -> bool) (ops : list operation)
  (v : Vector.vector (T:=T)) : Vector.M (Vector.vector (T:=T)) :=
  match ops with
  | [] => Vector.ret v
  | op :: ops' =>
      Vector.mbind (perform can_allocate op v) (perform_all can_allocate ops')
  end.

(** The arguments are values of [size_type], no [erase] wraps [pos + len]
    around, and the buffer of an [insert], which lies outside the block of
    the vector, fits the address space. *)
Definition plain (op : operation) : Prop :=
  match op with
  | PushBack _ | PopBack => True
  | Insert pos p => 0 <= pos /\ Z.of_nat (length p) < 2 ^ 62
  | Erase pos len => 0 <= pos /\ 0 <= len /\ pos + len < 2 ^ 64
  end.

End Contents.

(** The value that a call returns, without the allocator state. *)
Definition result {A : Type} (o : outcome (A * Vector.allocator)) : outcome A :=
  do r <- o ; Returns (fst r).

(** ** A concrete allocator and vector for the examples *)

Definition up_to_1000 (n : Z) : bool := n <=? 1000.

Definition up_to_5 (n : Z) : bool := n <=? 5.

Definition nothing_live : Vector.allocator :=
  {| Vector.next := 0; Vector.live := ∅ |}.

Definition one_live : Vector.allocator :=
  {| Vector.next := 1; Vector.live := {[0%nat]} |}.

Definition two_live : Vector.allocator :=
  {| Vector.next := 2; Vector.live := {[0%nat; 1%nat]} |}.

Definition two_of_four : Vector.vector (T:=Z) :=
  {| Vector.start := 0;
     Vector.cells := [Some 5; Some 7; None; None];
     Vector.finish := 2;
     Vector.end_of_storage := 4 |}.

Definition other_two : Vector.vector (T:=Z) :=
  {| Vector.start := 1;
     Vector.cells := [Some 9; Some 6];
     Vector.finish := 2;
     Vector.end_of_storage := 2 |}.

Definition none_of_four : Vector.vector (T:=Z) :=
  {| Vector.start := 0;
     Vector.cells := [None; None; None; None];
     Vector.finish := 0;
     Vector.end_of_storage := 4 |}.

(** * Properties *)

Lemma wrap_id (w z : Z) :
  0 < w -> - 2 ^ (w - 1) <= z < 2 ^ (w - 1) -> wrap w z = z.
Proof.
  intros Hw Hz. unfold wrap.
  assert (Hp : 2 ^ w = 2 * 2 ^ (w - 1)).
  { replace w with (Z.succ (w - 1)) at 1 by lia. apply Z.pow_succ_r. lia. }
  rewrite Z.mod_small; lia.
Qed.

Lemma wrap_range (w z : Z) :
  0 < w -> - 2 ^ (w - 1) <= wrap w z < 2 ^ (w - 1).
Proof.
  intros Hw. unfold wrap.
  assert (Hp : 2 ^ w = 2 * 2 ^ (w - 1)).
  { replace w with (Z.succ (w - 1)) at 1 by lia. apply Z.pow_succ_r. lia. }
  assert (0 < 2 ^ (w - 1)) by (apply Z.pow_pos_nonneg; lia).
  pose proof (Z.mod_pos_bound (z + 2 ^ (w - 1)) (2 ^ w)). lia.
Qed.

(** ** Reduced form over exact integers *)

Section RationalFacts.

Import Rational.

Local Notation "n # d" := {| num_ := n; denom_ := d |} (at level 55).

Lemma quot_exact (g k : Z) : g <> 0 -> Z.quot (g * k) g = k.
Proof. intros Hg. rewrite Z.mul_comm. now apply Z.quot_mul. Qed.

(** Dividing both fields by their (positive) gcd gives the reduced form of
    the same value. *)
Lemma reduce_pos (n d : Z) :
  0 < d ->
  let g := Z.gcd n d in
  0 < g /\ reduced (Z.quot n g # Z.quot d g) /\
  Z.quot n g * d = n * Z.quot d g /\
  (g <= d /\ Z.quot d g <= d /\
   (0 <= n -> 0 <= Z.quot n g <= n) /\ (n <= 0 -> n <= Z.quot n g <= 0)).
Proof.
  intros Hd g.
  assert (Hg : 0 < g).
  { pose proof (Z.gcd_nonneg n d).
    assert (g <> 0) by (unfold g; intros E; apply Z.gcd_eq_0_r in E; lia).
    unfold g in *; lia. }
  destruct (Z.gcd_divide_l n d) as [n' Hn'].
  destruct (Z.gcd_divide_r n d) as [d' Hd'].
  assert (E : Z.gcd (n / g) (d / g) = 1)
    by (apply Z.gcd_div_gcd; [lia | reflexivity]).
  fold g in Hn', Hd'. clearbody g.
  assert (En : Z.quot n g = n').
  { rewrite Hn', Z.mul_comm. apply quot_exact. lia. }
  assert (Ed : Z.quot d g = d').
  { rewrite Hd', Z.mul_comm. apply quot_exact. lia. }
  rewrite En, Ed. split; [exact Hg|]. split.
  - unfold reduced; simpl. split; [nia|].
    rewrite Z.gcd_abs_l.
    rewrite Hn', Hd', !Z.div_mul in E by lia. exact E.
  - split; [subst n d; ring|].
    assert (0 < d') by nia.
    split; [nia|]. split; [nia|]. split; intros; nia.
Qed.

(** The constructor over exact integers: it returns for every nonzero
    denominator, the result is reduced and has the value [num / denom]. *)
Lemma rational_exact (n d : Z) :
  d <> 0 ->
  exists r, rational Exact n d = Returns r /\ reduced r /\
            num_ r * d = n * denom_ r.
Proof.
  intros Hd. unfold rational, check, gcd, narrow, quot, fits. unfold arith.
  simpl.
  destruct (Z.eqb_spec d 0) as [|_]; [contradiction|].
  destruct (Z.ltb_spec d 0) as [Hneg|Hpos]; simpl.
  - destruct (reduce_pos (- n) (- d)) as (Hg & Hr & Hv & _); [lia|].
    destruct (Z.eqb_spec (Z.gcd (- n) (- d)) 0) as [E|_]; [lia|]. simpl.
    eexists; split; [reflexivity|]. split; [exact Hr|]. simpl. lia.
  - destruct (reduce_pos n d) as (Hg & Hr & Hv & _); [lia|].
    destruct (Z.eqb_spec (Z.gcd n d) 0) as [E|_]; [lia|]. simpl.
    eexists; split; [reflexivity|]. split; [exact Hr|]. simpl. lia.
Qed.

(** Two reduced rationals of the same value have the same fields. *)
Lemma reduced_unique (r s : rational_t) :
  reduced r -> reduced s ->
  num_ r * denom_ s = num_ s * denom_ r -> r = s.
Proof.
  destruct r as [a b], s as [c d]; unfold reduced; simpl.
  rewrite !Z.gcd_abs_l. intros [Hb Hab] [Hd Hcd] Hv.
  assert (Hbd : (b | d)).
  { apply Z.gauss with a; [|now rewrite Z.gcd_comm].
    exists c. lia. }
  assert (Hdb : (d | b)).
  { apply Z.gauss with c; [|now rewrite Z.gcd_comm].
    exists a. lia. }
  assert (b = d) by (apply Z.divide_antisym_nonneg; [lia | lia | easy | easy]).
  subst d. f_equal. apply (Z.mul_reg_r _ _ b); lia.
Qed.

Lemma eq_true_iff (r s : rational_t) : eq r s = true <-> r = s.
Proof.
  destruct r as [a b], s as [c d]; unfold eq; simpl.
  rewrite andb_true_iff, !Z.eqb_eq. split.
  - intros [-> ->]; reflexivity.
  - intros E; injection E; auto.
Qed.

(** The constructor returns the one reduced rational of value
    [num / denom]. *)
Lemma rational_exact_is (n d : Z) (s : rational_t) :
  d <> 0 -> reduced s -> num_ s * d = n * denom_ s ->
  rational Exact n d = Returns s.
Proof.
  intros Hd Hs Hv.
  destruct (rational_exact n d Hd) as (r & Hr & Hred & Hrv).
  rewrite Hr. f_equal. apply reduced_unique; try assumption.
  apply (Z.mul_reg_r _ _ d); [exact Hd|].
  transitivity (n * denom_ r * denom_ s); [rewrite <- Hrv; ring|].
  transitivity (n * denom_ s * denom_ r); [ring | rewrite <- Hv; ring].
Qed.

Lemma reduced_neg (b : rational_t) :
  reduced b -> reduced (- num_ b # denom_ b).
Proof.
  unfold reduced; simpl. now rewrite Z.abs_opp.
Qed.

Lemma neg_exact (b : rational_t) :
  reduced b -> neg Exact b = Returns (- num_ b # denom_ b).
Proof.
  intros Hb. unfold neg. cbn [arith width bind].
  rewrite (rational_exact_is _ _ (- num_ b # denom_ b)); simpl;
    [reflexivity | destruct Hb; lia | now apply reduced_neg | ring].
Qed.

(** Addition of reduced rationals returns the reduced sum. *)
Lemma add_exact (a b : rational_t) :
  reduced a -> reduced b ->
  exists s, add Exact a b = Returns s /\ reduced s /\
    num_ s * (denom_ a * denom_ b)
    = (num_ a * denom_ b + num_ b * denom_ a) * denom_ s.
Proof.
  destruct a as [na da], b as [nb db].
  intros [Ha _] [Hb _]; simpl in *.
  unfold add, gcd, quot, fits. unfold arith. simpl.
  set (g := Z.gcd da db).
  assert (Hg : 0 < g).
  { pose proof (Z.gcd_nonneg da db).
    assert (g <> 0) by (unfold g; intros E; apply Z.gcd_eq_0_r in E; lia).
    unfold g in *; lia. }
  destruct (Z.gcd_divide_l da db) as [x Hx].
  destruct (Z.gcd_divide_r da db) as [y Hy].
  fold g in Hx, Hy. clearbody g.
  assert (Hxp : 0 < x) by nia.
  assert (Hyp : 0 < y) by nia.
  destruct (Z.eqb_spec g 0) as [|_]; [lia|]. simpl.
  assert (Etd : Z.quot (da * db) g = x * y * g).
  { subst da db. replace (x * g * (y * g)) with (x * y * g * g) by ring.
    apply Z.quot_mul. lia. }
  rewrite Etd.
  destruct (Z.eqb_spec da 0) as [|_]; [lia|]. simpl.
  destruct (Z.eqb_spec db 0) as [|_]; [lia|]. simpl.
  assert (Eql : Z.quot (x * y * g) da = y).
  { subst da. replace (x * y * g) with (y * (x * g)) by ring.
    apply Z.quot_mul. lia. }
  assert (Eqr : Z.quot (x * y * g) db = x).
  { subst db. replace (x * y * g) with (x * (y * g)) by ring.
    apply Z.quot_mul. lia. }
  rewrite Eql, Eqr.
  destruct (rational_exact (y * na + x * nb) (x * y * g)) as (r & Hr & Hred & Hv);
    [nia|].
  rewrite Hr. cbn [noexcept]. exists r. split; [reflexivity|].
  split; [exact Hred|].
  subst da db.
  transitivity (g * (num_ r * (x * y * g))); [ring|].
  rewrite Hv. ring.
Qed.

(** Subtraction of reduced rationals returns the reduced difference. *)
Lemma sub_exact (a b : rational_t) :
  reduced a -> reduced b ->
  exists s, sub Exact a b = Returns s /\ reduced s /\
    num_ s * (denom_ a * denom_ b)
    = (num_ a * denom_ b - num_ b * denom_ a) * denom_ s.
Proof.
  intros Ha Hb. unfold sub. rewrite (neg_exact b Hb). simpl.
  destruct (add_exact a (- num_ b # denom_ b) Ha (reduced_neg b Hb))
    as (s & Hs & Hred & Hv).
  rewrite Hs. simpl. exists s. split; [reflexivity|]. split; [exact Hred|].
  simpl in Hv. rewrite Hv. ring.
Qed.

(** Multiplication of reduced rationals returns the reduced product. *)
Lemma mul_exact (a b : rational_t) :
  reduced a -> reduced b ->
  exists s, mul Exact a b = Returns s /\ reduced s /\
    num_ s * (denom_ a * denom_ b) = num_ a * num_ b * denom_ s.
Proof.
  intros [Ha _] [Hb _]. unfold mul. cbn [arith width bind].
  destruct (rational_exact (num_ a * num_ b) (denom_ a * denom_ b))
    as (r & Hr & Hred & Hv); [nia|].
  rewrite Hr. simpl. eauto.
Qed.

(** Division by a reduced rational other than zero returns the reduced
    quotient. *)
Lemma div_exact (a b : rational_t) :
  reduced a -> reduced b -> num_ b <> 0 ->
  exists s, div Exact a b = Returns s /\ reduced s /\
    num_ s * (denom_ a * num_ b) = num_ a * denom_ b * denom_ s.
Proof.
  intros [Ha _] [Hb _] Hn. unfold div. cbn [arith width bind].
  destruct (rational_exact (num_ a * denom_ b) (denom_ a * num_ b))
    as (r & Hr & Hred & Hv); [nia|].
  rewrite Hr. simpl. eauto.
Qed.

(** ** The constructor over a fixed-width [IntT] *)

Lemma fits_true (k : int_type) (w z : Z) :
  width k = Some w -> - 2 ^ (w - 1) <= z < 2 ^ (w - 1) -> fits k z = true.
Proof.
  intros Hk Hz. unfold fits. rewrite Hk.
  apply andb_true_iff. split; [apply Z.leb_le | apply Z.ltb_lt]; lia.
Qed.

Lemma arith_fits (k : int_type) (w z : Z) :
  width k = Some w -> 0 < w <= 32 ->
  - 2 ^ (w - 1) <= z < 2 ^ (w - 1) -> arith k z = Returns z.
Proof.
  intros Hk Hw Hz. unfold arith. rewrite Hk.
  assert (H31 : 2 ^ (w - 1) <= 2 ^ 31) by (apply Z.pow_le_mono_r; lia).
  destruct (Z.leb_spec (- 2 ^ 31) z), (Z.ltb_spec z (2 ^ 31));
    try reflexivity; lia.
Qed.

(** With a positive denominator and operands whose absolute values fit
    [IntT], [check] divides by a gcd that fits, and so do both quotients. *)
Lemma check_fixed (k : int_type) (w n d : Z) :
  width k = Some w -> 0 < w <= 32 ->
  - 2 ^ (w - 1) < n < 2 ^ (w - 1) -> 0 < d < 2 ^ (w - 1) ->
  exists r, check k (n # d) = Returns r /\ reduced r.
Proof.
  intros Hk Hw Hn Hd.
  destruct (reduce_pos n d) as (Hg & Hr & _ & Hgd & Hqd & Hqp & Hqn); [lia|].
  assert (Hqd0 : 0 < Z.quot d (Z.gcd n d)) by (destruct Hr; assumption).
  unfold check. cbn [denom_ num_].
  destruct (Z.ltb_spec d 0) as [|_]; [lia|]. cbn [bind denom_ num_].
  unfold gcd.
  rewrite (fits_true k w (Z.abs n)), (fits_true k w (Z.abs d)) by (auto; lia).
  cbn [andb bind]. unfold quot.
  destruct (Z.eqb_spec (Z.gcd n d) 0) as [|_]; [lia|].
  rewrite (arith_fits k w (Z.quot d (Z.gcd n d))) by (auto; lia).
  cbn [bind].
  rewrite (arith_fits k w (Z.quot n (Z.gcd n d))) by (auto; lia).
  cbn [bind]. unfold narrow. rewrite Hk.
  rewrite (wrap_id w (Z.quot n (Z.gcd n d))) by lia.
  rewrite (wrap_id w (Z.quot d (Z.gcd n d))) by lia.
  eauto.
Qed.

Lemma rational_fixed (k : int_type) (w n d : Z) :
  width k = Some w -> 0 < w <= 32 ->
  - 2 ^ (w - 1) < n < 2 ^ (w - 1) -> - 2 ^ (w - 1) < d < 2 ^ (w - 1) ->
  d <> 0 ->
  exists r, rational k n d = Returns r /\ reduced r.
Proof.
  intros Hk Hw Hn Hd Hd0. unfold rational.
  assert (En : narrow k n = n) by (unfold narrow; rewrite Hk; apply wrap_id; lia).
  assert (Ed : narrow k d = d) by (unfold narrow; rewrite Hk; apply wrap_id; lia).
  rewrite En, Ed.
  destruct (Z.eqb_spec d 0) as [|_]; [contradiction|].
  destruct (Z.ltb_spec d 0) as [Hneg|Hpos].
  - destruct (check_fixed k w (- n) (- d) Hk Hw ltac:(lia) ltac:(lia))
      as (r & Hr & Hred).
    exists r. split; [|exact Hred]. rewrite <- Hr.
    unfold check. cbn [denom_ num_].
    destruct (Z.ltb_spec d 0) as [_|]; [|lia].
    destruct (Z.ltb_spec (- d) 0) as [|_]; [lia|].
    rewrite (arith_fits k w (- d)), (arith_fits k w (- n)) by (auto; lia).
    cbn [bind]. unfold narrow. rewrite Hk.
    rewrite (wrap_id w (- n)), (wrap_id w (- d)) by lia.
    reflexivity.
  - apply (check_fixed k w); auto; lia.
Qed.

(** ** The claims about [rational_t] *)

(** C1, as stated, fails: [rational_t<char>(1, -128)] is constructed from
    values of [char] with a nonzero denominator, but the negated denominator
    [128] is not a value of [char]: the stored denominator stays [-128], the
    call of [gcd] that follows is outside the contract of
    [std::experimental::gcd], and no rational in reduced form with a positive
    denominator comes out. *)
Lemma rational_char_lowest_denominator :
  in_range Char 1 /\ in_range Char (-128) /\ -128 <> 0 /\
  narrow Char (- -128) = -128 /\
  rational Char 1 (-128) = Undefined /\
  ~ (exists r, rational Char 1 (-128) = Returns r /\
               0 < denom_ r /\ Z.gcd (Z.abs (num_ r)) (denom_ r) = 1).
Proof.
  unfold in_range; simpl.
  repeat split; try lia; try reflexivity.
  intros (r & Hr & _). vm_compute in Hr. discriminate.
Qed.

(** C1, amended: for [rational_t<char>] and [rational_t<int>], the two
    instantiations of the repository, and over unbounded integers: for every
    pair [(num, denom)] of the type with [denom != 0] in which neither [num]
    nor [denom] is the most negative value of the type, the constructor
    returns a rational whose stored denominator is strictly positive and for
    which [gcd(|numerator|, denominator) == 1]; in particular
    [Rational(94, -64)] constructs to [-47 / 32].  (A parameter type wider
    than [int] is outside this statement: there [int const gcd_] cuts the
    greatest common divisor down to an [int].) *)
Theorem rational_reduced (k : int_type) (num denom : Z) :
  in_range k num -> in_range k denom -> denom <> 0 ->
  lowest k <> Some num -> lowest k <> Some denom ->
  (exists r, rational k num denom = Returns r /\
             0 < denom_ r /\ Z.gcd (Z.abs (num_ r)) (denom_ r) = 1) /\
  rational k 94 (-64) = Returns (-47 # 32).
Proof.
  intros Hn Hd Hd0 Hlown Hlowd. split; [|destruct k; reflexivity].
  destruct (width k) as [w|] eqn:Hk.
  - assert (Hw : 0 < w <= 32) by (destruct k; inversion Hk; lia).
    unfold in_range in Hn, Hd. unfold lowest in Hlown, Hlowd. rewrite Hk in *.
    assert (num <> - 2 ^ (w - 1)) by congruence.
    assert (denom <> - 2 ^ (w - 1)) by congruence.
    apply (rational_fixed k w); auto; lia.
  - assert (k = Exact) by (destruct k; inversion Hk; reflexivity). subst k.
    destruct (rational_exact num denom Hd0) as (r & Hr & Hred & _). eauto.
Qed.

Lemma rational_reduced_witness :
  (exists r, rational Char 94 (-64) = Returns r /\
             0 < denom_ r /\ Z.gcd (Z.abs (num_ r)) (denom_ r) = 1) /\
  rational Char 94 (-64) = Returns (-47 # 32).
Proof.
  apply (rational_reduced Char 94 (-64)).
  - unfold in_range; simpl; lia.
  - unfold in_range; simpl; lia.
  - lia.
  - unfold lowest; simpl; discriminate.
  - unfold lowest; simpl; discriminate.
Defined.

(** C7: for all reduced rationals [a] and [b] over exact integers,
    [a + b - b == a], and [(a * b) / b == a] when the numerator of [b] is
    not zero; every operator involved returns. *)
Theorem arithmetic_closure (a b : rational_t) :
  reduced a -> reduced b ->
  (exists s d, add Exact a b = Returns s /\ sub Exact s b = Returns d /\
               eq d a = true) /\
  (num_ b <> 0 ->
   exists p q, mul Exact a b = Returns p /\ div Exact p b = Returns q /\
               eq q a = true).
Proof.
  intros Ha Hb.
  pose proof Ha as [Hda _]. pose proof Hb as [Hdb _]. split.
  - destruct (add_exact a b Ha Hb) as (s & Hs & Hsr & Hsv).
    destruct (sub_exact s b Hsr Hb) as (d & Hd & Hdr & Hdv).
    exists s, d. repeat split; try assumption.
    apply eq_true_iff, reduced_unique; try assumption.
    pose proof Hsr as [Hds _].
    apply (Z.mul_reg_r _ _ (denom_ s * denom_ b * denom_ b)); [nia|].
    transitivity (num_ d * (denom_ s * denom_ b) * (denom_ a * denom_ b));
      [ring|].
    rewrite Hdv.
    transitivity ((num_ s * (denom_ a * denom_ b) * denom_ b
                   - num_ b * denom_ s * (denom_ a * denom_ b)) * denom_ d);
      [ring|].
    rewrite Hsv. ring.
  - intros Hnb.
    destruct (mul_exact a b Ha Hb) as (p & Hp & Hpr & Hpv).
    destruct (div_exact p b Hpr Hb Hnb) as (q & Hq & Hqr & Hqv).
    exists p, q. repeat split; try assumption.
    apply eq_true_iff, reduced_unique; try assumption.
    pose proof Hpr as [Hdp _].
    apply (Z.mul_reg_r _ _ (denom_ p * num_ b * denom_ b)); [nia|].
    transitivity (num_ q * (denom_ p * num_ b) * (denom_ a * denom_ b));
      [ring|].
    rewrite Hqv.
    transitivity (num_ p * (denom_ a * denom_ b) * denom_ b * denom_ q);
      [ring|].
    rewrite Hpv. ring.
Qed.

Lemma arithmetic_closure_witness :
  (exists s d, add Exact (1 # 2) (-2 # 3) = Returns s /\
               sub Exact s (-2 # 3) = Returns d /\ eq d (1 # 2) = true) /\
  (num_ (-2 # 3) <> 0 ->
   exists p q, mul Exact (1 # 2) (-2 # 3) = Returns p /\
               div Exact p (-2 # 3) = Returns q /\ eq q (1 # 2) = true).
Proof.
  apply (arithmetic_closure (1 # 2) (-2 # 3));
    unfold reduced; simpl; split; [lia | reflexivity | lia | reflexivity].
Defined.

(** C8: for all reduced rationals [a] and [b] over exact integers, the three
    comparisons return and exactly one of [a < b], [a == b], [a > b] holds;
    [a < b] is the sign test on the numerator of the normalised difference
    [a - b], and [==] compares the two fields. *)
Theorem comparison_trichotomy (a b : rational_t) :
  reduced a -> reduced b ->
  exists d l g,
    sub Exact a b = Returns d /\ reduced d /\
    lt Exact a b = Returns l /\ l = (num_ d <? 0) /\
    gt Exact a b = Returns g /\
    eq a b = ((denom_ a =? denom_ b) && (num_ a =? num_ b)) /\
    exactly_one l (eq a b) g = true.
Proof.
  intros Ha Hb.
  pose proof Ha as [Hda _]. pose proof Hb as [Hdb _].
  destruct (sub_exact a b Ha Hb) as (d & Hd & Hdr & Hdv).
  destruct (sub_exact b a Hb Ha) as (d' & Hd' & Hdr' & Hdv').
  pose proof Hdr as [Hdd _]. pose proof Hdr' as [Hdd' _].
  exists d, (num_ d <? 0), (num_ d' <? 0).
  unfold gt, lt. rewrite Hd, Hd'. cbn [bind noexcept].
  repeat (split; [first [reflexivity | assumption]|]).
  assert (Hp : 0 < denom_ a * denom_ b) by nia.
  assert (Hp' : 0 < denom_ b * denom_ a) by nia.
  destruct (Z.lt_trichotomy (num_ a * denom_ b) (num_ b * denom_ a))
    as [Hlt | [Heq | Hgt]].
  - assert (num_ d < 0) by nia. assert (0 < num_ d') by nia.
    assert (E : eq a b = false).
    { apply not_true_is_false. rewrite eq_true_iff. intros ->. lia. }
    rewrite E.
    destruct (Z.ltb_spec (num_ d) 0), (Z.ltb_spec (num_ d') 0);
      try lia; reflexivity.
  - assert (num_ d = 0) by nia. assert (num_ d' = 0) by nia.
    assert (E : eq a b = true)
      by (apply eq_true_iff, reduced_unique; assumption).
    rewrite E.
    destruct (Z.ltb_spec (num_ d) 0), (Z.ltb_spec (num_ d') 0);
      try lia; reflexivity.
  - assert (0 < num_ d) by nia. assert (num_ d' < 0) by nia.
    assert (E : eq a b = false).
    { apply not_true_is_false. rewrite eq_true_iff. intros ->. lia. }
    rewrite E.
    destruct (Z.ltb_spec (num_ d) 0), (Z.ltb_spec (num_ d') 0);
      try lia; reflexivity.
Qed.

Lemma comparison_trichotomy_witness :
  exists d l g,
    sub Exact (1 # 3) (1 # 2) = Returns d /\ reduced d /\
    lt Exact (1 # 3) (1 # 2) = Returns l /\ l = (num_ d <? 0) /\
    gt Exact (1 # 3) (1 # 2) = Returns g /\
    eq (1 # 3) (1 # 2)
    = ((denom_ (1 # 3) =? denom_ (1 # 2)) && (num_ (1 # 3) =? num_ (1 # 2))) /\
    exactly_one l (eq (1 # 3) (1 # 2)) g = true.
Proof.
  apply (comparison_trichotomy (1 # 3) (1 # 2));
    unfold reduced; simpl; split; [lia | reflexivity | lia | reflexivity].
Defined.

(** C9, as stated, fails: dividing [1 / 2] by [0 / 1] does not give the
    caller the [invalid_argument] that constructing [Rational(1, 0)] throws;
    [operator/] is [noexcept] and the program is terminated. *)
Lemma div_by_zero_not_thrown :
  reduced (1 # 2) /\ num_ (0 # 1) = 0 /\
  rational Exact 1 0 = Throws invalid_argument /\
  div Exact (1 # 2) (0 # 1) = Terminates invalid_argument /\
  div Exact (1 # 2) (0 # 1) <> Throws invalid_argument.
Proof.
  unfold reduced; simpl. repeat split; try lia; try reflexivity.
  unfold div; simpl. discriminate.
Qed.

(** C9, amended: for every rational [a] with a representable numerator and
    every reduced rational [b] whose numerator is zero, the intermediate of
    [a / b] has the denominator [a.denom * 0 == 0], so its construction
    throws [invalid_argument] as a direct construction with a zero
    denominator does; the exception cannot leave the [noexcept] [operator/],
    and the division ends in [std::terminate] on that exception, which is
    defined behaviour but not an exception the caller receives. *)
Theorem div_by_zero_terminates (k : int_type) (a b : rational_t) :
  in_range k (num_ a) -> reduced b -> num_ b = 0 ->
  rational k (num_ a * denom_ b) (denom_ a * num_ b) = Throws invalid_argument /\
  rational k (num_ a) 0 = Throws invalid_argument /\
  div k a b = Terminates invalid_argument.
Proof.
  intros Ha [Hdb Hgb] Hb. rewrite Hb in Hgb. simpl in Hgb.
  assert (Hd1 : denom_ b = 1) by (rewrite Z.abs_eq in Hgb; lia).
  assert (E : narrow k 0 = 0) by (destruct k; reflexivity).
  unfold div, rational. rewrite Hb, Hd1, Z.mul_0_r, Z.mul_1_r, E. simpl.
  assert (Ea : arith k (num_ a) = Returns (num_ a)).
  { destruct (width k) as [w|] eqn:Hk.
    - apply (arith_fits k w); auto.
      + destruct k; inversion Hk; lia.
      + unfold in_range in Ha. now rewrite Hk in Ha.
    - unfold arith. now rewrite Hk. }
  assert (E0 : arith k 0 = Returns 0) by (destruct k; reflexivity).
  rewrite Ea, E0. cbn [bind]. rewrite E. simpl. auto.
Qed.

Lemma div_by_zero_terminates_witness :
  rational Char (num_ (3 # 4) * denom_ (0 # 1)) (denom_ (3 # 4) * num_ (0 # 1))
  = Throws invalid_argument /\
  rational Char (num_ (3 # 4)) 0 = Throws invalid_argument /\
  div Char (3 # 4) (0 # 1) = Terminates invalid_argument.
Proof.
  apply (div_by_zero_terminates Char (3 # 4) (0 # 1)).
  - unfold in_range; simpl; lia.
  - unfold reduced; simpl; split; [lia | reflexivity].
  - reflexivity.
Defined.

End RationalFacts.

(** ** The loops of [vector] *)

Section Loops.

Import Vector.

Context {T : Type}.

Implicit Types (c p pre post : list (option T)) (l : list T).

Lemma size_type_small (z : Z) : 0 <= z < 2 ^ 64 -> size_type z = z.
Proof. intros H. unfold size_type. now apply Z.mod_small. Qed.

Lemma load_middle pre post (x : T) :
  load (pre ++ Some x :: post) (Z.of_nat (length pre)) = Returns x.
Proof.
  unfold load. destruct (Z.ltb_spec (Z.of_nat (length pre)) 0); [lia|].
  rewrite Nat2Z.id. now rewrite list_lookup_middle.
Qed.

Lemma store_middle pre post (o : option T) (x : T) :
  store (pre ++ o :: post) (Z.of_nat (length pre)) x
  = Returns (pre ++ Some x :: post).
Proof.
  unfold store.
  destruct (Z.leb_spec 0 (Z.of_nat (length pre))) as [_|]; [|lia].
  destruct (Z.ltb_spec (Z.of_nat (length pre))
              (Z.of_nat (length (pre ++ o :: post)))) as [_|H].
  - simpl. rewrite Nat2Z.id. f_equal.
    rewrite insert_app_r_alt by lia.
    now rewrite Nat.sub_diag.
  - rewrite length_app in H. simpl in H. lia.
Qed.

(** The copy loop of [assign_content] overwrites [mid] with the elements
    that [from] holds at the same distance. *)
Lemma copy_spec l : forall pre post tpre mid tpost,
  length tpre = length pre -> length mid = length l ->
  copy (length l) (Z.of_nat (length pre))
    (pre ++ (Some <$> l) ++ post) (tpre ++ mid ++ tpost)
  = Returns (tpre ++ (Some <$> l) ++ tpost).
Proof.
  induction l as [|x l IH]; intros pre post tpre mid tpost Hpre Hmid.
  - destruct mid; [reflexivity | discriminate].
  - destruct mid as [|o mid]; [discriminate|]. simpl in Hmid.
    cbn [copy length fmap list_fmap app].
    rewrite load_middle. cbn [bind].
    rewrite <- Hpre, store_middle. cbn [bind].
    specialize (IH (pre ++ [Some x]) post (tpre ++ [Some x]) mid tpost).
    rewrite !length_app in IH. simpl in IH.
    rewrite <- !app_assoc in IH. simpl in IH.
    replace (Z.of_nat (length tpre) + 1)
      with (Z.of_nat (length pre + 1)) by lia.
    apply IH; lia.
Qed.

(** [assign_content] from the start of both blocks. *)
Lemma assign_content_spec l post mid tpost :
  length mid = length l ->
  assign_content (Z.of_nat (length l)) ((Some <$> l) ++ post) (mid ++ tpost)
  = Returns ((Some <$> l) ++ tpost).
Proof.
  intros Hmid. unfold assign_content. rewrite Nat2Z.id.
  exact (copy_spec l [] post [] mid tpost eq_refl Hmid).
Qed.

(** The loop of the initializer-list constructor. *)
Lemma assign_list_spec l : forall tpre mid tpost,
  length mid = length l ->
  assign_list l (Z.of_nat (length tpre)) (tpre ++ mid ++ tpost)
  = Returns (tpre ++ (Some <$> l) ++ tpost).
Proof.
  induction l as [|x l IH]; intros tpre mid tpost Hmid.
  - destruct mid; [reflexivity | discriminate].
  - destruct mid as [|o mid]; [discriminate|]. simpl in Hmid.
    cbn [assign_list fmap list_fmap app].
    rewrite store_middle. cbn [bind].
    specialize (IH (tpre ++ [Some x]) mid tpost).
    rewrite !length_app in IH. simpl in IH.
    rewrite <- !app_assoc in IH. simpl in IH.
    replace (Z.of_nat (length tpre) + 1)
      with (Z.of_nat (length tpre + 1)) by lia.
    apply IH; lia.
Qed.

(** The first loop of [insert], reading from a buffer outside the block,
    writes the new elements from [i] on. *)
Lemma insert_loop_spec (ok : bool) l : forall pre post tpre mid tpost,
  length mid = length l ->
  Z.of_nat (length tpre + length l) < 2 ^ 64 ->
  Z.of_nat (length pre + length l) < 2 ^ 64 ->
  insert_loop (length l) (Z.of_nat (length tpre)) (Z.of_nat (length pre))
    (Buffer (pre ++ (Some <$> l) ++ post)) ok (tpre ++ mid ++ tpost)
  = Returns (tpre ++ (Some <$> l) ++ tpost,
             Z.of_nat (length tpre + length l)).
Proof.
  induction l as [|x l IH]; intros pre post tpre mid tpost Hmid Hi Hj.
  - destruct mid; [|discriminate]. simpl. now rewrite Nat.add_0_r.
  - destruct mid as [|o mid]; [discriminate|]. simpl in Hmid, Hi, Hj.
    cbn [insert_loop fetch length fmap list_fmap app].
    rewrite load_middle. cbn [bind].
    rewrite store_middle. cbn [bind].
    specialize (IH (pre ++ [Some x]) post (tpre ++ [Some x]) mid tpost).
    rewrite !length_app in IH. simpl in IH.
    rewrite <- !app_assoc in IH. simpl in IH.
    rewrite !size_type_small by lia.
    replace (Z.of_nat (length tpre) + 1)
      with (Z.of_nat (length tpre + 1)) by lia.
    replace (Z.of_nat (length pre) + 1)
      with (Z.of_nat (length pre + 1)) by lia.
    rewrite IH by lia. do 2 f_equal. lia.
Qed.

(** The second loop of [insert] reads the saved tail through the checked
    [operator[]] of [temp]. *)
Lemma insert_tail_spec l : forall (temp : vector (T:=T)) pre post tpre mid tpost,
  cells temp = pre ++ (Some <$> l) ++ post ->
  size temp = Z.of_nat (length pre + length l) ->
  length mid = length l ->
  Z.of_nat (length tpre + length l) < 2 ^ 64 ->
  Z.of_nat (length pre + length l) < 2 ^ 64 ->
  insert_tail (length l) (Z.of_nat (length tpre)) (Z.of_nat (length pre))
    temp (tpre ++ mid ++ tpost)
  = Returns (tpre ++ (Some <$> l) ++ tpost).
Proof.
  induction l as [|x l IH];
    intros temp pre post tpre mid tpost Hc Hs Hmid Hi Hj.
  - destruct mid; [reflexivity | discriminate].
  - destruct mid as [|o mid]; [discriminate|]. simpl in Hmid, Hi, Hj, Hs.
    cbn [insert_tail length fmap list_fmap app].
    unfold get, index. rewrite Hs.
    destruct (Z.leb_spec (Z.of_nat (length pre + S (length l)))
                (Z.of_nat (length pre))) as [|_]; [lia|].
    cbn [bind]. rewrite Hc. cbn [fmap list_fmap app].
    rewrite load_middle. cbn [bind].
    rewrite store_middle. cbn [bind].
    specialize (IH temp (pre ++ [Some x]) post (tpre ++ [Some x]) mid tpost).
    rewrite !length_app in IH. simpl in IH.
    rewrite <- !app_assoc in IH. simpl in IH.
    rewrite !size_type_small by lia.
    replace (Z.of_nat (length tpre) + 1)
      with (Z.of_nat (length tpre + 1)) by lia.
    replace (Z.of_nat (length pre) + 1)
      with (Z.of_nat (length pre + 1)) by lia.
    apply IH; try lia; try (rewrite Hc; reflexivity).
Qed.

Lemma take_drop_head (c : list (option T)) (k n : nat) y ys :
  take (S n) (drop k c) = y :: ys ->
  c !! k = Some y /\ take n (drop (S k) c) = ys.
Proof.
  intros H. destruct (c !! k) as [z|] eqn:Hk.
  - rewrite (drop_S _ _ _ Hk) in H. simpl in H. now inversion H.
  - apply lookup_ge_None in Hk. rewrite drop_ge in H by lia. discriminate.
Qed.

(** The loop of [erase] stops at once when the gap reaches the end. *)
Lemma erase_loop_done (fuel : nat) (pos len size : Z) (c : list (option T)) :
  0 <= pos + len < 2 ^ 64 -> size <= pos + len ->
  erase_loop (S fuel) pos len size c = Returns (c, pos).
Proof.
  intros Hr Hs. cbn [erase_loop]. rewrite size_type_small by lia.
  destruct (Z.ltb_spec (pos + len) size); [lia | reflexivity].
Qed.

(** Without wrap-around in [pos + len], the loop of [erase] moves the
    elements [t] behind the gap of [len] objects down to [pos]. *)
Lemma erase_loop_spec (len : nat) (t : list T) :
  forall (fuel pos : nat) (c : list (option T)),
  (length t < fuel)%nat ->
  Z.of_nat (pos + len + length t) < 2 ^ 64 ->
  (0 < len)%nat ->
  (pos + len + length t <= length c)%nat ->
  take (length t) (drop (pos + len) c) = Some <$> t ->
  exists c',
    erase_loop fuel (Z.of_nat pos) (Z.of_nat len)
      (Z.of_nat (pos + len + length t)) c
    = Returns (c', Z.of_nat (pos + length t)) /\
    length c' = length c /\
    take (pos + length t) c' = take pos c ++ (Some <$> t).
Proof.
  induction t as [|x t IH]; intros fuel pos c Hf H64 Hlen Hc Ht.
  - destruct fuel as [|fuel]; [simpl in Hf; lia|].
    exists c. simpl length. rewrite !Nat.add_0_r.
    rewrite erase_loop_done by lia.
    simpl. rewrite app_nil_r. auto.
  - destruct fuel as [|fuel]; [simpl in Hf; lia|].
    simpl length in *. cbn [fmap list_fmap] in Ht.
    apply take_drop_head in Ht as [Hx Ht].
    cbn [erase_loop]. rewrite size_type_small by lia.
    destruct (Z.ltb_spec (Z.of_nat pos + Z.of_nat len)
                (Z.of_nat (pos + len + S (length t)))) as [_|]; [|lia].
    unfold load.
    destruct (Z.ltb_spec (Z.of_nat pos + Z.of_nat len) 0) as [|_]; [lia|].
    replace (Z.to_nat (Z.of_nat pos + Z.of_nat len)) with (pos + len)%nat by lia.
    rewrite Hx. cbn [bind].
    unfold store.
    destruct (Z.leb_spec 0 (Z.of_nat pos)) as [_|]; [|lia].
    destruct (Z.ltb_spec (Z.of_nat pos) (Z.of_nat (length c))) as [_|]; [|lia].
    cbn [andb bind]. rewrite Nat2Z.id.
    rewrite size_type_small by lia.
    destruct (IH fuel (S pos) (<[pos:=Some x]> c)) as (c' & Hrun & Hl & Htk).
    + lia.
    + lia.
    + exact Hlen.
    + rewrite length_insert. lia.
    + rewrite drop_insert_lt by lia. exact Ht.
    + exists c'.
      replace (Z.of_nat pos + 1) with (Z.of_nat (S pos)) by lia.
      replace (Z.of_nat (pos + len + S (length t)))
        with (Z.of_nat (S pos + len + length t)) by lia.
      rewrite Hrun. rewrite length_insert in Hl.
      split; [do 2 f_equal; lia|]. split; [exact Hl|].
      replace (pos + S (length t))%nat with (S pos + length t)%nat by lia.
      rewrite Htk.
      rewrite (take_S_r _ _ (Some x))
        by (apply list_lookup_insert_eq; lia).
      rewrite take_insert_ge by lia.
      now rewrite <- app_assoc.
Qed.

(** The fuel that [erase] gives its loop is enough, wrap-around or not: the
    loop condition [pos + len] goes up by one in every round until it
    reaches [size]. *)
Lemma erase_loop_comes_back (len size : Z) :
  0 <= size < 2 ^ 64 ->
  forall (fuel : nat) (pos : Z) (c : list (option T)),
    (Z.to_nat (size - size_type (pos + len)) < fuel)%nat ->
    erase_loop fuel pos len size c <> Diverges.
Proof.
  intros Hsize. induction fuel as [|fuel IH]; intros pos c Hfuel; [lia|].
  cbn [erase_loop].
  destruct (Z.ltb_spec (size_type (pos + len)) size) as [Hlt|_];
    [|discriminate].
  destruct (load c (size_type (pos + len))) as [x| | | |] eqn:Hload;
    cbn [bind]; try discriminate.
  - destruct (store c pos x) as [c'| | | |] eqn:Hstore;
      cbn [bind]; try discriminate.
    + apply IH.
      assert (E : size_type (size_type (pos + 1) + len)
                  = size_type (pos + len) + 1).
      { unfold size_type in *.
        rewrite Z.add_mod_idemp_l by lia.
        replace (pos + 1 + len) with (pos + len + 1) by ring.
        rewrite <- Z.add_mod_idemp_l by lia.
        apply Z.mod_small.
        pose proof (Z.mod_pos_bound (pos + len) (2 ^ 64) ltac:(lia)). lia. }
      rewrite E. lia.
    + unfold store in Hstore.
      destruct ((0 <=? pos) && (pos <? Z.of_nat (length c))); discriminate.
  - unfold load in Hload.
    destruct (size_type (pos + len) <? 0); [discriminate|].
    destruct (c !! Z.to_nat (size_type (pos + len))) as [[?|]|]; discriminate.
Qed.

End Loops.

(** ** Storage management *)

Section Storage.

Import Vector.

Context {T : Type}.

Variable value_type : T.
Variable can_allocate : Z -> bool.

(** No allocation hands out [2 ^ 62] objects or more: the address space is
    smaller than that. *)
Hypothesis address_space : forall n, can_allocate n = true -> n < 2 ^ 62.

Implicit Types (v : vector (T:=T)) (l : list T) (s : allocator).

Local Abbreviation Spec := (spec can_allocate).
Local Abbreviation Generous := (generous can_allocate).

Lemma spec_ret {A} B (a : A) s (Q : A -> allocator -> Prop) :
  Q a s -> Spec B (ret a) s Q.
Proof. intros H. exact H. Qed.

Lemma spec_bind {A C} B (m : M A) (k : A -> M C) s
  (Q : C -> allocator -> Prop) :
  Spec B m s (fun a s' => Spec B (k a) s' Q) -> Spec B (mbind m k) s Q.
Proof.
  unfold spec, mbind.
  destruct (m s) as [[a s']| | | |]; auto.
Qed.

Lemma spec_lift {A} B (o : outcome A) (a : A) s
  (Q : A -> allocator -> Prop) :
  o = Returns a -> Q a s -> Spec B (lift o) s Q.
Proof. intros -> H. exact H. Qed.

Lemma spec_mono {A} B (m : M A) s (Q Q' : A -> allocator -> Prop) :
  (forall a s', Q a s' -> Q' a s') -> Spec B m s Q -> Spec B m s Q'.
Proof.
  unfold spec. intros HQ.
  destruct (m s) as [[a s']| | | |]; auto.
Qed.

Lemma generous_le B B' : B <= B' -> Generous B' -> Generous B.
Proof. intros HB Hg n Hn. apply Hg. lia. Qed.

Lemma spec_weaken {A} B B' (m : M A) s (Q : A -> allocator -> Prop) :
  B <= B' -> Spec B m s Q -> Spec B' m s Q.
Proof.
  unfold spec. intros HB.
  destruct (m s) as [[a s']| | | |]; auto;
    intros [-> Hg]; split; auto; intros Hg'; apply Hg;
    now apply (generous_le B B').
Qed.

Lemma spec_noexcept {A} B (m : M A) s (Q : A -> allocator -> Prop) :
  Spec B m s Q -> Spec B (mnoexcept m) s Q.
Proof.
  unfold spec, mnoexcept.
  destruct (m s) as [[a s']| | | |]; auto.
Qed.

(** Under a generous allocator the judgement is a return. *)
Lemma spec_returns {A} B (m : M A) s (Q : A -> allocator -> Prop) :
  Spec B m s Q -> Generous B ->
  exists a s', m s = Returns (a, s') /\ Q a s'.
Proof.
  unfold spec. intros H Hg.
  destruct (m s) as [[a s']| | | |]; try tauto; eauto.
Qed.

Lemma spec_allocate B n s (Q : option nat -> allocator -> Prop) :
  0 < n <= B ->
  (n < 2 ^ 62 -> Q (Some (next s)) (after_allocate s)) ->
  Spec B (allocate can_allocate n) s Q.
Proof.
  intros Hn HQ. unfold spec, allocate.
  destruct (Z.eqb_spec n 0) as [|_]; [lia|].
  destruct (can_allocate n) eqn:E.
  - apply HQ. now apply address_space.
  - split; [reflexivity|]. intros Hg. rewrite (Hg n Hn) in E. discriminate.
Qed.

Lemma spec_deallocate B v s (Q : unit -> allocator -> Prop) :
  start v ∈ live s ->
  Q tt (after_deallocate (start v) s) ->
  Spec B (deallocate v) s Q.
Proof.
  intros Hv HQ. unfold spec, deallocate.
  destruct (decide (start v ∈ live s)); [exact HQ | contradiction].
Qed.

Lemma spec_intact B (b : nat) v s (Q : bool -> allocator -> Prop) :
  (forall ok, Q ok s) -> Spec B (intact b v) s Q.
Proof. intros H. apply H. Qed.

Lemma spec_create_storage B c s (Q : vector (T:=T) -> allocator -> Prop) :
  0 < c <= B ->
  (c < 2 ^ 62 ->
   Q {| start := next s; cells := replicate (Z.to_nat c) None;
        finish := 0; end_of_storage := c |} (after_allocate s)) ->
  Spec B (create_storage can_allocate c) s Q.
Proof.
  intros Hc HQ. unfold create_storage. apply spec_bind.
  apply spec_allocate; [exact Hc|]. intros Hlt. apply spec_ret. auto.
Qed.

(** *** Facts on allocator states *)

Lemma consistent_fresh s b : consistent s -> b ∈ live s -> b <> next s.
Proof. intros Hs Hb ->. apply Hs in Hb. lia. Qed.

Lemma consistent_allocate s : consistent s -> consistent (after_allocate s).
Proof.
  intros Hs b. simpl. rewrite elem_of_union, elem_of_singleton.
  intros [->|Hb]; [lia|]. apply Hs in Hb. lia.
Qed.

Lemma consistent_deallocate s b :
  consistent s -> consistent (after_deallocate b s).
Proof.
  intros Hs b'. simpl. rewrite elem_of_difference. intros [Hb _]. now apply Hs.
Qed.

(** A fresh block holds no elements. *)
Lemma holds_fresh s c :
  0 < c < 2 ^ 62 ->
  holds (after_allocate s)
    {| start := next s; cells := replicate (Z.to_nat c) (@None T);
       finish := 0; end_of_storage := c |} [].
Proof.
  intros Hc. unfold holds, size, capacity; simpl.
  rewrite length_replicate.
  repeat split; try lia. set_solver.
Qed.

(** The elements of a vector come first in its block. *)
Lemma holds_cells s v l :
  holds s v l ->
  cells v = (Some <$> l) ++ drop (length l) (cells v).
Proof.
  intros (_ & _ & _ & _ & _ & Ht).
  rewrite <- Ht. now rewrite take_drop.
Qed.

(** Reading an element through a pointer into the block, and through a
    reference that is still valid. *)
Lemma holds_load s v l (k : Z) (x : T) :
  holds s v l -> 0 <= k -> l !! Z.to_nat k = Some x ->
  load (cells v) k = Returns x.
Proof.
  intros Hh Hk Hx. pose proof (holds_cells s v l Hh) as Hc.
  pose proof (lookup_lt_Some _ _ _ Hx) as Hi.
  unfold load. destruct (Z.ltb_spec k 0); [lia|].
  rewrite Hc, lookup_app_l by (rewrite length_fmap; lia).
  now rewrite list_lookup_fmap, Hx.
Qed.

Lemma deref_eval (r : const_reference (T:=T)) (x : T) v s l :
  holds s v l -> referent r l = Some x ->
  deref r (start v) v s = Returns (x, s).
Proof.
  intros Hh Hr. destruct r as [y|k]; cbn [deref referent] in *.
  - now injection Hr as ->.
  - destruct (Z.leb_spec 0 k) as [Hk|]; [|discriminate].
    pose proof Hh as (Hst & _).
    unfold mbind, intact, lift.
    rewrite bool_decide_eq_true_2 by (split; [exact Hst | reflexivity]).
    now rewrite (holds_load s v l k x Hh Hk Hr).
Qed.

Lemma spec_deref B (r : const_reference (T:=T)) (x : T) v s l
  (Q : T -> allocator -> Prop) :
  holds s v l -> referent r l = Some x -> Q x s ->
  Spec B (deref r (start v) v) s Q.
Proof.
  intros Hh Hr HQ. unfold spec. now rewrite (deref_eval r x v s l Hh Hr).
Qed.

(** *** [clear] and [reserve] *)

Lemma spec_clear B v s (Q : vector (T:=T) -> allocator -> Prop) :
  start v ∈ live s -> initial_capacity <= B ->
  Q {| start := next s;
       cells := replicate (Z.to_nat initial_capacity) None;
       finish := 0; end_of_storage := initial_capacity |}
    (after_allocate (after_deallocate (start v) s)) ->
  Spec B (clear can_allocate v) s Q.
Proof.
  intros Hv HB HQ. unfold clear. apply spec_bind.
  apply spec_deallocate; [exact Hv|].
  apply spec_create_storage; [unfold initial_capacity in *; lia|].
  intros _. exact HQ.
Qed.

Lemma spec_reserve B n v s l (Q : vector (T:=T) -> allocator -> Prop) :
  holds s v l -> 0 < n <= B -> n <> capacity v ->
  (n < 2 ^ 62 ->
   Q (reserved n s v l) (after_deallocate (start v) (after_allocate s))) ->
  Spec B (reserve can_allocate n v) s Q.
Proof.
  intros Hh Hn Hcap HQ. unfold reserve.
  destruct (Z.eqb_spec n 0) as [|_]; [lia|].
  destruct (Z.eqb_spec n (capacity v)) as [|_]; [contradiction|].
  apply spec_bind, spec_allocate; [exact Hn|]. intros Hlt.
  pose proof (holds_cells s v l Hh) as Hc.
  destruct Hh as (Hst & Hlen & Hsz & Hcp & Hsl & Htk).
  set (m := take (Z.to_nat n) l).
  assert (Hm : (if n <? size v then n else size v) = Z.of_nat (length m)).
  { unfold m. rewrite length_take.
    destruct (Z.ltb_spec n (size v)); lia. }
  assert (Hmin : Z.min n (size v) = Z.of_nat (length m)).
  { unfold m. rewrite length_take. lia. }
  apply spec_bind. eapply spec_lift.
  - rewrite Hm, Hc.
    rewrite <- (take_drop (Z.to_nat n) l) at 1. fold m.
    rewrite fmap_app, <- app_assoc.
    replace (replicate (Z.to_nat n) (@None T))
      with (replicate (length m) (@None T)
            ++ replicate (Z.to_nat n - length l) None).
    + apply assign_content_spec. now rewrite length_replicate.
    + rewrite <- replicate_add. f_equal. unfold m. rewrite length_take. lia.
  - apply spec_bind, spec_deallocate; [simpl; set_solver|].
    apply spec_ret. specialize (HQ Hlt).
    unfold reserved in HQ. fold m in HQ. rewrite Hmin in HQ.
    rewrite Hm. exact HQ.
Qed.

Lemma holds_reserved n s v l :
  holds s v l -> consistent s -> 0 < n < 2 ^ 62 ->
  holds (after_deallocate (start v) (after_allocate s)) (reserved n s v l)
    (take (Z.to_nat n) l).
Proof.
  intros (Hst & Hlen & Hsz & Hcp & Hsl & Htk) Hs Hn.
  pose proof (consistent_fresh s _ Hs Hst) as Hne.
  unfold holds, reserved, size, capacity in *; simpl.
  rewrite length_app, length_fmap, length_replicate, !length_take.
  repeat split; try lia.
  - set_solver.
  - rewrite take_app_length'; [reflexivity|].
    now rewrite length_fmap, length_take.
Qed.

(** *** [sanitize], [push_back], [pop_back] *)

Lemma holds_nil s v l : holds s v l -> size v = 0 -> l = [].
Proof.
  intros (_ & _ & _ & _ & Hsl & _) H0.
  destruct l; [reflexivity | simpl in Hsl; lia].
Qed.

Lemma spec_sanitize B v s l :
  holds s v l -> consistent s ->
  initial_capacity <= B -> 2 * size v <= B ->
  Spec B (sanitize can_allocate v) s
    (fun v' s' => holds s' v' l /\ consistent s').
Proof.
  intros Hh Hs HB HB2. unfold sanitize.
  pose proof Hh as (Hst & Hlen & Hsz & Hcp & Hsl & Htk).
  unfold capacity_sanitize_factor, capacity_factor.
  rewrite !size_type_small by lia.
  destruct (Z.ltb_spec (size v * (2 * 2)) (capacity v)) as [Hbig|_];
    [|apply spec_ret; auto].
  destruct (Z.eq_dec (size v) 0) as [E0|Hn0].
  - rewrite E0. unfold reserve. simpl.
    apply spec_clear; [exact Hst | exact HB|].
    rewrite (holds_nil s v l Hh E0). split.
    + apply (holds_fresh (after_deallocate (start v) s)).
      unfold initial_capacity. lia.
    + apply consistent_allocate, consistent_deallocate, Hs.
  - apply (spec_reserve B _ v s l); [exact Hh | lia | lia|].
    intros Hlt. split.
    + rewrite <- (take_ge l (Z.to_nat (size v * 2))) at 2 by lia.
      apply holds_reserved; auto. lia.
    + apply consistent_deallocate, consistent_allocate, Hs.
Qed.

(** Writing one more element behind the last one. *)
Lemma holds_store s v l (x : T) :
  holds s v l -> size v < capacity v ->
  exists c,
    store (cells v) (finish v) x = Returns c /\
    holds s {| start := start v; cells := c; finish := finish v + 1;
               end_of_storage := end_of_storage v |} (l ++ [x]).
Proof.
  intros Hh Hlt. pose proof (holds_cells s v l Hh) as Hc.
  destruct Hh as (Hst & Hlen & Hsz & Hcp & Hsl & Htk).
  unfold size, capacity in *.
  destruct (drop (length l) (cells v)) as [|o rest] eqn:Hd.
  - apply (f_equal length) in Hd. rewrite length_drop in Hd. simpl in Hd. lia.
  - exists ((Some <$> l) ++ Some x :: rest). split.
    + rewrite Hc, Hsl.
      rewrite <- (length_fmap Some l) at 1. apply store_middle.
    + apply (f_equal length) in Hc.
      rewrite length_app, length_fmap in Hc. simpl in Hc.
      unfold holds, size, capacity; simpl.
      rewrite !length_app, length_fmap. simpl.
      repeat split; try lia; try assumption.
      rewrite fmap_app. simpl.
      rewrite (cons_middle (Some x)), app_assoc.
      apply take_app_length'. rewrite length_app, length_fmap. simpl. lia.
Qed.

Lemma spec_push_back B (x : T) v s l :
  holds s v l -> consistent s -> 2 * (size v + 1) <= B ->
  Spec B (push_back can_allocate (Outside x) v) s
    (fun v' s' => holds s' v' (contents_push_back x l) /\ consistent s').
Proof.
  intros Hh Hs HB. unfold push_back, contents_push_back. cbv zeta.
  pose proof Hh as (Hst & Hlen & Hsz & Hcp & Hsl & Htk).
  unfold capacity_factor. rewrite !size_type_small by lia.
  apply spec_bind.
  apply (spec_mono _ _ _
           (fun v1 s1 => holds s1 v1 l /\ consistent s1 /\
                         size v1 < capacity v1)).
  - intros v1 s1 (Hh1 & Hs1 & Hlt).
    destruct (holds_store s1 v1 l x Hh1 Hlt) as (c & Hc & Hh2).
    cbn [deref]. apply spec_bind, spec_ret.
    apply spec_bind. eapply spec_lift; [exact Hc|].
    apply spec_ret. auto.
  - destruct (Z.ltb_spec (capacity v) (size v + 1)) as [Hfull|Hroom].
    + apply (spec_reserve B _ v s l); [exact Hh | lia | lia|].
      intros Hlt.
      pose proof (holds_reserved ((size v + 1) * 2) s v l Hh Hs ltac:(lia))
        as Hr.
      rewrite take_ge in Hr by lia.
      split; [exact Hr|]. split.
      * apply consistent_deallocate, consistent_allocate, Hs.
      * unfold reserved, size, capacity; simpl. unfold size in *. lia.
    + apply spec_ret. repeat split; auto; lia.
Qed.

(** Dropping elements from the end. *)
Lemma holds_shrink s v l (k : nat) c :
  holds s v l -> (k <= length l)%nat ->
  length c = length (cells v) ->
  take k c = Some <$> take k l ->
  holds s {| start := start v; cells := c; finish := Z.of_nat k;
             end_of_storage := end_of_storage v |} (take k l).
Proof.
  intros (Hst & Hlen & Hsz & Hcp & Hsl & Htk) Hk Hc Hc'.
  unfold holds, size, capacity in *; simpl.
  rewrite length_take, Hc.
  replace (k `min` length l)%nat with k by lia.
  repeat split; try lia; assumption.
Qed.

Lemma take_cells s v l (k : nat) :
  holds s v l -> (k <= length l)%nat ->
  take k (cells v) = Some <$> take k l.
Proof.
  intros (_ & _ & _ & _ & _ & Htk) Hk.
  rewrite fmap_take, <- Htk, take_take. f_equal. lia.
Qed.

Lemma spec_pop_back B v s l :
  holds s v l -> consistent s ->
  initial_capacity <= B -> 2 * size v <= B ->
  Spec B (pop_back can_allocate v) s
    (fun v' s' => holds s' v' (contents_pop_back l) /\ consistent s').
Proof.
  intros Hh Hs HB HB2. unfold pop_back, contents_pop_back.
  pose proof Hh as (Hst & Hlen & Hsz & Hcp & Hsl & Htk).
  destruct (Z.ltb_spec 0 (size v)) as [Hpos|H0].
  - replace (finish v - 1) with (Z.of_nat (length l - 1))
      by (unfold size in *; lia).
    apply spec_sanitize; auto.
    + apply holds_shrink; auto; [lia|].
      apply (take_cells s); auto. lia.
    + unfold size; simpl. unfold size in *. lia.
  - apply spec_ret. rewrite (holds_nil s v l Hh) by lia.
    rewrite (holds_nil s v l Hh) in Hh by lia. auto.
Qed.

(** *** [erase] without wrap-around of [pos + len] *)

Lemma spec_erase B (pos len : Z) v s l :
  holds s v l -> consistent s ->
  0 <= pos -> 0 <= len -> pos + len < 2 ^ 64 ->
  initial_capacity <= B -> 2 * size v <= B ->
  Spec B (erase can_allocate pos len v) s
    (fun v' s' => holds s' v' (contents_erase pos len l) /\ consistent s').
Proof.
  intros Hh Hs Hpos Hlen H64 HB HB2. unfold erase, contents_erase.
  pose proof Hh as (Hst & Hlen' & Hsz & Hcp & Hsl & Htk).
  rewrite <- Hsl.
  destruct (Z.ltb_spec (size v) pos) as [|Hin]; [apply spec_ret; auto|].
  assert (Hshrink : forall c,
    length c = length (cells v) ->
    take (Z.to_nat pos) c = Some <$> take (Z.to_nat pos) l ->
    Spec B (sanitize can_allocate
              {| start := start v; cells := c; finish := pos;
                 end_of_storage := end_of_storage v |}) s
      (fun v' s' => holds s' v' (take (Z.to_nat pos) l) /\ consistent s')).
  { intros c Hc Hc'. apply spec_sanitize; auto.
    - rewrite <- (Z2Nat.id pos) at 1 by lia.
      apply holds_shrink; auto. lia.
    - unfold size; simpl. unfold size in *. lia. }
  destruct (Z.eqb_spec len 0) as [->|Hn0].
  - apply spec_bind. eapply spec_lift.
    + apply erase_loop_done; lia.
    + apply Hshrink; [reflexivity|]. apply (take_cells s); auto. lia.
  - destruct (Z.le_gt_cases (size v) (pos + len)) as [Hover|Hless].
    + apply spec_bind. eapply spec_lift.
      * apply erase_loop_done; lia.
      * rewrite Z.min_r, drop_ge, app_nil_r by lia.
        apply Hshrink; [reflexivity|]. apply (take_cells s); auto. lia.
    + rewrite Z.min_l by lia.
      set (t := drop (Z.to_nat (pos + len)) l).
      assert (Hlt : length t = (length l - Z.to_nat (pos + len))%nat)
        by (unfold t; apply length_drop).
      destruct (erase_loop_spec (Z.to_nat len) t (S (Z.to_nat (size v)))
                  (Z.to_nat pos) (cells v)) as (c' & Hrun & Hl & Htk');
        try lia.
      { rewrite (holds_cells s v l Hh), drop_app_le
          by (rewrite length_fmap; lia).
        rewrite <- fmap_drop.
        replace (Z.to_nat pos + Z.to_nat len)%nat
          with (Z.to_nat (pos + len)) by lia.
        fold t. apply take_app_length'. now rewrite length_fmap. }
      rewrite !Z2Nat.id in Hrun by lia.
      replace (Z.of_nat (Z.to_nat pos + Z.to_nat len + length t))
        with (size v) in Hrun by lia.
      apply spec_bind. eapply spec_lift; [exact Hrun|]. simpl.
      apply spec_sanitize; auto.
      * rewrite (take_cells s v l _ Hh) in Htk' by lia.
        unfold holds, size, capacity in *; simpl.
        rewrite length_app, length_take, Hl.
        replace (Z.to_nat pos `min` length l)%nat with (Z.to_nat pos) by lia.
        repeat split; try lia; try assumption.
        rewrite fmap_app, <- Htk'. reflexivity.
      * unfold size; simpl. unfold size in *. lia.
Qed.

(** *** [insert] *)

Lemma holds_live s s' v l : holds s v l -> start v ∈ live s' -> holds s' v l.
Proof. intros (_ & H) Hs. split; assumption. Qed.

(** A block that starts with the elements [l] makes a vector of them. *)
Lemma holds_build s v l (c rest : list (option T)) (n : Z) :
  start v ∈ live s ->
  c = (Some <$> l) ++ rest ->
  Z.of_nat (length c) = end_of_storage v ->
  0 < end_of_storage v < 2 ^ 62 ->
  n = Z.of_nat (length l) ->
  holds s {| start := start v; cells := c; finish := n;
             end_of_storage := end_of_storage v |} l.
Proof.
  intros Hst -> Hlen Hcp ->.
  rewrite length_app, length_fmap in Hlen.
  unfold holds, size, capacity; simpl.
  rewrite length_app, length_fmap.
  repeat split; try lia; try assumption.
  apply take_app_length'. now rewrite length_fmap.
Qed.

Lemma spec_save_tail B (pos : Z) v s l :
  holds s v l -> consistent s -> 0 <= pos ->
  initial_capacity <= B -> 2 * size v <= B ->
  Spec B
    (run temp <- vector_default can_allocate ;
     if size v <=? pos then ret (size v, temp)
     else
       run t <- vector_ptr can_allocate (size_type (size v - pos))
                  (Some (drop (Z.to_nat pos) (cells v))) ;
       run tt' <- move_assign can_allocate temp t ;
       run _ <- destroy (snd tt') ;
       ret (pos, fst tt')) s
    (tail_saved s pos v l).
Proof.
  intros Hh Hs Hpos HB HB2.
  pose proof Hh as (Hst & Hlen & Hsz & Hcp & Hsl & Htk).
  pose proof (consistent_fresh s _ Hs Hst) as Hfresh.
  unfold initial_capacity in HB.
  apply spec_bind. unfold vector_default.
  apply spec_noexcept, spec_create_storage; [unfold initial_capacity; lia|].
  intros _.
  destruct (Z.leb_spec (size v) pos) as [Hge|Hlt].
  - apply spec_ret. unfold tail_saved; simpl.
    split.
    { intros b Hb. pose proof (consistent_fresh s b Hs Hb). set_solver. }
    split; [now apply consistent_allocate|].
    split; [apply (holds_live s); [exact Hh | simpl; set_solver]|].
    split; [set_solver|]. split; [congruence|]. split; lia.
  - set (tl := drop (Z.to_nat pos) l).
    assert (Htl : Z.of_nat (length tl) = size v - pos)
      by (unfold tl; rewrite length_drop; lia).
    apply spec_bind. unfold vector_ptr.
    rewrite size_type_small by lia.
    destruct (Z.eqb_spec (size v - pos) 0) as [|_]; [lia|].
    unfold capacity_factor. rewrite size_type_small by lia.
    apply spec_bind, spec_create_storage; [lia|]. intros Hcap.
    apply spec_bind. eapply spec_lift.
    { cbn [cells]. rewrite <- Htl.
      rewrite (holds_cells s v l Hh), drop_app_le
        by (rewrite length_fmap; lia).
      rewrite <- fmap_drop. fold tl.
      replace (Z.to_nat (Z.of_nat (length tl) * 2))
        with (length tl + length tl)%nat by lia.
      rewrite replicate_add.
      apply assign_content_spec. now rewrite length_replicate. }
    apply spec_ret. apply spec_bind. unfold move_assign.
    apply spec_noexcept, spec_bind, spec_deallocate;
      [simpl; set_solver|].
    unfold move_content.
    apply spec_bind, spec_create_storage; [unfold initial_capacity; lia|].
    intros _. apply spec_ret. cbn [fst snd].
    apply spec_bind. unfold destroy.
    apply spec_deallocate; [simpl; set_solver|].
    apply spec_ret. unfold tail_saved; cbn [fst snd start cells size finish].
    split.
    { intros b Hb. simpl. pose proof (Hs b Hb).
      assert (b <> next s) by lia. assert (b <> S (next s)) by lia.
      assert (b <> S (S (next s))) by lia. set_solver. }
    split.
    { apply consistent_deallocate, consistent_allocate,
        consistent_deallocate, consistent_allocate, consistent_allocate, Hs. }
    split.
    { apply (holds_live s); [exact Hh|]. simpl.
      assert (start v <> S (next s)) by (apply Hs in Hst; lia).
      assert (start v <> S (S (next s))) by (apply Hs in Hst; lia).
      set_solver. }
    split.
    { simpl. assert (S (next s) <> next s) by lia.
      assert (S (next s) <> S (S (next s))) by lia. set_solver. }
    split; [simpl; apply Hs in Hst; lia|]. split; [lia|].
    intros _. eexists. split; [reflexivity | unfold tl in Htl; lia].
Qed.

Lemma spec_assoc {A C D} B (m : M A) (f : A -> M C) (k : C -> M D) s
  (Q : D -> allocator -> Prop) :
  Spec B (mbind (mbind m f) k) s Q ->
  Spec B (mbind m (fun a => mbind (f a) k)) s Q.
Proof.
  unfold spec, mbind. destruct (m s) as [[a s']| | | |]; auto.
Qed.

(** [insert] from a buffer [p] outside the block puts the elements [q],
    which [p] starts with, in front of the element at [pos], or at the
    end. *)
Lemma spec_insert B (pos : Z) (q : list T) (post : list (option T)) v s l :
  holds s v l -> consistent s ->
  0 <= pos -> Z.of_nat (length q) < 2 ^ 62 ->
  initial_capacity <= B -> 2 * (size v + Z.of_nat (length q)) <= B ->
  Spec B (insert can_allocate pos (Buffer ((Some <$> q) ++ post))
            (Z.of_nat (length q)) v) s
    (fun v' s' => holds s' v' (contents_insert pos q l) /\ consistent s' /\
                  forall b, b ∈ live s -> b <> start v ->
                            b ∈ live s' /\ b <> start v').
Proof.
  intros Hh Hs Hpos Hq HB HB2.
  pose proof Hh as (Hst & Hlen & Hsz & Hcp & Hsl & Htk).
  unfold insert. cbv zeta. apply spec_assoc, spec_bind.
  eapply spec_mono; [|apply (spec_save_tail B pos v s l Hh Hs Hpos HB); lia].
  clear Hh Hs Hst. revert s. intros s0.
  intros [pos' temp] s (Hfr & Hs & Hh & Htl & Hne & Hp' & Htail).
  cbn [fst snd] in *.
  unfold capacity_factor.
  rewrite (size_type_small (size v + Z.of_nat (length q))) by lia.
  rewrite size_type_small by lia.
  apply spec_bind.
  apply (spec_mono _ _ _
           (fun v1 s1 => consistent s1 /\ holds s1 v1 l /\
                         start temp ∈ live s1 /\ start temp <> start v1 /\
                         size v + Z.of_nat (length q) <= capacity v1 /\
                         forall b, b ∈ live s0 -> b <> start v ->
                                   b ∈ live s1 /\ b <> start temp /\
                                   b <> start v1)).
  2:{ destruct (Z.ltb_spec (capacity v) (size v + Z.of_nat (length q)))
        as [Hsmall|Hroom].
      - apply (spec_reserve B _ v s l); [exact Hh | lia | lia|].
        intros Hlt.
        pose proof (holds_reserved ((size v + Z.of_nat (length q)) * 2)
                      s v l Hh Hs ltac:(lia)) as Hr.
        rewrite take_ge in Hr by lia.
        pose proof (consistent_fresh s _ Hs Htl).
        split; [apply consistent_deallocate, consistent_allocate, Hs|].
        split; [exact Hr|]. split; [simpl; set_solver|].
        split; [assumption|].
        split; [unfold reserved, capacity; simpl; lia|].
        intros b Hb Hbv. destruct (Hfr b Hb) as [Hb1 Hb2].
        pose proof (consistent_fresh s _ Hs Hb1).
        simpl. set_solver.
      - apply spec_ret. split; [exact Hs|]. split; [exact Hh|].
        split; [exact Htl|]. split; [exact Hne|]. split; [lia|].
        intros b Hb Hbv. destruct (Hfr b Hb). auto. }
  clear Hlen Hcp Htk Hne.
  intros v1 s1 (Hs1 & Hh1 & Htl1 & Hne1 & Hcap1 & Hfr1).
  pose proof Hh1 as (Hst1 & Hlen1 & Hsz1 & Hcp1 & Hsl1 & Htk1).
  set (c := cells v1).
  set (k := Z.to_nat pos').
  assert (Hk : pos' = Z.of_nat k) by (unfold k; lia).
  assert (Hkl : (k <= length l)%nat) by lia.
  assert (Hck : length (take k c) = k)
    by (rewrite length_take; unfold c, capacity in *; lia).
  assert (Htkc : take k c = Some <$> take k l)
    by (apply (take_cells s1); auto).
  set (rest := drop (length q) (drop k c)).
  apply spec_bind, spec_intact. intros ok.
  assert (Hloop :
    insert_loop (Z.to_nat (Z.of_nat (length q))) pos' 0
      (Buffer ((Some <$> q) ++ post)) ok c
    = Returns (take k c ++ (Some <$> q) ++ rest, pos' + Z.of_nat (length q))).
  { rewrite Nat2Z.id.
    rewrite <- (take_drop k c) at 1.
    rewrite <- (take_drop (length q) (drop k c)) at 1. fold rest.
    pose proof (insert_loop_spec ok q [] post (take k c)
                  (take (length q) (drop k c)) rest) as E.
    cbn [app length Nat.add] in E. change (Z.of_nat 0) with 0 in E.
    rewrite Hck, <- Hk in E. rewrite E.
    - do 2 f_equal. lia.
    - rewrite length_take, length_drop. unfold c, capacity in *. lia.
    - lia.
    - lia. }
  apply spec_bind. eapply spec_lift; [exact Hloop|]. cbn [fst snd].
  assert (Hfinal : forall c2 (newl : list T) junk,
    c2 = (Some <$> newl) ++ junk ->
    length c2 = length c ->
    length newl = (length l + length q)%nat ->
    Spec B (run _ <- destroy temp ;
            ret {| start := start v1; cells := c2;
                   finish := size v + Z.of_nat (length q);
                   end_of_storage := end_of_storage v1 |}) s1
      (fun v' s' => holds s' v' newl /\ consistent s' /\
                    forall b, b ∈ live s0 -> b <> start v ->
                              b ∈ live s' /\ b <> start v')).
  { intros c2 newl junk Hc2 Hl2 Hn2.
    apply spec_bind. unfold destroy.
    apply spec_deallocate; [exact Htl1|]. apply spec_ret. split; [|split].
    - apply (holds_build _ v1 newl c2 junk); auto.
      + simpl. set_solver.
      + rewrite Hl2. exact Hlen1.
      + lia.
    - apply consistent_deallocate, Hs1.
    - intros b Hb Hbv. destruct (Hfr1 b Hb Hbv) as (? & ? & ?).
      simpl. set_solver. }
  assert (Hrest : (length l + length q <= length c)%nat).
  { unfold c, size, capacity in *. lia. }
  destruct (Z.eqb_spec pos' (size v1)) as [Hend|Hmid].
  - apply spec_bind, spec_ret.
    assert (Hkl' : k = length l) by lia.
    assert (Hins : contents_insert pos q l = l ++ q).
    { unfold contents_insert.
      destruct (Z.leb_spec (Z.of_nat (length l)) pos); [reflexivity|lia]. }
    rewrite Hins.
    apply (Hfinal _ _ rest).
    + rewrite Htkc, Hkl', take_ge, fmap_app, <- app_assoc by lia. reflexivity.
    + rewrite !length_app, length_fmap, Hck. unfold rest.
      rewrite !length_drop. lia.
    + rewrite length_app. lia.
  - assert (Hpl : pos < size v) by lia.
    destruct (Htail Hpl) as (junk & Hct & Hst').
    assert (Hpk : Z.to_nat pos = k) by (unfold k; lia).
    rewrite Hpk in Hct, Hst'.
    set (tl := drop k l) in *.
    assert (Hltl : length tl = (length l - k)%nat)
      by (unfold tl; apply length_drop).
    assert (Hins : contents_insert pos q l = take k l ++ q ++ tl).
    { unfold contents_insert.
      destruct (Z.leb_spec (Z.of_nat (length l)) pos); [lia|].
      now rewrite Hpk. }
    rewrite Hins.
    assert (Htail_run :
      insert_tail (Z.to_nat (size temp)) (pos' + Z.of_nat (length q)) 0 temp
        (take k c ++ (Some <$> q) ++ rest)
      = Returns ((take k c ++ (Some <$> q)) ++ (Some <$> tl)
                 ++ drop (length tl) rest)).
    { rewrite Hst', Nat2Z.id.
      rewrite <- (take_drop (length tl) rest) at 1.
      rewrite app_assoc.
      pose proof (insert_tail_spec tl temp [] junk
                    (take k c ++ (Some <$> q))
                    (take (length tl) rest) (drop (length tl) rest)) as E.
      cbn [app length Nat.add] in E. change (Z.of_nat 0) with 0 in E.
      rewrite length_app, length_fmap, Hck in E.
      replace (Z.of_nat (k + length q))
        with (pos' + Z.of_nat (length q)) in E by lia.
      apply E.
      - exact Hct.
      - exact Hst'.
      - rewrite length_take. unfold rest. rewrite !length_drop. lia.
      - lia.
      - lia. }
    apply spec_bind. eapply spec_lift; [exact Htail_run|].
    apply (Hfinal _ _ (drop (length tl) rest)).
    + rewrite Htkc, !fmap_app, <- !app_assoc. reflexivity.
    + rewrite !length_app, !length_fmap, Hck. unfold rest.
      rewrite !length_drop. lia.
    + rewrite !length_app, length_take. lia.
Qed.

(** [insert(pos, value)] copies [value], also when it is an element of the
    vector itself, and goes through a one-element vector. *)
Lemma spec_insert_value B (pos : Z) (r : const_reference (T:=T)) (x : T)
  v s l :
  holds s v l -> consistent s -> 0 <= pos -> referent r l = Some x ->
  initial_capacity <= B -> 2 * (size v + 1) <= B ->
  Spec B (insert_value can_allocate pos r v) s
    (fun v' s' => holds s' v' (contents_insert pos [x] l) /\ consistent s').
Proof.
  intros Hh Hs Hpos Hr HB HB2.
  pose proof Hh as (Hst & Hlen & Hsz & Hcp & Hsl & Htk).
  unfold initial_capacity in HB.
  unfold insert_value. apply spec_bind.
  apply (spec_deref B r x v s l _ Hh Hr).
  apply spec_bind. unfold vector_list.
  apply spec_noexcept.
  apply spec_bind, spec_create_storage;
    [unfold capacity_factor; simpl; rewrite size_type_small; lia|].
  intros _. apply spec_bind. eapply spec_lift.
  { exact (assign_list_spec [x] [] [None] [None] eq_refl). }
  apply spec_ret. cbn [app fmap list_fmap length].
  unfold insert_vector, data. cbn [cells size finish Z.eqb].
  apply spec_bind.
  pose proof (consistent_fresh s _ Hs Hst) as Hfresh.
  eapply spec_mono;
    [|apply (spec_insert B pos [x] [None] v (after_allocate s) l);
      [apply (holds_live s); [exact Hh | simpl; set_solver]
      | now apply consistent_allocate
      | exact Hpos | simpl; lia | unfold initial_capacity; lia
      | simpl; lia]].
  intros v' s' (Hh' & Hs' & Hfr).
  apply spec_bind. unfold destroy.
  pose proof Hh' as (Hst' & _).
  destruct (Hfr (next s)) as [Hnext Hv'];
    [simpl; set_solver | congruence|].
  apply spec_deallocate; [exact Hnext|]. apply spec_ret. split.
  - apply (holds_live s'); [exact Hh'|]. simpl. set_solver.
  - now apply consistent_deallocate.
Qed.

(** *** Sequences of operations *)

Lemma generous_never B : 2 ^ 62 <= B -> ~ generous can_allocate B.
Proof.
  intros HB Hg. specialize (Hg (2 ^ 62) ltac:(lia)).
  apply address_space in Hg. lia.
Qed.

(** Every operation whose arguments are [plain] keeps the invariant and gives
    the prescribed contents, or fails on [bad_alloc]. *)
Lemma perform_plain (op : operation) v s l :
  holds s v l -> consistent s -> plain op ->
  Spec (2 ^ 64) (perform can_allocate op v) s
    (fun v' s' => holds s' v' (prescribed op l) /\ consistent s').
Proof.
  intros Hh Hs Hop.
  pose proof Hh as (Hst & Hlen & Hsz & Hcp & Hsl & Htk).
  unfold initial_capacity.
  destruct op as [x| |pos p|pos len]; cbn [perform prescribed plain] in *.
  - apply spec_push_back; auto. lia.
  - apply spec_pop_back; auto; unfold initial_capacity; lia.
  - destruct Hop as [Hpos Hp].
    rewrite <- (app_nil_r (Some <$> p)).
    eapply spec_mono;
      [|apply (spec_insert _ pos p [] v s l); auto;
        unfold initial_capacity; lia].
    intros v' s' (? & ? & _). auto.
  - destruct Hop as (Hpos & Hlen' & H64).
    apply spec_erase; auto; unfold initial_capacity; lia.
Qed.

Lemma perform_all_plain (ops : list operation) : forall v s l,
  holds s v l -> consistent s -> Forall plain ops ->
  Spec (2 ^ 64) (perform_all can_allocate ops v) s
    (fun v' s' => holds s' v' (prescribed_all ops l) /\ consistent s').
Proof.
  induction ops as [|op ops IH]; intros v s l Hh Hs Hops.
  - apply spec_ret. auto.
  - inversion Hops as [|? ? Hop Hops']; subst.
    cbn [perform_all prescribed_all fold_left]. apply spec_bind.
    eapply spec_mono; [|apply perform_plain; eauto].
    intros v' s' [Hh' Hs']. apply IH; auto.
Qed.

(** *** [reserve], evaluated *)

Lemma reserve_eval n v s l :
  holds s v l -> 0 < n -> n <> capacity v ->
  reserve can_allocate n v s
  = if can_allocate n
    then Returns (reserved n s v l,
                  after_deallocate (start v) (after_allocate s))
    else Throws bad_alloc.
Proof.
  intros Hh Hn Hcap. unfold reserve.
  destruct (Z.eqb_spec n 0) as [|_]; [lia|].
  destruct (Z.eqb_spec n (capacity v)) as [|_]; [contradiction|].
  unfold mbind at 1. unfold allocate.
  destruct (Z.eqb_spec n 0) as [|_]; [lia|].
  destruct (can_allocate n); [|reflexivity].
  pose proof (holds_cells s v l Hh) as Hc.
  destruct Hh as (Hst & Hlen & Hsz & Hcp & Hsl & Htk).
  set (m := take (Z.to_nat n) l).
  assert (Hm : (if n <? size v then n else size v) = Z.of_nat (length m)).
  { unfold m. rewrite length_take.
    destruct (Z.ltb_spec n (size v)); lia. }
  assert (Hmin : Z.min n (size v) = Z.of_nat (length m)).
  { unfold m. rewrite length_take. lia. }
  assert (Hcopy :
    assign_content (if n <? size v then n else size v) (cells v)
      (replicate (Z.to_nat n) None)
    = Returns ((Some <$> m) ++ replicate (Z.to_nat n - length l) None)).
  { rewrite Hm, Hc.
    rewrite <- (take_drop (Z.to_nat n) l) at 1. fold m.
    rewrite fmap_app, <- app_assoc.
    replace (replicate (Z.to_nat n) (@None T))
      with (replicate (length m) (@None T)
            ++ replicate (Z.to_nat n - length l) None).
    + apply assign_content_spec. now rewrite length_replicate.
    + rewrite <- replicate_add. f_equal. unfold m. rewrite length_take. lia. }
  unfold mbind, lift. rewrite Hcopy. cbn [bind]. unfold deallocate.
  match goal with
  | |- context [decide ?P] => destruct (decide P) as [_|Hno]
  end; [|exfalso; apply Hno; simpl; set_solver].
  unfold ret, reserved. fold m. rewrite Hm, Hmin. reflexivity.
Qed.

(** ** What holds without wrap-around and for the checked [operator[]] *)

(** The container invariant for plain sequences: a sequence of [push_back],
    [pop_back], [insert] and [erase] in which every pushed object and every
    inserted buffer lies outside the block of the vector and no [erase]
    wraps [pos + len] around returns with [0 <= size <= capacity] and the
    first [size] objects equal to the prescribed contents, or fails on
    [bad_alloc]; it has no undefined behaviour and comes back. *)
Theorem plain_sequence_invariant (ops : list operation) v s l :
  holds s v l -> consistent s -> Forall plain ops ->
  match perform_all can_allocate ops v s with
  | Returns (v', s') =>
      0 <= size v' <= capacity v' /\
      take (Z.to_nat (size v')) (cells v') = Some <$> prescribed_all ops l /\
      holds s' v' (prescribed_all ops l) /\ consistent s'
  | Throws e | Terminates e => e = bad_alloc
  | Undefined | Diverges => False
  end.
Proof.
  intros Hh Hs Hops.
  pose proof (perform_all_plain ops v s l Hh Hs Hops) as H.
  unfold spec in H.
  destruct (perform_all can_allocate ops v s) as [[v' s']| | | |];
    try tauto.
  destruct H as [Hh' Hs'].
  pose proof Hh' as (_ & _ & Hsz & _ & Hsl & Htk).
  split; [exact Hsz|]. split; [|split; assumption].
  now rewrite Hsl, Nat2Z.id.
Qed.

(** [erase(pos, len)] when [pos + len] does not wrap: it returns (the
    allocator being generous enough for [sanitize]) and leaves the
    prescribed contents; for [pos > size] it returns the vector as it
    was. *)
Theorem erase_without_wrap (B pos len : Z) v s l :
  holds s v l -> consistent s ->
  0 <= pos -> 0 <= len -> pos + len < 2 ^ 64 ->
  generous can_allocate B -> initial_capacity <= B -> 2 * size v <= B ->
  (exists v' s',
     erase can_allocate pos len v s = Returns (v', s') /\
     holds s' v' (contents_erase pos len l)) /\
  (size v < pos -> erase can_allocate pos len v s = Returns (v, s)).
Proof.
  intros Hh Hs Hpos Hlen H64 Hg HB HB2. split.
  - destruct (spec_returns B _ s _
                (spec_erase B pos len v s l Hh Hs Hpos Hlen H64 HB HB2) Hg)
      as (v' & s' & Hrun & Hh' & _).
    eauto.
  - intros Hout. unfold erase.
    destruct (Z.ltb_spec (size v) pos); [reflexivity | lia].
Qed.

(** The non-[const] [operator[]]: it throws [out_of_range] exactly when
    [pos >= size], and for [pos < size] it returns the reference to the
    element at [pos], through which that element is read. *)
Theorem index_checked (pos : Z) v s l :
  holds s v l -> 0 <= pos ->
  (index pos v = Throws out_of_range <-> size v <= pos) /\
  (pos < size v ->
   exists x, l !! Z.to_nat pos = Some x /\
             index pos v = Returns pos /\ get pos v = Returns x).
Proof.
  intros Hh Hpos. pose proof (holds_cells s v l Hh) as Hc.
  destruct Hh as (_ & _ & _ & _ & Hsl & _).
  unfold get, index. split.
  - destruct (Z.leb_spec (size v) pos); split; intros; try lia;
      try reflexivity; discriminate.
  - intros Hlt.
    destruct (l !! Z.to_nat pos) as [x|] eqn:Hx.
    + exists x. split; [reflexivity|].
      destruct (Z.leb_spec (size v) pos); [lia|].
      split; [reflexivity|]. cbn [bind]. unfold load.
      destruct (Z.ltb_spec pos 0); [lia|].
      rewrite Hc, lookup_app_l by (rewrite length_fmap; lia).
      now rewrite list_lookup_fmap, Hx.
    + apply lookup_ge_None in Hx. lia.
Qed.

(** ** The claims about [vector] that depend on the allocator *)

Lemma length_contents_insert (pos : Z) (q l : list T) :
  0 <= pos ->
  length (contents_insert pos q l) = (length l + length q)%nat.
Proof.
  intros Hpos. unfold contents_insert.
  destruct (Z.leb_spec (Z.of_nat (length l)) pos).
  - now rewrite length_app.
  - rewrite !length_app, length_take, length_drop. lia.
Qed.

(** C5, amended: for every vector [v] with contents [l], every buffer [p]
    outside the block of [v] that holds the [count] elements [q], and every
    position [pos], [insert(pos, p, count)] returns (the allocator being
    generous enough) with the contents [l ++ q] if [pos >= size], and
    otherwise the old prefix [[0, pos)], then [q], then the old tail, with
    the size increased by [count]; [insert(pos, value)] gives what the bulk
    form gives for the single element, also when [value] is an element of
    [v] itself; and [insert(pos, other, 0)] with another vector [other] is
    the bulk form from [other.data()] with the full size of [other] as the
    count, and leaves [other] as it was. *)
Theorem insert_contents (B pos : Z) (q : list T) (post : list (option T))
  (x : T) (other : vector (T:=T)) v s l :
  holds s v l -> consistent s ->
  0 <= pos -> Z.of_nat (length q) < 2 ^ 62 ->
  generous can_allocate B ->
  initial_capacity <= B ->
  2 * (size v + Z.of_nat (length q)) <= B -> 2 * (size v + 1) <= B ->
  (exists v' s',
     insert can_allocate pos (Buffer ((Some <$> q) ++ post))
       (Z.of_nat (length q)) v s
     = Returns (v', s') /\
     size v' = size v + Z.of_nat (length q) /\
     holds s' v'
       (if size v <=? pos then l ++ q
        else take (Z.to_nat pos) l ++ q ++ drop (Z.to_nat pos) l)) /\
  (forall r, referent r l = Some x ->
   exists v' s',
     insert_value can_allocate pos r v s = Returns (v', s') /\
     size v' = size v + 1 /\
     holds s' v'
       (if size v <=? pos then l ++ [x]
        else take (Z.to_nat pos) l ++ [x] ++ drop (Z.to_nat pos) l)) /\
  (forall lo,
     holds s other lo -> start other <> start v ->
     2 * (size v + size other) <= B ->
     insert_vector can_allocate pos (Some other) 0 v
     = insert can_allocate pos (Buffer (data other)) (size other) v /\
     exists v' s',
       insert_vector can_allocate pos (Some other) 0 v s = Returns (v', s') /\
       size v' = size v + size other /\
       holds s' v'
         (if size v <=? pos then l ++ lo
          else take (Z.to_nat pos) l ++ lo ++ drop (Z.to_nat pos) l) /\
       holds s' other lo).
Proof.
  intros Hh Hs Hpos Hq Hg HB HB2 HB1.
  pose proof Hh as (_ & _ & _ & _ & Hsl & _).
  split; [|split].
  - destruct (spec_returns B _ s _
                (spec_insert B pos q post v s l Hh Hs Hpos Hq HB HB2) Hg)
      as (v' & s' & Hrun & Hh' & _).
    exists v', s'. split; [exact Hrun|].
    pose proof Hh' as (_ & _ & _ & _ & Hsl' & _).
    rewrite length_contents_insert in Hsl' by exact Hpos.
    split; [lia|]. rewrite Hsl. exact Hh'.
  - intros r Hr.
    destruct (spec_returns B _ s _
                (spec_insert_value B pos r x v s l Hh Hs Hpos Hr HB HB1) Hg)
      as (v' & s' & Hrun & Hh' & _).
    exists v', s'. split; [exact Hrun|].
    pose proof Hh' as (_ & _ & _ & _ & Hsl' & _).
    rewrite length_contents_insert in Hsl' by exact Hpos.
    split; [simpl in Hsl'; lia|]. rewrite Hsl. exact Hh'.
  - intros lo Ho Hne HBo.
    assert (E : insert_vector can_allocate pos (Some other) 0 v
                = insert can_allocate pos (Buffer (data other)) (size other) v)
      by reflexivity.
    split; [exact E|]. rewrite E. unfold data.
    pose proof (holds_cells s other lo Ho) as Hc.
    pose proof Ho as (Hso & _ & Hszo & Hcpo & Hslo & _).
    rewrite Hc, Hslo in *.
    destruct (spec_returns B _ s _
                (spec_insert B pos lo (drop (length lo) (cells other)) v s l
                   Hh Hs Hpos ltac:(lia) HB HBo) Hg)
      as (v' & s' & Hrun & Hh' & _ & Hfr).
    exists v', s'. split; [exact Hrun|].
    pose proof Hh' as (_ & _ & _ & _ & Hsl' & _).
    rewrite length_contents_insert in Hsl' by exact Hpos.
    split; [lia|]. split; [rewrite Hsl; exact Hh'|].
    apply (holds_live s); [exact Ho|]. now apply Hfr.
Qed.

(** C6: [reserve(0)] is [clear()]; [reserve(n)] with [n] the current
    capacity returns the vector and the allocator unchanged; otherwise, when
    the allocator grants [n] objects, [reserve(n)] returns with capacity [n],
    size [min(n, size)] and the first [min(n, size)] old elements in order,
    the old block released and the new one live; when the allocator refuses,
    it throws [bad_alloc]. *)
Theorem reserve_behaviour (n : Z) v s l :
  holds s v l -> consistent s -> 0 <= n ->
  reserve can_allocate 0 v = clear can_allocate v /\
  (n = capacity v -> reserve can_allocate n v s = Returns (v, s)) /\
  (n <> 0 -> n <> capacity v ->
   (can_allocate n = true ->
    exists v' s',
      reserve can_allocate n v s = Returns (v', s') /\
      capacity v' = n /\ size v' = Z.min n (size v) /\
      holds s' v' (take (Z.to_nat (Z.min n (size v))) l) /\
      (start v ∉ live s') /\ (start v' ∈ live s')) /\
   (can_allocate n = false ->
    reserve can_allocate n v s = Throws bad_alloc)).
Proof.
  intros Hh Hs Hn.
  pose proof Hh as (Hst & Hlen & Hsz & Hcp & Hsl & Htk).
  split; [reflexivity|]. split.
  - intros ->. unfold reserve.
    destruct (Z.eqb_spec (capacity v) 0) as [|_]; [lia|].
    now rewrite Z.eqb_refl.
  - intros Hn0 Hcap.
    rewrite (reserve_eval n v s l Hh ltac:(lia) Hcap). split.
    + intros Hcan. rewrite Hcan. do 2 eexists. split; [reflexivity|].
      pose proof (address_space n Hcan) as Hlt.
      pose proof (holds_reserved n s v l Hh Hs ltac:(lia)) as Hr.
      split; [reflexivity|]. split; [reflexivity|].
      split; [|split].
      * replace (take (Z.to_nat (Z.min n (size v))) l)
          with (take (Z.to_nat n) l); [exact Hr|].
        destruct (Z.le_gt_cases n (size v)).
        -- now rewrite Z.min_l by lia.
        -- rewrite Z.min_r, !take_ge by lia. reflexivity.
      * simpl. set_solver.
      * destruct Hr as (Hst' & _). exact Hst'.
    + intros Hcan. now rewrite Hcan.
Qed.

(** C10, amended: the six constructors that ask [create_storage] for the
    element count times the growth factor produce no container when the
    count is zero, each in its own way.  [vector(0)] and [vector(0, value)]
    request [allocate(0)], which yields the null pointer, and
    [create_storage(0)] throws [bad_alloc] to the caller.  The copy
    constructor from an empty vector, the move constructor from an empty
    vector and the constructor from an empty initializer list make the same
    request, but they are [noexcept]: the [bad_alloc] does not reach the
    caller, and the program ends in [std::terminate].  [vector(0, p)] does
    not reach the request: it throws [invalid_argument]. *)
Theorem zero_sized_construction (vec other : vector (T:=T)) (x : T)
  (p : option (list (option T))) s :
  size vec = 0 -> size other = 0 ->
  allocate can_allocate 0 s = Returns (None, s) /\
  create_storage (T:=T) can_allocate 0 s = Throws bad_alloc /\
  vector_n value_type can_allocate 0 s = Throws bad_alloc /\
  vector_fill can_allocate 0 x s = Throws bad_alloc /\
  vector_copy can_allocate vec s = Terminates bad_alloc /\
  vector_move can_allocate other s = Terminates bad_alloc /\
  vector_list (T:=T) can_allocate [] s = Terminates bad_alloc /\
  vector_ptr can_allocate 0 p s = Throws invalid_argument.
Proof.
  intros Hvec Hother.
  unfold vector_n, vector_fill, vector_copy, vector_move, vector_list.
  rewrite Hvec, Hother.
  repeat (split; [reflexivity|]). now destruct p.
Qed.

(** ** Construction *)

Lemma generous_bound B : Generous B -> B < 2 ^ 62.
Proof.
  intros Hg. destruct (Z.lt_ge_cases B (2 ^ 62)) as [|Hge]; [assumption|].
  now apply generous_never in Hge.
Qed.

Lemma fill_spec (x : T) (mid : list (option T)) : forall tpre tpost,
  fill (length mid) (Z.of_nat (length tpre)) x (tpre ++ mid ++ tpost)
  = Returns (tpre ++ replicate (length mid) (Some x) ++ tpost).
Proof.
  induction mid as [|o mid IH]; intros tpre tpost.
  - reflexivity.
  - cbn [fill length app replicate]. rewrite store_middle. cbn [bind].
    specialize (IH (tpre ++ [Some x]) tpost).
    rewrite length_app in IH. simpl in IH.
    rewrite <- !app_assoc in IH. simpl in IH.
    replace (Z.of_nat (length tpre) + 1)
      with (Z.of_nat (length tpre + 1)) by lia.
    exact IH.
Qed.

Lemma replicate_twice (k : nat) :
  replicate (Z.to_nat (Z.of_nat k * 2)) (@None T)
  = replicate k None ++ replicate k None.
Proof. rewrite <- replicate_add. f_equal. lia. Qed.

Lemma spec_constructs B (m : M (vector (T:=T))) s l c :
  Spec B m s (fun v s' => s' = after_allocate s /\ start v = next s /\
                          capacity v = c /\ holds s' v l) ->
  Generous B -> constructs m s l c.
Proof.
  intros H Hg.
  destruct (spec_returns B _ _ _ H Hg) as (v & s' & Hrun & -> & Hrest).
  exists v. split; [exact Hrun | exact Hrest].
Qed.

Lemma spec_vector_fill B (k : nat) (x : T) s :
  (0 < k)%nat -> 2 * Z.of_nat k <= B -> B < 2 ^ 62 ->
  Spec B (vector_fill can_allocate (Z.of_nat k) x) s
    (fun v s' => s' = after_allocate s /\ start v = next s /\
                 capacity v = 2 * Z.of_nat k /\ holds s' v (replicate k x)).
Proof.
  intros Hk HB HB'. unfold vector_fill, capacity_factor.
  rewrite size_type_small by lia.
  apply spec_bind, spec_create_storage; [lia|]. intros _.
  unfold assign_content_value, capacity. cbn [cells start end_of_storage].
  destruct (Z.leb_spec (Z.of_nat k) (Z.of_nat k * 2)) as [_|]; [|lia].
  pose proof (fill_spec x (replicate k None) [] (replicate k None)) as E.
  rewrite length_replicate in E. cbn [app length] in E.
  change (Z.of_nat 0) with 0 in E.
  rewrite replicate_twice, Nat2Z.id, E.
  eapply spec_lift; [reflexivity|].
  split; [reflexivity|]. split; [reflexivity|].
  split; [unfold capacity; simpl; lia|].
  apply (holds_build (after_allocate s)
           {| start := next s; cells := []; finish := 0;
              end_of_storage := Z.of_nat k * 2 |}
           (replicate k x) _ (replicate k None)).
  - simpl. set_solver.
  - now rewrite fmap_replicate.
  - simpl. rewrite length_app, !length_replicate. lia.
  - simpl. lia.
  - now rewrite length_replicate.
Qed.

Lemma spec_vector_list B (q : list T) s :
  q <> [] -> 2 * Z.of_nat (length q) <= B -> B < 2 ^ 62 ->
  Spec B (vector_list can_allocate q) s
    (fun v s' => s' = after_allocate s /\ start v = next s /\
                 capacity v = 2 * Z.of_nat (length q) /\ holds s' v q).
Proof.
  intros Hq HB HB'. unfold vector_list, capacity_factor.
  assert (0 < length q)%nat by (destruct q; [contradiction | simpl; lia]).
  rewrite size_type_small by lia.
  apply spec_noexcept, spec_bind, spec_create_storage; [lia|]. intros _.
  cbn [cells start end_of_storage].
  pose proof (assign_list_spec q [] (replicate (length q) None)
                (replicate (length q) None)) as E.
  rewrite length_replicate in E. cbn [app length] in E.
  change (Z.of_nat 0) with 0 in E.
  rewrite replicate_twice, E by reflexivity.
  apply spec_bind. eapply spec_lift; [reflexivity|]. apply spec_ret.
  split; [reflexivity|]. split; [reflexivity|].
  split; [unfold capacity; simpl; lia|].
  apply (holds_build (after_allocate s)
           {| start := next s; cells := []; finish := 0;
              end_of_storage := Z.of_nat (length q) * 2 |}
           q _ (replicate (length q) None)).
  - simpl. set_solver.
  - reflexivity.
  - simpl. rewrite length_app, length_fmap, length_replicate. lia.
  - simpl. lia.
  - reflexivity.
Qed.

Lemma spec_vector_ptr B (q : list T) (post : list (option T)) s :
  q <> [] -> 2 * Z.of_nat (length q) <= B -> B < 2 ^ 62 ->
  Spec B (vector_ptr can_allocate (Z.of_nat (length q))
            (Some ((Some <$> q) ++ post))) s
    (fun v s' => s' = after_allocate s /\ start v = next s /\
                 capacity v = 2 * Z.of_nat (length q) /\ holds s' v q).
Proof.
  intros Hq HB HB'. unfold vector_ptr, capacity_factor.
  assert (0 < length q)%nat by (destruct q; [contradiction | simpl; lia]).
  destruct (Z.eqb_spec (Z.of_nat (length q)) 0) as [|_]; [lia|].
  rewrite size_type_small by lia.
  apply spec_bind, spec_create_storage; [lia|]. intros _.
  cbn [cells start end_of_storage].
  rewrite replicate_twice.
  rewrite (assign_content_spec q post) by now rewrite length_replicate.
  apply spec_bind. eapply spec_lift; [reflexivity|]. apply spec_ret.
  split; [reflexivity|]. split; [reflexivity|].
  split; [unfold capacity; simpl; lia|].
  apply (holds_build (after_allocate s)
           {| start := next s; cells := []; finish := 0;
              end_of_storage := Z.of_nat (length q) * 2 |}
           q _ (replicate (length q) None)).
  - simpl. set_solver.
  - reflexivity.
  - simpl. rewrite length_app, length_fmap, length_replicate. lia.
  - simpl. lia.
  - reflexivity.
Qed.

(** The constructors.  Under an allocator that grants the request, each
    one returns a vector in a fresh block and touches no other block: the
    default constructor an empty vector of capacity [10]; [vector(n, value)]
    [n] copies of [value] and [vector(n)] [n] value-initialised elements,
    [vector{list}] the elements of the list, and [vector(n, p)] the first
    [n] elements of the buffer [p], each with capacity twice its size.
    [vector(n, p)] throws [invalid_argument] for a null pointer and for
    [n == 0]. *)
Theorem constructors_build (B : Z) (k : nat) (x : T) (q : list T)
  (post : list (option T)) s :
  generous can_allocate B -> initial_capacity <= B ->
  (0 < k)%nat -> 2 * Z.of_nat k <= B ->
  q <> [] -> 2 * Z.of_nat (length q) <= B ->
  constructs (T:=T) (vector_default can_allocate) s [] initial_capacity /\
  constructs (vector_fill can_allocate (Z.of_nat k) x) s
    (replicate k x) (2 * Z.of_nat k) /\
  constructs (vector_n value_type can_allocate (Z.of_nat k)) s
    (replicate k value_type) (2 * Z.of_nat k) /\
  constructs (vector_list can_allocate q) s
    q (2 * Z.of_nat (length q)) /\
  constructs
    (vector_ptr can_allocate (Z.of_nat (length q))
       (Some ((Some <$> q) ++ post))) s
    q (2 * Z.of_nat (length q)) /\
  (forall n p,
     vector_ptr (T:=T) can_allocate n None s = Throws invalid_argument /\
     vector_ptr (T:=T) can_allocate 0 p s = Throws invalid_argument).
Proof.
  intros Hg HB Hk HBk Hq HBq.
  pose proof (generous_bound B Hg) as HB'.
  split; [|split; [|split; [|split; [|split]]]].
  - apply (spec_constructs B); [|exact Hg].
    unfold vector_default. apply spec_noexcept.
    apply spec_create_storage; [unfold initial_capacity in *; lia|].
    intros _. split; [reflexivity|]. split; [reflexivity|].
    split; [reflexivity|].
    apply holds_fresh. unfold initial_capacity. lia.
  - apply (spec_constructs B); [|exact Hg]. now apply spec_vector_fill.
  - apply (spec_constructs B); [|exact Hg].
    apply (spec_vector_fill B k value_type); assumption.
  - apply (spec_constructs B); [|exact Hg]. now apply spec_vector_list.
  - apply (spec_constructs B); [|exact Hg]. now apply spec_vector_ptr.
  - intros n p. split; [reflexivity|]. now destruct p.
Qed.

(** ** Copy, move and [clear] *)

(** Copying the elements of [vec] over the start of a block that has room
    for them. *)
Lemma holds_assign s (this vec : vector (T:=T)) l l' :
  start this ∈ live s ->
  Z.of_nat (length (cells this)) = capacity this ->
  0 < capacity this < 2 ^ 62 ->
  holds s vec l' -> size vec <= capacity this ->
  exists c,
    assign_content (size vec) (cells vec) (cells this) = Returns c /\
    holds s {| start := start this; cells := c; finish := size vec;
               end_of_storage := end_of_storage this |} l'.
Proof.
  intros Hst Hlen Hcp Hv Hroom.
  pose proof (holds_cells s vec l' Hv) as Hc.
  destruct Hv as (_ & _ & _ & _ & Hsl & _).
  unfold capacity in *.
  exists ((Some <$> l') ++ drop (length l') (cells this)). split.
  - rewrite Hsl, Hc.
    rewrite <- (take_drop (length l') (cells this)) at 1.
    apply assign_content_spec. rewrite length_take. lia.
  - apply (holds_build s this l' _ (drop (length l') (cells this)));
      auto.
    rewrite length_app, length_fmap, length_drop. lia.
Qed.

(** The copy constructor: the copy has the elements of [vec] in a fresh
    block of its own, with twice the size as its capacity, and [vec] is
    as it was. *)
Theorem copy_constructor (B : Z) (vec : vector (T:=T)) s l :
  holds s vec l -> consistent s -> 0 < size vec ->
  generous can_allocate B -> 2 * size vec <= B ->
  constructs (vector_copy can_allocate vec) s l (2 * size vec) /\
  holds (after_allocate s) vec l /\ next s <> start vec.
Proof.
  intros Hh Hs Hpos Hg HB.
  pose proof (generous_bound B Hg) as HB'.
  pose proof Hh as (Hst & Hlen & Hsz & Hcp & Hsl & Htk).
  pose proof (consistent_fresh s _ Hs Hst) as Hfresh.
  assert (Hh' : holds (after_allocate s) vec l)
    by (apply (holds_live s); [exact Hh | simpl; set_solver]).
  split; [|split; [exact Hh' | congruence]].
  apply (spec_constructs B); [|exact Hg].
  unfold vector_copy, capacity_factor. rewrite size_type_small by lia.
  apply spec_noexcept, spec_bind, spec_create_storage; [lia|]. intros _.
  destruct (holds_assign (after_allocate s)
              {| start := next s;
                 cells := replicate (Z.to_nat (size vec * 2)) None;
                 finish := 0; end_of_storage := size vec * 2 |} vec l l)
    as (c & Hc & Hhc); try exact Hh'.
  - simpl. set_solver.
  - unfold capacity; simpl. rewrite length_replicate. lia.
  - unfold capacity; simpl. lia.
  - unfold capacity; simpl. lia.
  - cbn [cells start end_of_storage] in *.
    apply spec_bind. eapply spec_lift; [exact Hc|]. apply spec_ret.
    split; [reflexivity|]. split; [reflexivity|].
    split; [unfold capacity; simpl; lia | exact Hhc].
Qed.

(** The move constructor: the new vector takes over the block and the
    elements of [other], and [other] is left empty with a fresh block of
    capacity [10]; the block that the constructor allocates first, before
    it takes over the block of [other], stays live and belongs to neither
    vector: it is never released. *)
Theorem move_constructor_leaks (B : Z) (other : vector (T:=T)) s l :
  holds s other l -> consistent s -> 0 < size other ->
  generous can_allocate B -> initial_capacity <= B -> 2 * size other <= B ->
  exists other' s',
    vector_move can_allocate other s = Returns ((other, other'), s') /\
    holds s' other l /\ holds s' other' [] /\
    capacity other' = initial_capacity /\
    start other' <> start other /\
    exists leaked,
      leaked ∈ live s' /\ (leaked ∉ live s) /\
      leaked <> start other /\ leaked <> start other' /\
      live s' = {[leaked]} ∪ ({[start other']} ∪ live s).
Proof.
  intros Hh Hs Hpos Hg HB HB2.
  pose proof (generous_bound B Hg) as HB'.
  pose proof Hh as (Hst & Hlen & Hsz & Hcp & Hsl & Htk).
  pose proof (consistent_fresh s _ Hs Hst) as Hfresh.
  assert (Hnot : next s ∉ live s) by (intros Hin; apply Hs in Hin; lia).
  assert (Hrun : Spec B (vector_move can_allocate other) s
    (fun r s' => r = (other,
                      {| start := S (next s);
                         cells := replicate (Z.to_nat initial_capacity) None;
                         finish := 0;
                         end_of_storage := initial_capacity |}) /\
                 s' = after_allocate (after_allocate s))).
  { unfold vector_move, capacity_factor. rewrite size_type_small by lia.
    apply spec_noexcept, spec_bind, spec_create_storage; [lia|]. intros _.
    unfold move_content. apply spec_bind, spec_create_storage;
      [unfold initial_capacity in *; lia|].
    intros _. apply spec_ret. split; reflexivity. }
  destruct (spec_returns B _ _ _ Hrun Hg) as (r & s' & E & -> & ->).
  do 2 eexists. split; [exact E|].
  split; [apply (holds_live s); [exact Hh | simpl; set_solver]|].
  split; [apply (holds_fresh (after_allocate s)); unfold initial_capacity; lia|].
  split; [reflexivity|]. simpl.
  split; [apply Hs in Hst; lia|].
  exists (next s). split; [set_solver|]. split; [exact Hnot|].
  split; [congruence|]. split; [lia|]. set_solver.
Qed.

(** Move assignment between two distinct vectors: the old block of the
    target is released, the target takes over the block and the elements of
    [other], and [other] is left empty with a fresh block of capacity
    [10]; no block is lost. *)
Theorem move_assignment (B : Z) (this other : vector (T:=T)) s l l' :
  holds s this l -> holds s other l' -> start this <> start other ->
  consistent s -> generous can_allocate B -> initial_capacity <= B ->
  exists other' s',
    move_assign can_allocate this other s = Returns ((other, other'), s') /\
    holds s' other l' /\ holds s' other' [] /\
    capacity other' = initial_capacity /\
    start other' <> start other /\
    (start this ∉ live s') /\ (start other' ∉ live s) /\
    live s' = {[start other']} ∪ (live s ∖ {[start this]}).
Proof.
  intros Hh Ho Hne Hs Hg HB.
  pose proof Hh as (Hst & _). pose proof Ho as (Hso & _).
  pose proof (consistent_fresh s _ Hs Hst) as Hfresh.
  pose proof (consistent_fresh s _ Hs Hso) as Hfresho.
  assert (Hnot : next s ∉ live s) by (intros Hin; apply Hs in Hin; lia).
  assert (Hrun : Spec B (move_assign can_allocate this other) s
    (fun r s' => r = (other,
                      {| start := next s;
                         cells := replicate (Z.to_nat initial_capacity) None;
                         finish := 0;
                         end_of_storage := initial_capacity |}) /\
                 s' = after_allocate (after_deallocate (start this) s))).
  { unfold move_assign.
    apply spec_noexcept, spec_bind, spec_deallocate; [exact Hst|].
    unfold move_content. apply spec_bind, spec_create_storage;
      [unfold initial_capacity in *; lia|].
    intros _. apply spec_ret. split; reflexivity. }
  destruct (spec_returns B _ _ _ Hrun Hg) as (r & s' & E & -> & ->).
  do 2 eexists. split; [exact E|].
  split; [apply (holds_live s); [exact Ho | simpl; set_solver]|].
  split.
  { apply (holds_fresh (after_deallocate (start this) s)).
    unfold initial_capacity. lia. }
  split; [reflexivity|]. simpl.
  split; [congruence|]. split; [set_solver|]. split; [exact Hnot|].
  reflexivity.
Qed.

(** [clear()] releases the block and leaves an empty vector of capacity
    [10] in a fresh one, whatever the vector held; no other block is
    touched.  [erase()] with its default arguments is [clear()]. *)
Theorem clear_resets (B : Z) v s l :
  holds s v l -> consistent s ->
  generous can_allocate B -> initial_capacity <= B ->
  (exists v' s',
     clear can_allocate v s = Returns (v', s') /\
     holds s' v' [] /\ size v' = 0 /\ empty v' = true /\
     capacity v' = initial_capacity /\
     (start v ∉ live s') /\
     live s' ∖ {[start v']} = live s ∖ {[start v]}) /\
  erase can_allocate 0 0 v s = clear can_allocate v s.
Proof.
  intros Hh Hs Hg HB.
  pose proof Hh as (Hst & Hlen & Hsz & Hcp & Hsl & Htk).
  pose proof (consistent_fresh s _ Hs Hst) as Hfresh.
  assert (Hnot : next s ∉ live s) by (intros Hin; apply Hs in Hin; lia).
  split.
  - assert (Hrun : Spec B (clear can_allocate v) s
      (fun v' s' => v' = {| start := next s;
                            cells := replicate (Z.to_nat initial_capacity) None;
                            finish := 0;
                            end_of_storage := initial_capacity |} /\
                    s' = after_allocate (after_deallocate (start v) s))).
    { apply spec_clear; [exact Hst | exact HB|]. split; reflexivity. }
    destruct (spec_returns B _ _ _ Hrun Hg) as (v' & s' & E & -> & ->).
    do 2 eexists. split; [exact E|]. split.
    { apply (holds_fresh (after_deallocate (start v) s)).
      unfold initial_capacity. lia. }
    split; [reflexivity|]. split; [reflexivity|]. split; [reflexivity|].
    simpl. split; set_solver.
  - unfold erase.
    destruct (Z.ltb_spec (size v) 0) as [|_]; [lia|].
    cbn [Z.eqb]. unfold mbind at 1, lift.
    rewrite erase_loop_done by lia. cbn [bind fst snd].
    unfold sanitize, size, capacity. cbn [finish end_of_storage].
    unfold capacity in Hcp.
    destruct (Z.ltb_spec (size_type (0 * capacity_sanitize_factor))
                (end_of_storage v)) as [_|Hno];
      [|change (size_type (0 * capacity_sanitize_factor)) with 0 in Hno; lia].
    reflexivity.
Qed.

(** ** [shrink_to_fit] and [assign] *)


(** [assign(vec)] from another vector replaces the contents by the
    elements of [vec] and leaves [vec] as it was; the block is kept when
    its capacity is at least the size of [vec], and otherwise replaced by
    one of twice that size; assigning a vector to itself changes nothing. *)
Theorem assign_replaces (B : Z) (this vec : vector (T:=T)) s l l' :
  holds s this l -> holds s vec l' -> start this <> start vec ->
  consistent s -> generous can_allocate B -> 2 * size vec <= B ->
  assign can_allocate None this s = Returns (this, s) /\
  exists this' s',
    assign can_allocate (Some vec) this s = Returns (this', s') /\
    holds s' this' l' /\ holds s' vec l' /\ consistent s' /\
    (size vec <= capacity this ->
     s' = s /\ start this' = start this /\ capacity this' = capacity this) /\
    (capacity this < size vec ->
     capacity this' = 2 * size vec /\ (start this ∉ live s') /\
     live s' ∖ {[start this']} = live s ∖ {[start this]}).
Proof.
  intros Hh Hv Hne Hs Hg HB.
  pose proof (generous_bound B Hg) as HB'.
  pose proof Hh as (Hst & Hlen & Hsz & Hcp & Hsl & Htk).
  pose proof Hv as (Hstv & Hlenv & Hszv & Hcpv & Hslv & Htkv).
  pose proof (consistent_fresh s _ Hs Hst) as Hfresh.
  pose proof (consistent_fresh s _ Hs Hstv) as Hfreshv.
  assert (Hnot : next s ∉ live s) by (intros Hin; apply Hs in Hin; lia).
  split; [reflexivity|].
  unfold assign, capacity_factor.
  destruct (Z.ltb_spec (capacity this) (size vec)) as [Hsmall|Hroom].
  - rewrite size_type_small by lia.
    unfold mbind at 1.
    rewrite (reserve_eval (size vec * 2) this s l Hh) by lia.
    rewrite (Hg (size vec * 2)) by lia.
    set (s' := after_deallocate (start this) (after_allocate s)).
    pose proof (holds_reserved (size vec * 2) s this l Hh Hs ltac:(lia))
      as (Hst1 & Hlen1 & _ & Hcp1 & _).
    fold s' in Hst1.
    assert (Hv' : holds s' vec l')
      by (apply (holds_live s); [exact Hv | unfold s'; simpl; set_solver]).
    destruct (holds_assign s' (reserved (size vec * 2) s this l) vec l l'
                Hst1 Hlen1 Hcp1 Hv')
      as (c & Hc & Hhc); [unfold reserved, capacity; simpl; lia|].
    unfold mbind, lift. rewrite Hc. cbn [bind]. unfold ret.
    do 2 eexists. split; [reflexivity|].
    split; [exact Hhc|]. split; [exact Hv'|].
    split; [apply consistent_deallocate, consistent_allocate, Hs|].
    split; [lia|]. intros _.
    split; [unfold capacity; simpl; lia|].
    unfold s'; simpl. split; set_solver.
  - unfold mbind at 1. unfold ret at 1.
    destruct (holds_assign s this vec l l' Hst Hlen Hcp Hv Hroom)
      as (c & Hc & Hhc).
    unfold mbind, lift. rewrite Hc. cbn [bind]. unfold ret.
    do 2 eexists. split; [reflexivity|].
    split; [exact Hhc|]. split; [exact Hv|]. split; [exact Hs|].
    split; [intros _; repeat split | lia].
Qed.

(** ** Element access and the ends *)

Lemma holds_get s v l (i : nat) (x : T) :
  holds s v l -> l !! i = Some x -> get (Z.of_nat i) v = Returns x.
Proof.
  intros Hh Hx. pose proof (holds_cells s v l Hh) as Hc.
  destruct Hh as (_ & _ & _ & _ & Hsl & _).
  pose proof (lookup_lt_Some _ _ _ Hx) as Hi.
  unfold get, index.
  destruct (Z.leb_spec (size v) (Z.of_nat i)); [lia|].
  cbn [bind]. unfold load.
  destruct (Z.ltb_spec (Z.of_nat i) 0); [lia|].
  rewrite Nat2Z.id, Hc, lookup_app_l by (rewrite length_fmap; lia).
  now rewrite list_lookup_fmap, Hx.
Qed.

(** Writing through [operator[]]: [v[pos] = x] throws [out_of_range] for
    [pos >= size] and changes nothing; for [pos < size] it replaces the
    element at [pos] and no other, keeps size, capacity and block, and
    [v[pos]] then reads [x]. *)
Theorem put_then_get (pos : Z) (x : T) v s l :
  holds s v l -> 0 <= pos ->
  (size v <= pos -> put pos x v = Throws out_of_range) /\
  (pos < size v ->
   exists v',
     put pos x v = Returns v' /\
     holds s v' (<[Z.to_nat pos := x]> l) /\
     start v' = start v /\ capacity v' = capacity v /\ size v' = size v /\
     get pos v' = Returns x /\
     forall j y, j <> Z.to_nat pos -> l !! j = Some y ->
                 get (Z.of_nat j) v' = Returns y).
Proof.
  intros Hh Hpos. pose proof (holds_cells s v l Hh) as Hc.
  pose proof Hh as (Hst & Hlen & Hsz & Hcp & Hsl & Htk).
  unfold put, index. split.
  - intros Hout. destruct (Z.leb_spec (size v) pos); [reflexivity | lia].
  - intros Hin. destruct (Z.leb_spec (size v) pos); [lia|].
    cbn [bind]. unfold store. unfold capacity in *.
    destruct (Z.leb_spec 0 pos); [|lia].
    destruct (Z.ltb_spec pos (Z.of_nat (length (cells v)))); [|lia].
    cbn [andb bind]. eexists. split; [reflexivity|].
    assert (Hh' : holds s
              {| start := start v;
                 cells := <[Z.to_nat pos := Some x]> (cells v);
                 finish := finish v; end_of_storage := end_of_storage v |}
              (<[Z.to_nat pos := x]> l)).
    { apply (holds_build s v _ _ (drop (length l) (cells v))); auto.
      - rewrite Hc at 1.
        rewrite insert_app_l by (rewrite length_fmap; lia).
        now rewrite list_fmap_insert.
      - now rewrite length_insert.
      - rewrite length_insert. exact Hsl. }
    split; [exact Hh'|]. repeat (split; [reflexivity|]).
    split.
    + rewrite <- (Z2Nat.id pos) at 1 by lia.
      apply (holds_get s _ _ _ _ Hh').
      apply list_lookup_insert_eq. lia.
    + intros j y Hj Hy. apply (holds_get s _ _ _ _ Hh').
      rewrite list_lookup_insert_ne by congruence. exact Hy.
Qed.

(** [push_back] when there is room writes a copy of its argument, an
    object outside the block or an element of the vector itself, behind the
    last element and touches neither the block nor the allocator.  When the
    vector is full, [push_back] of an object outside the block moves the
    elements to a fresh block of capacity [2 * (size + 1)], appends the
    object there and releases the old block; [push_back(v[k])] of an element
    of the vector itself reads the reference after [reserve] has released
    the block it leads into, which is undefined behaviour. *)
Theorem push_back_growth (B : Z) (x : T) v s l :
  holds s v l -> consistent s ->
  generous can_allocate B -> 2 * (size v + 1) <= B ->
  (size v < capacity v ->
   forall r y, referent r l = Some y ->
   exists v',
     push_back can_allocate r v s = Returns (v', s) /\
     start v' = start v /\ capacity v' = capacity v /\
     size v' = size v + 1 /\ holds s v' (l ++ [y])) /\
  (size v = capacity v ->
   (exists v' s',
      push_back can_allocate (Outside x) v s = Returns (v', s') /\
      capacity v' = 2 * (size v + 1) /\ size v' = size v + 1 /\
      holds s' v' (l ++ [x]) /\
      (start v ∉ live s') /\ (start v' ∉ live s) /\
      live s' ∖ {[start v']} = live s ∖ {[start v]}) /\
   forall k, push_back can_allocate (Element k) v s = Undefined).
Proof.
  intros Hh Hs Hg HB.
  pose proof (generous_bound B Hg) as HB'.
  pose proof Hh as (Hst & Hlen & Hsz & Hcp & Hsl & Htk).
  pose proof (consistent_fresh s _ Hs Hst) as Hfresh.
  assert (Hnot : next s ∉ live s) by (intros Hin; apply Hs in Hin; lia).
  unfold push_back, capacity_factor. cbv zeta.
  rewrite !size_type_small by lia.
  split.
  - intros Hroom r y Hr.
    destruct (Z.ltb_spec (capacity v) (size v + 1)); [lia|].
    destruct (holds_store s v l y Hh Hroom) as (c & Hc & Hh').
    unfold mbind at 1 2. unfold ret at 1.
    rewrite (deref_eval r y v s l Hh Hr).
    unfold mbind, ret, lift. rewrite Hc. cbn [bind].
    eexists. split; [reflexivity|].
    split; [reflexivity|]. split; [reflexivity|].
    split; [reflexivity | exact Hh'].
  - intros Hfull.
    destruct (Z.ltb_spec (capacity v) (size v + 1)); [|lia].
    pose proof (holds_reserved ((size v + 1) * 2) s v l Hh Hs ltac:(lia))
      as Hr.
    rewrite take_ge in Hr by lia.
    split.
    + unfold mbind at 1.
      rewrite (reserve_eval ((size v + 1) * 2) v s l Hh) by lia.
      rewrite (Hg ((size v + 1) * 2)) by lia.
      destruct (holds_store _ _ l x Hr) as (c & Hc & Hh');
        [unfold reserved, size, capacity; simpl; unfold size in *; lia|].
      cbn [deref]. unfold mbind, ret, lift. rewrite Hc. cbn [bind].
      do 2 eexists. split; [reflexivity|].
      split; [unfold capacity; simpl; lia|].
      split; [unfold size, reserved; cbn [finish]; unfold size in *; lia|].
      split; [exact Hh'|]. simpl. repeat split; set_solver.
    + intros k. unfold mbind at 1.
      rewrite (reserve_eval ((size v + 1) * 2) v s l Hh) by lia.
      rewrite (Hg ((size v + 1) * 2)) by lia.
      cbn [deref]. unfold mbind, intact, lift.
      rewrite bool_decide_eq_false_2; [reflexivity|].
      intros [Hin _]. simpl in Hin. set_solver.
Qed.

(** ** Shrinking: [pop_back] and [erase] *)

Lemma spec_sanitize_bound B v s l :
  holds s v l -> consistent s ->
  initial_capacity <= B -> 2 * size v <= B ->
  Spec B (sanitize can_allocate v) s
    (fun v' s' => holds s' v' l /\ consistent s' /\ sanitized v' /\
                  only_own_block s v s' v').
Proof.
  intros Hh Hs HB HB2. unfold sanitize.
  pose proof Hh as (Hst & Hlen & Hsz & Hcp & Hsl & Htk).
  pose proof (consistent_fresh s _ Hs Hst) as Hfresh.
  assert (Hnot : next s ∉ live s) by (intros Hin; apply Hs in Hin; lia).
  unfold sanitized, only_own_block, capacity_sanitize_factor, capacity_factor.
  rewrite !size_type_small by lia.
  destruct (Z.ltb_spec (size v * (2 * 2)) (capacity v)) as [Hbig|Hok].
  2:{ apply spec_ret. split; [exact Hh|]. split; [exact Hs|].
      split; [left; lia|]. split; [exact Hst | reflexivity]. }
  destruct (Z.eq_dec (size v) 0) as [E0|Hn0].
  - rewrite E0. unfold reserve. simpl.
    apply spec_clear; [exact Hst | exact HB|].
    rewrite (holds_nil s v l Hh E0). split; [|split; [|split]].
    + apply (holds_fresh (after_deallocate (start v) s)).
      unfold initial_capacity. lia.
    + apply consistent_allocate, consistent_deallocate, Hs.
    + right. split; reflexivity.
    + simpl. split; set_solver.
  - apply (spec_reserve B _ v s l); [exact Hh | lia | lia|].
    intros Hlt. split; [|split; [|split]].
    + rewrite <- (take_ge l (Z.to_nat (size v * 2))) at 2 by lia.
      apply holds_reserved; auto. lia.
    + apply consistent_deallocate, consistent_allocate, Hs.
    + left. unfold reserved, capacity, size; simpl. unfold size in *. lia.
    + simpl. split; set_solver.
Qed.

(** [erase] with [pos <= size] and no wrap-around reaches [sanitize] with
    the prescribed contents in the block of the vector. *)
Lemma spec_erase_via B (pos len : Z) v s l
  (Q : vector (T:=T) -> allocator -> Prop) :
  holds s v l -> 0 <= pos <= size v -> 0 <= len -> pos + len < 2 ^ 64 ->
  (forall v1, holds s v1 (contents_erase pos len l) ->
              start v1 = start v -> capacity v1 = capacity v ->
              Spec B (sanitize can_allocate v1) s Q) ->
  Spec B (erase can_allocate pos len v) s Q.
Proof.
  intros Hh [Hpos Hin] Hlen H64 HQ. unfold erase.
  pose proof Hh as (Hst & Hlen' & Hsz & Hcp & Hsl & Htk).
  destruct (Z.ltb_spec (size v) pos) as [|_]; [lia|].
  assert (E : contents_erase pos len l
              = if len =? 0 then take (Z.to_nat pos) l
                else take (Z.to_nat pos) l
                     ++ drop (Z.to_nat (Z.min (pos + len) (size v))) l).
  { unfold contents_erase. rewrite <- Hsl.
    destruct (Z.ltb_spec (size v) pos); [lia | reflexivity]. }
  rewrite E in HQ. clear E.
  assert (Hshrink : forall c,
    length c = length (cells v) ->
    take (Z.to_nat pos) c = Some <$> take (Z.to_nat pos) l ->
    holds s {| start := start v; cells := c; finish := pos;
               end_of_storage := end_of_storage v |} (take (Z.to_nat pos) l)).
  { intros c Hc Hc'. rewrite <- (Z2Nat.id pos) at 1 by lia.
    apply holds_shrink; auto. lia. }
  revert HQ. destruct (Z.eqb_spec len 0) as [->|Hn0]; intros HQ.
  - apply spec_bind. eapply spec_lift.
    + apply erase_loop_done; lia.
    + apply HQ; [|reflexivity|reflexivity].
      apply Hshrink; [reflexivity|]. apply (take_cells s); auto. lia.
  - destruct (Z.le_gt_cases (size v) (pos + len)) as [Hover|Hless].
    + apply spec_bind. eapply spec_lift.
      * apply erase_loop_done; lia.
      * rewrite Z.min_r, drop_ge, app_nil_r in HQ by lia.
        apply HQ; [|reflexivity|reflexivity].
        apply Hshrink; [reflexivity|]. apply (take_cells s); auto. lia.
    + rewrite Z.min_l in HQ by lia.
      set (t := drop (Z.to_nat (pos + len)) l) in *.
      assert (Hlt : length t = (length l - Z.to_nat (pos + len))%nat)
        by (unfold t; apply length_drop).
      destruct (erase_loop_spec (Z.to_nat len) t (S (Z.to_nat (size v)))
                  (Z.to_nat pos) (cells v)) as (c' & Hrun & Hl & Htk');
        try lia.
      { rewrite (holds_cells s v l Hh), drop_app_le
          by (rewrite length_fmap; lia).
        rewrite <- fmap_drop.
        replace (Z.to_nat pos + Z.to_nat len)%nat
          with (Z.to_nat (pos + len)) by lia.
        fold t. apply take_app_length'. now rewrite length_fmap. }
      rewrite !Z2Nat.id in Hrun by lia.
      replace (Z.of_nat (Z.to_nat pos + Z.to_nat len + length t))
        with (size v) in Hrun by lia.
      apply spec_bind. eapply spec_lift; [exact Hrun|]. simpl.
      apply HQ; [|reflexivity|reflexivity].
      rewrite (take_cells s v l _ Hh) in Htk' by lia.
      unfold holds, size, capacity in *; simpl.
      rewrite length_app, length_take, Hl.
      replace (Z.to_nat pos `min` length l)%nat with (Z.to_nat pos) by lia.
      repeat split; try lia; try assumption.
      rewrite fmap_app, <- Htk'. reflexivity.
Qed.

Lemma length_contents_erase (pos len : Z) (l : list T) :
  0 <= pos -> 0 <= len ->
  (length (contents_erase pos len l) <= length l)%nat.
Proof.
  intros Hpos Hlen. unfold contents_erase.
  destruct (Z.ltb_spec (Z.of_nat (length l)) pos); [lia|].
  destruct (Z.eqb_spec len 0).
  - rewrite length_take. lia.
  - rewrite length_app, length_take, length_drop. lia.
Qed.

(** The vector gives storage back when it shrinks.  [pop_back()] on an
    empty vector does nothing; on any other it drops the last element, and
    is [erase(size() - 1, 1)]; and [erase(pos, len)] with [pos <= size] and
    no wrap-around of [pos + len] leaves the prescribed contents.
    Afterwards the capacity is at most four times the size, or the vector is
    empty with capacity [10]; and only the block of the vector itself may
    have been replaced. *)
Theorem shrinking_bounds_capacity (B pos len : Z) v s l :
  holds s v l -> consistent s ->
  generous can_allocate B -> initial_capacity <= B -> 2 * size v <= B ->
  0 <= pos <= size v -> 0 <= len -> pos + len < 2 ^ 64 ->
  (size v = 0 -> pop_back can_allocate v s = Returns (v, s)) /\
  (0 < size v ->
   exists v' s',
     pop_back can_allocate v s = Returns (v', s') /\
     size v' = size v - 1 /\
     holds s' v' (contents_pop_back l) /\ sanitized v' /\
     only_own_block s v s' v' /\
     erase can_allocate (size v - 1) 1 v s = pop_back can_allocate v s) /\
  (exists v' s',
     erase can_allocate pos len v s = Returns (v', s') /\
     holds s' v' (contents_erase pos len l) /\ sanitized v' /\
     only_own_block s v s' v').
Proof.
  intros Hh Hs Hg HB HB2 Hpos Hlen H64.
  pose proof Hh as (Hst & Hlen' & Hsz & Hcp & Hsl & Htk).
  split; [|split].
  - intros H0. unfold pop_back.
    destruct (Z.ltb_spec 0 (size v)); [lia | reflexivity].
  - intros Hne.
    assert (Hrun : Spec B (pop_back can_allocate v) s
      (fun v' s' => holds s' v' (contents_pop_back l) /\ consistent s' /\
                    sanitized v' /\ only_own_block s v s' v')).
    { unfold pop_back, contents_pop_back.
      destruct (Z.ltb_spec 0 (size v)) as [_|]; [|lia].
      replace (finish v - 1) with (Z.of_nat (length l - 1))
        by (unfold size in *; lia).
      eapply spec_mono;
        [|apply (spec_sanitize_bound B _ s (take (length l - 1) l)); auto].
      - intros v' s' H. exact H.
      - apply holds_shrink; auto; [lia|].
        apply (take_cells s); auto. lia.
      - unfold size; simpl. unfold size in *. lia. }
    destruct (spec_returns B _ _ _ Hrun Hg)
      as (v' & s' & E & Hh' & _ & Hb & Hf).
    exists v', s'. split; [exact E|].
    pose proof Hh' as (_ & _ & _ & _ & Hsl' & _).
    unfold contents_pop_back in Hsl'. rewrite length_take in Hsl'.
    split; [lia|]. split; [exact Hh'|]. split; [exact Hb|].
    split; [exact Hf|].
    unfold erase, pop_back.
    destruct (Z.ltb_spec (size v) (size v - 1)) as [|_]; [lia|].
    destruct (Z.ltb_spec 0 (size v)) as [_|]; [|lia].
    cbn [Z.eqb]. unfold mbind, lift.
    rewrite erase_loop_done by lia. reflexivity.
  - assert (Hrun : Spec B (erase can_allocate pos len v) s
      (fun v' s' => holds s' v' (contents_erase pos len l) /\ consistent s' /\
                    sanitized v' /\ only_own_block s v s' v')).
    { apply (spec_erase_via B pos len v s l); auto.
      intros v1 Hh1 Hst1 Hcap1.
      pose proof Hh1 as (_ & _ & _ & _ & Hsl1 & _).
      pose proof (length_contents_erase pos len l ltac:(lia) Hlen).
      unfold only_own_block. rewrite <- Hst1.
      apply spec_sanitize_bound; auto. lia. }
    destruct (spec_returns B _ _ _ Hrun Hg)
      as (v' & s' & E & Hh' & _ & Hb & Hf).
    exists v', s'. auto.
Qed.

(** [insert] and [erase] undo each other: after [insert(pos, p, count)]
    from a buffer [p] outside the block of the vector, at a position
    [pos <= size] and with [count > 0], [erase(pos, count)] gives the
    contents back as they were. *)
Theorem insert_then_erase (B pos : Z) (q : list T) (post : list (option T))
  v s l :
  holds s v l -> consistent s ->
  0 <= pos <= size v -> q <> [] ->
  generous can_allocate B -> initial_capacity <= B ->
  2 * (size v + Z.of_nat (length q)) <= B ->
  exists v' s' v'' s'',
    insert can_allocate pos (Buffer ((Some <$> q) ++ post))
      (Z.of_nat (length q)) v s
    = Returns (v', s') /\
    size v' = size v + Z.of_nat (length q) /\
    erase can_allocate pos (Z.of_nat (length q)) v' s' = Returns (v'', s'') /\
    holds s'' v'' l.
Proof.
  intros Hh Hs Hpos Hq Hg HB HB2.
  pose proof (generous_bound B Hg) as HB'.
  pose proof Hh as (Hst & Hlen' & Hsz & Hcp & Hsl & Htk).
  assert (Hq0 : (0 < length q)%nat)
    by (destruct q; [contradiction | simpl; lia]).
  destruct (spec_returns B _ s _
              (spec_insert B pos q post v s l Hh Hs ltac:(lia) ltac:(lia)
                 HB HB2) Hg)
    as (v' & s' & Hrun & Hh' & Hs' & _).
  pose proof Hh' as (_ & _ & _ & _ & Hsl' & _).
  rewrite length_contents_insert in Hsl' by lia.
  destruct (spec_returns B _ s' _
              (spec_erase B pos (Z.of_nat (length q)) v' s' _ Hh' Hs'
                 ltac:(lia) ltac:(lia) ltac:(lia) HB ltac:(lia)) Hg)
    as (v'' & s'' & Hrun' & Hh'' & _).
  exists v', s', v'', s''. split; [exact Hrun|]. split; [lia|].
  split; [exact Hrun'|].
  assert (E : contents_erase pos (Z.of_nat (length q))
                (contents_insert pos q l) = l); [|now rewrite E in Hh''].
  unfold contents_erase.
  rewrite length_contents_insert by lia.
  destruct (Z.ltb_spec (Z.of_nat (length l + length q)) pos); [lia|].
  destruct (Z.eqb_spec (Z.of_nat (length q)) 0); [lia|].
  unfold contents_insert.
  destruct (Z.leb_spec (Z.of_nat (length l)) pos).
  - assert (Z.to_nat pos = length l) by lia.
    rewrite Z.min_r by lia.
    rewrite take_app_length' by lia.
    rewrite drop_ge by (rewrite length_app; lia).
    apply app_nil_r.
  - rewrite Z.min_l by lia.
    assert (Hp : length (take (Z.to_nat pos) l) = Z.to_nat pos)
      by (rewrite length_take; lia).
    rewrite take_app_length' by lia.
    rewrite drop_app_ge by lia. rewrite Hp.
    replace (Z.to_nat (pos + Z.of_nat (length q)) - Z.to_nat pos)%nat
      with (length q) by lia.
    rewrite drop_app_length. apply take_drop.
Qed.

(** ** Ownership of blocks *)

Lemma ensures_ret {A} (a : A) s (Q : A -> allocator -> Prop) :
  Q a s -> ensures (ret a) s Q.
Proof. intros H a' s' E. injection E as <- <-. exact H. Qed.

Lemma ensures_bind {A C} (m : M A) (k : A -> M C) s
  (Q : C -> allocator -> Prop) :
  ensures m s (fun a s1 => ensures (k a) s1 Q) -> ensures (mbind m k) s Q.
Proof.
  unfold ensures, mbind. intros H c s' E.
  destruct (m s) as [[a s1]| | | |] eqn:Hm; try discriminate.
  eapply H; eauto.
Qed.

Lemma ensures_lift {A} (o : outcome A) s (Q : A -> allocator -> Prop) :
  (forall a, Q a s) -> ensures (lift o) s Q.
Proof.
  unfold ensures, lift. intros H a s' E.
  destruct o; try discriminate. injection E as <- <-. apply H.
Qed.

Lemma ensures_mono {A} (m : M A) s (Q Q' : A -> allocator -> Prop) :
  (forall a s', Q a s' -> Q' a s') -> ensures m s Q -> ensures m s Q'.
Proof. unfold ensures. eauto. Qed.

Lemma ensures_noexcept {A} (m : M A) s (Q : A -> allocator -> Prop) :
  ensures m s Q -> ensures (mnoexcept m) s Q.
Proof.
  unfold ensures, mnoexcept, noexcept. intros H a s' E.
  destruct (m s) as [[a1 s1]| | | |]; try discriminate. now apply H.
Qed.

Lemma ensures_create_storage c s (Q : vector (T:=T) -> allocator -> Prop) :
  (forall v, start v = next s -> Q v (after_allocate s)) ->
  ensures (create_storage can_allocate c) s Q.
Proof.
  unfold ensures, create_storage, mbind, allocate, throw, ret.
  intros H v s' E.
  destruct (c =? 0); [discriminate|].
  destruct (can_allocate c); [|discriminate].
  injection E as <- <-. now apply H.
Qed.

Lemma ensures_deallocate v s (Q : unit -> allocator -> Prop) :
  (start v ∈ live s -> Q tt (after_deallocate (start v) s)) ->
  ensures (deallocate v) s Q.
Proof.
  unfold ensures, deallocate. intros H [] s' E.
  destruct (decide (start v ∈ live s)); [|discriminate].
  injection E as <-. now apply H.
Qed.

Lemma spec_ensures {A} B (m : M A) s (Q Q' : A -> allocator -> Prop) :
  Spec B m s Q -> ensures m s Q' ->
  Spec B m s (fun a s' => Q a s' /\ Q' a s').
Proof.
  unfold spec, ensures. intros H H'.
  destruct (m s) as [[a s']| | | |]; auto.
Qed.

Lemma not_live_next s : consistent s -> next s ∉ live s.
Proof. intros Hs Hin. apply Hs in Hin. lia. Qed.

Lemma ensures_reserve n v s :
  consistent s -> start v ∈ live s ->
  ensures (reserve can_allocate n v) s
    (fun v' s' => consistent s' /\ only_own_block s v s' v').
Proof.
  intros Hs Hst. pose proof (not_live_next s Hs) as Hnot.
  unfold reserve, only_own_block.
  destruct (n =? 0).
  - unfold clear. apply ensures_bind, ensures_deallocate. intros _.
    apply ensures_create_storage. intros v' ->. split.
    + apply consistent_allocate, consistent_deallocate, Hs.
    + simpl. split; set_solver.
  - destruct (n =? capacity v); [apply ensures_ret; auto|].
    unfold ensures, mbind, allocate. intros v' s' E.
    destruct (n =? 0); [discriminate|].
    destruct (can_allocate n); [|discriminate].
    revert v' s' E. fold (after_allocate s).
    change (ensures
              (run c <- lift (assign_content
                                (if n <? size v then n else size v) (cells v)
                                (replicate (Z.to_nat n) None)) ;
               run _ <- deallocate v ;
               ret {| start := next s; cells := c;
                      finish := if n <? size v then n else size v;
                      end_of_storage := n |})
              (after_allocate s)
              (fun v' s' => consistent s' /\ start v' ∈ live s' /\
                            live s' ∖ {[start v']} = live s ∖ {[start v]})).
    apply ensures_bind, ensures_lift. intros c.
    apply ensures_bind, ensures_deallocate. intros _.
    apply ensures_ret. split.
    + apply consistent_deallocate, consistent_allocate, Hs.
    + pose proof (consistent_fresh s _ Hs Hst). simpl. split; set_solver.
Qed.

Lemma ensures_sanitize v s :
  consistent s -> start v ∈ live s ->
  ensures (sanitize can_allocate v) s
    (fun v' s' => consistent s' /\ only_own_block s v s' v').
Proof.
  intros Hs Hst. unfold sanitize.
  destruct (_ <? _); [now apply ensures_reserve|].
  apply ensures_ret. unfold only_own_block. auto.
Qed.

Lemma ensures_intact (b : nat) v s (Q : bool -> allocator -> Prop) :
  (forall ok, Q ok s) -> ensures (intact b v) s Q.
Proof. intros H ok s' E. injection E as <- <-. apply H. Qed.

Lemma ensures_deref (r : const_reference (T:=T)) (b : nat) v s
  (Q : T -> allocator -> Prop) :
  (forall x, Q x s) -> ensures (deref r b v) s Q.
Proof.
  intros H. destruct r as [x|k]; cbn [deref].
  - now apply ensures_ret.
  - apply ensures_bind, ensures_intact. intros ok. now apply ensures_lift.
Qed.

Lemma ensures_push_back (r : const_reference (T:=T)) v s :
  consistent s -> start v ∈ live s ->
  ensures (push_back can_allocate r v) s
    (fun v' s' => consistent s' /\ only_own_block s v s' v').
Proof.
  intros Hs Hst. unfold push_back. cbv zeta. apply ensures_bind.
  apply (ensures_mono _ _
           (fun v1 s1 => consistent s1 /\ only_own_block s v s1 v1)).
  - intros v1 s1 H. apply ensures_bind, ensures_deref. intros x.
    apply ensures_bind, ensures_lift. intros c.
    apply ensures_ret. exact H.
  - destruct (_ <? _); [now apply ensures_reserve|].
    apply ensures_ret. unfold only_own_block. auto.
Qed.

Lemma ensures_pop_back v s :
  consistent s -> start v ∈ live s ->
  ensures (pop_back can_allocate v) s
    (fun v' s' => consistent s' /\ only_own_block s v s' v').
Proof.
  intros Hs Hst. unfold pop_back.
  destruct (_ <? _).
  - apply (ensures_sanitize
             {| start := start v; cells := cells v; finish := finish v - 1;
                end_of_storage := end_of_storage v |} s Hs Hst).
  - apply ensures_ret. unfold only_own_block. auto.
Qed.

Lemma ensures_erase (pos len : Z) v s :
  consistent s -> start v ∈ live s ->
  ensures (erase can_allocate pos len v) s
    (fun v' s' => consistent s' /\ only_own_block s v s' v').
Proof.
  intros Hs Hst. unfold erase.
  destruct (_ <? _).
  - apply ensures_ret. unfold only_own_block. auto.
  - apply ensures_bind, ensures_lift. intros r.
    apply (ensures_sanitize
             {| start := start v; cells := fst r; finish := snd r;
                end_of_storage := end_of_storage v |} s Hs Hst).
Qed.

(** [insert] releases the temporaries it makes. *)
Lemma ensures_insert (pos : Z) (p : const_pointer (T:=T)) (p_size : Z) v s :
  consistent s -> start v ∈ live s ->
  ensures (insert can_allocate pos p p_size v) s
    (fun v' s' => consistent s' /\ only_own_block s v s' v').
Proof.
  intros Hs Hst. pose proof (not_live_next s Hs) as Hnot.
  pose proof (consistent_fresh s _ Hs Hst) as Hfresh.
  assert (Hnot1 : S (next s) ∉ live s)
    by (intros Hin; apply Hs in Hin; lia).
  assert (Hnot2 : S (S (next s)) ∉ live s)
    by (intros Hin; apply Hs in Hin; lia).
  unfold insert. cbv zeta. apply ensures_bind.
  unfold vector_default. apply ensures_noexcept, ensures_create_storage.
  intros temp Htemp. apply ensures_bind.
  apply (ensures_mono _ _
           (fun pt s2 => consistent s2 /\ (start (snd pt) ∉ live s) /\
                         live s2 = {[start (snd pt)]} ∪ live s)).
  - intros [pos' temp'] s2 (Hs2 & Hnew & Hlive). cbn [fst snd] in *.
    assert (Hst2 : start v ∈ live s2) by (rewrite Hlive; set_solver).
    apply ensures_bind.
    apply (ensures_mono _ _
             (fun v1 s3 => consistent s3 /\ only_own_block s2 v s3 v1)).
    + intros v1 s3 (Hs3 & Hst3 & Hlive3).
      apply ensures_bind, ensures_intact. intros ok.
      apply ensures_bind, ensures_lift. intros ci.
      apply ensures_bind.
      apply (ensures_mono _ _ (fun _ s4 => s4 = s3)).
      * intros c s4 ->. apply ensures_bind. unfold destroy.
        apply ensures_deallocate. intros Htl. apply ensures_ret.
        split; [now apply consistent_deallocate|].
        unfold only_own_block. simpl.
        assert (Hne : start temp' <> start v)
          by (intros E; apply Hnew; rewrite E; exact Hst).
        pose proof (proj1 (set_eq _ _) Hlive3) as Hb.
        rewrite Hlive in Hb.
        setoid_rewrite elem_of_difference in Hb.
        setoid_rewrite elem_of_union in Hb.
        setoid_rewrite elem_of_singleton in Hb.
        assert (Hne1 : start temp' <> start v1)
          by (apply (Hb (start temp')); auto).
        split; [apply elem_of_difference; split;
                [exact Hst3 | rewrite elem_of_singleton; congruence]|].
        apply set_eq. intros b. specialize (Hb b).
        rewrite !elem_of_difference, !elem_of_singleton.
        destruct (decide (b = start temp')) as [->|]; [tauto|].
        tauto.
      * destruct (_ =? _); [now apply ensures_ret|].
        apply ensures_lift. reflexivity.
    + destruct (_ <? _); [now apply ensures_reserve|].
      apply ensures_ret. unfold only_own_block. auto.
  - destruct (_ <=? _).
    + apply ensures_ret. simpl. rewrite Htemp.
      split; [now apply consistent_allocate|]. split; [exact Hnot|].
      reflexivity.
    + apply ensures_bind. unfold vector_ptr.
      destruct (_ =? _); [intros ? ? E; discriminate|].
      apply ensures_bind, ensures_create_storage. intros t0 Ht0.
      apply ensures_bind, ensures_lift. intros c. apply ensures_ret.
      apply ensures_bind. unfold move_assign.
      apply ensures_noexcept, ensures_bind, ensures_deallocate.
      intros _. unfold move_content.
      apply ensures_bind, ensures_create_storage. intros fresh Hfr.
      apply ensures_ret, ensures_bind. unfold destroy.
      apply ensures_deallocate. intros _. apply ensures_ret.
      cbn [fst snd start] in *. rewrite Htemp, Hfr, Ht0. simpl.
      split.
      * apply consistent_deallocate, consistent_allocate,
          consistent_deallocate, consistent_allocate, consistent_allocate, Hs.
      * split; [exact Hnot1|].
        assert (next s <> S (next s)) by lia.
        assert (S (next s) <> S (S (next s))) by lia.
        assert (next s <> S (S (next s))) by lia.
        set_solver.
Qed.

Lemma ensures_perform_all (ops : list operation) : forall v s,
  consistent s -> start v ∈ live s ->
  ensures (perform_all can_allocate ops v) s
    (fun v' s' => consistent s' /\ only_own_block s v s' v').
Proof.
  induction ops as [|op ops IH]; intros v s Hs Hst.
  - apply ensures_ret. unfold only_own_block. auto.
  - cbn [perform_all]. apply ensures_bind.
    apply (ensures_mono _ _
             (fun v1 s1 => consistent s1 /\ only_own_block s v s1 v1)).
    + intros v1 s1 (Hs1 & Hst1 & Hlive1).
      eapply ensures_mono; [|apply IH; assumption].
      intros v' s' (Hs' & Hst' & Hlive'). split; [exact Hs'|].
      split; [exact Hst'|]. now rewrite Hlive'.
    + destruct op; cbn [perform].
      * now apply ensures_push_back.
      * now apply ensures_pop_back.
      * now apply ensures_insert.
      * now apply ensures_erase.
Qed.

(** The operations never lose a block and never touch a block of someone
    else: a sequence of [push_back], [pop_back], [insert] and [erase]
    without wrap-around, in which every pushed object and every inserted
    buffer lies outside the block of the vector, returns (or fails on
    [bad_alloc]) with the block of the vector live and, apart from that
    block, exactly the blocks live that were live before; the temporaries
    of [insert] are released. *)
Theorem operations_never_leak (ops : list operation) v s l :
  holds s v l -> consistent s -> Forall plain ops ->
  match perform_all can_allocate ops v s with
  | Returns (v', s') =>
      start v' ∈ live s' /\
      live s' ∖ {[start v']} = live s ∖ {[start v]} /\
      forall b, b ∈ live s -> b <> start v -> b ∈ live s' /\ b <> start v'
  | Throws e | Terminates e => e = bad_alloc
  | Undefined | Diverges => False
  end.
Proof.
  intros Hh Hs Hops. pose proof Hh as (Hst & _).
  pose proof (spec_ensures _ _ _ _ _
                (perform_all_plain ops v s l Hh Hs Hops)
                (ensures_perform_all ops v s Hs Hst)) as H.
  unfold spec in H.
  destruct (perform_all can_allocate ops v s) as [[v' s']| | | |];
    try tauto.
  destruct H as (_ & _ & Hst' & Hlive).
  split; [exact Hst'|]. split; [exact Hlive|].
  intros b Hb Hne.
  assert (b ∈ live s' ∖ {[start v']}) by (rewrite Hlive; set_solver).
  set_solver.
Qed.

(** ** When the allocation fails or the requested capacity wraps *)

(** When the allocator refuses the [2 * n] objects that a vector of [n]
    elements asks for, [vector(n)], [vector(n, value)] and [vector(n, p)]
    throw [bad_alloc] to the caller, and so does [push_back] on a full
    vector of [n - 1] elements; the copy, move and initializer-list
    constructors, being [noexcept], end in [std::terminate].  When the
    allocator refuses [10] objects, the default constructor ends in
    [std::terminate], and so does every [insert], which begins by
    default-constructing its temporary; [clear()] throws [bad_alloc]. *)
Theorem allocation_failure (n pos count : Z) (x : T) (p : list (option T))
  (q : list T) (r : const_reference (T:=T)) (src : const_pointer (T:=T))
  (vec v : vector (T:=T)) s :
  0 < n < 2 ^ 63 -> can_allocate (2 * n) = false ->
  vector_n value_type can_allocate n s = Throws bad_alloc /\
  vector_fill can_allocate n x s = Throws bad_alloc /\
  vector_ptr can_allocate n (Some p) s = Throws bad_alloc /\
  (size vec = n ->
   vector_copy can_allocate vec s = Terminates bad_alloc /\
   vector_move can_allocate vec s = Terminates bad_alloc) /\
  (Z.of_nat (length q) = n ->
   vector_list can_allocate q s = Terminates bad_alloc) /\
  (size v = capacity v -> size v + 1 = n ->
   push_back can_allocate r v s = Throws bad_alloc) /\
  (can_allocate initial_capacity = false ->
   vector_default (T:=T) can_allocate s = Terminates bad_alloc /\
   insert can_allocate pos src count v s = Terminates bad_alloc /\
   (start v ∈ live s -> clear can_allocate v s = Throws bad_alloc)).
Proof.
  intros Hn Hno.
  assert (E : size_type (n * capacity_factor) = 2 * n).
  { unfold capacity_factor. rewrite size_type_small by lia. lia. }
  assert (Hcs : create_storage (T:=T) can_allocate (2 * n) s = Throws bad_alloc).
  { unfold create_storage, mbind, allocate.
    destruct (Z.eqb_spec (2 * n) 0) as [|_]; [lia|]. now rewrite Hno. }
  split; [|split; [|split; [|split; [|split; [|split]]]]].
  - unfold vector_n, mbind. now rewrite E, Hcs.
  - unfold vector_fill, mbind. now rewrite E, Hcs.
  - unfold vector_ptr.
    destruct (Z.eqb_spec n 0) as [|_]; [lia|].
    unfold mbind. now rewrite E, Hcs.
  - intros Hv. unfold vector_copy, vector_move, mnoexcept, mbind.
    now rewrite Hv, E, Hcs.
  - intros Hq. unfold vector_list, mnoexcept, mbind.
    now rewrite Hq, E, Hcs.
  - intros Hfull Hsz. unfold push_back, capacity_factor. cbv zeta.
    rewrite !size_type_small by lia.
    destruct (Z.ltb_spec (capacity v) (size v + 1)) as [_|]; [|lia].
    unfold mbind, reserve.
    destruct (Z.eqb_spec ((size v + 1) * 2) 0) as [|_]; [lia|].
    destruct (Z.eqb_spec ((size v + 1) * 2) (capacity v)) as [|_]; [lia|].
    unfold mbind, allocate.
    destruct (Z.eqb_spec ((size v + 1) * 2) 0) as [|_]; [lia|].
    replace ((size v + 1) * 2) with (2 * n) by lia. now rewrite Hno.
  - intros Hten.
    assert (Hdef : vector_default (T:=T) can_allocate s = Terminates bad_alloc).
    { unfold vector_default, mnoexcept, create_storage, mbind, allocate.
      cbn [initial_capacity Z.eqb]. now rewrite Hten. }
    split; [exact Hdef|]. split.
    + unfold insert, mbind. cbv zeta. now rewrite Hdef.
    + intros Hst. unfold clear, mbind, deallocate.
      destruct (decide (start v ∈ live s)); [|contradiction].
      unfold create_storage, mbind, allocate.
      cbn [initial_capacity Z.eqb]. now rewrite Hten.
Qed.

(** The copying loop of [assign_content] counts its rounds: with more
    rounds than the block has objects left, it stores past the end of the
    block, unless it has read past the end of the source before. *)
Lemma copy_overflow (from : list (option T)) (n : nat) :
  forall (i : Z) (c : list (option T)),
  0 <= i <= Z.of_nat (length c) -> Z.of_nat (length c) - i < Z.of_nat n ->
  copy n i from c = Undefined.
Proof.
  induction n as [|n IH]; intros i c Hi Hn; [lia|].
  cbn [copy].
  assert (Hload : load from i = Undefined \/ exists x, load from i = Returns x).
  { unfold load. destruct (i <? 0); [now left|].
    destruct (from !! Z.to_nat i) as [[x|]|]; eauto. }
  destruct Hload as [->|[x ->]]; [reflexivity|]. cbn [bind].
  unfold store.
  destruct (Z.leb_spec 0 i) as [_|]; [|lia].
  destruct (Z.ltb_spec i (Z.of_nat (length c))) as [Hin|Hout];
    cbn [andb bind]; [|reflexivity].
  apply IH; rewrite length_insert; lia.
Qed.

(** The capacity [n * capacity_factor] that the constructors request is
    computed in [size_type]: for [n == 2^63] it wraps to zero, and
    [vector(n, value)] throws [bad_alloc]; for [2^63 < n < 2^64] it wraps to
    [2 * n - 2^64 < n].  When the allocator grants that block, the
    construction has undefined behaviour: [vector(n, value)] and
    [vector(n)] form the pointer [finish = start + n] beyond the end of the
    block, and [vector(n, p)] runs its copying loop [n] times, past the end
    of the block or of the buffer [p]. *)
Theorem constructor_capacity_wraps (n : Z) (x : T) (p : list (option T)) s :
  2 ^ 63 < n < 2 ^ 64 -> can_allocate (2 * n - 2 ^ 64) = true ->
  vector_fill can_allocate (2 ^ 63) x s = Throws bad_alloc /\
  size_type (n * capacity_factor) = 2 * n - 2 ^ 64 /\
  vector_fill can_allocate n x s = Undefined /\
  vector_n value_type can_allocate n s = Undefined /\
  vector_ptr can_allocate n (Some p) s = Undefined.
Proof.
  intros Hn Hcan.
  assert (E : size_type (n * capacity_factor) = 2 * n - 2 ^ 64).
  { unfold size_type, capacity_factor.
    replace (n * 2) with (2 * n - 2 ^ 64 + 1 * 2 ^ 64) by ring.
    rewrite Z.mod_add by lia. apply Z.mod_small. lia. }
  split; [reflexivity|]. split; [exact E|].
  assert (Hcs : create_storage (T:=T) can_allocate (2 * n - 2 ^ 64) s
                = Returns ({| start := next s;
                              cells := replicate (Z.to_nat (2 * n - 2 ^ 64)) None;
                              finish := 0;
                              end_of_storage := 2 * n - 2 ^ 64 |},
                           after_allocate s)).
  { unfold create_storage, mbind, allocate.
    destruct (Z.eqb_spec (2 * n - 2 ^ 64) 0) as [|_]; [lia|].
    now rewrite Hcan. }
  assert (H : forall y : T, vector_fill can_allocate n y s = Undefined).
  { intros y. unfold vector_fill, mbind. rewrite E, Hcs.
    unfold lift, assign_content_value, capacity. cbn [end_of_storage].
    destruct (Z.leb_spec n (2 * n - 2 ^ 64)); [lia | reflexivity]. }
  split; [apply H|]. split; [apply (H value_type)|].
  unfold vector_ptr.
  destruct (Z.eqb_spec n 0) as [|_]; [lia|].
  unfold mbind at 1. rewrite E, Hcs.
  unfold mbind, lift, assign_content. cbn [cells].
  rewrite copy_overflow; [reflexivity| |]; rewrite length_replicate; lia.
Qed.

End Storage.

(** ** The claims about [vector] on concrete runs *)

Section Runs.

Import Vector.

Lemma up_to_1000_address_space (n : Z) : up_to_1000 n = true -> n < 2 ^ 62.
Proof. unfold up_to_1000. intros H. apply Z.leb_le in H. lia. Qed.

Lemma up_to_1000_generous : generous up_to_1000 1000.
Proof. intros n Hn. unfold up_to_1000. apply Z.leb_le. lia. Qed.

Lemma one_live_consistent : consistent one_live.
Proof.
  intros b Hb. simpl in Hb. apply elem_of_singleton in Hb. subst b. simpl. lia.
Qed.

Lemma two_of_four_holds : holds one_live two_of_four [5; 7].
Proof.
  unfold holds, size, capacity; simpl.
  repeat split; try lia; try (now apply elem_of_singleton).
Qed.

Lemma none_of_four_holds : holds one_live none_of_four [].
Proof.
  unfold holds, size, capacity; simpl.
  repeat split; try lia; try (now apply elem_of_singleton).
Qed.

Lemma two_live_consistent : consistent two_live.
Proof.
  intros b Hb. simpl in Hb.
  apply elem_of_union in Hb as [Hb|Hb]; apply elem_of_singleton in Hb;
    subst b; simpl; lia.
Qed.

Lemma two_of_four_holds_beside : holds two_live two_of_four [5; 7].
Proof.
  apply (holds_live one_live); [exact two_of_four_holds|].
  simpl. apply elem_of_union. left. now apply elem_of_singleton.
Qed.

Lemma other_two_holds : holds two_live other_two [9; 6].
Proof.
  unfold holds, size, capacity; simpl.
  split; [apply elem_of_union; right; now apply elem_of_singleton|].
  repeat split; lia.
Qed.

(** C2, at a failing input: [push_back(1)], [push_back(2)], [push_back(3)]
    and [erase(1, 2^64 - 1)] on a default-constructed vector all return, and
    [0 <= size <= capacity] holds, but the first [size] objects are
    [1, 1, 1, 1] where the operations prescribe the contents [1]: in [erase]
    the sum [pos + len] wraps around to [0]. *)
Theorem sequence_with_wrapping_erase :
  let ops := [PushBack 1; PushBack 2; PushBack 3; Erase 1 (2 ^ 64 - 1)] in
  result (mbind (vector_default up_to_1000) (perform_all up_to_1000 ops)
            nothing_live)
  = Returns {| start := 0;
               cells := [Some 1; Some 1; Some 1; Some 1;
                         None; None; None; None; None; None];
               finish := 4;
               end_of_storage := 10 |} /\
  prescribed_all ops [] = [1].
Proof. split; vm_compute; reflexivity. Qed.

(** C3, at a failing input: indexed access to a [const] vector never
    returns and never throws, whatever the index and however long it runs;
    the [const] overload of [operator[]] calls itself. *)
Theorem index_const_never_returns :
  forall (T : Type) (fuel : nat) (pos : Z) (v : vector (T:=T)),
    index_const fuel pos v = Diverges.
Proof. intros T fuel. induction fuel as [|fuel IH]; intros pos v; simpl; auto. Qed.

(** C4, at a failing input: [erase(1, 2^64 - 1)] on the vector [1, 2, 3]
    returns with four elements [1, 1, 1, 1], where removing the valid
    overlap [[1, 3)] leaves the one element [1]. *)
Theorem erase_wraps_around :
  result (mbind (vector_list up_to_1000 [1; 2; 3])
            (erase up_to_1000 1 (2 ^ 64 - 1)) nothing_live)
  = Returns {| start := 0;
               cells := [Some 1; Some 1; Some 1; Some 1; None; None];
               finish := 4;
               end_of_storage := 6 |} /\
  contents_erase 1 (2 ^ 64 - 1) [1; 2; 3] = [1].
Proof. split; vm_compute; reflexivity. Qed.

(** C5, as stated, fails for a buffer inside the block of the vector
    itself.  [v.insert(1, v)] on the vector [5, 7] of capacity [4] needs no
    new storage, and its first loop reads [start[1]] after it has written
    it: the result is [5, 5, 5, 7] where the old prefix, the two elements
    of the buffer and the old tail are [5, 5, 7, 7].  On the full vector
    [9, 6] of capacity [2], [reserve] releases the block before the loop
    reads the buffer in it: undefined behaviour. *)
Lemma insert_from_itself :
  holds one_live two_of_four [5; 7] /\
  result (insert_vector up_to_1000 1 None 0 two_of_four one_live)
  = Returns {| start := 0;
               cells := [Some 5; Some 5; Some 5; Some 7];
               finish := 4;
               end_of_storage := 4 |} /\
  contents_insert 1 [5; 7] [5; 7] = [5; 5; 7; 7] /\
  holds two_live other_two [9; 6] /\
  insert_vector up_to_1000 1 None 0 other_two two_live = Undefined.
Proof.
  split; [exact two_of_four_holds|].
  split; [vm_compute; reflexivity|].
  split; [reflexivity|].
  split; [exact other_two_holds|].
  vm_compute; reflexivity.
Qed.

Lemma insert_contents_witness :
  (exists v' s',
     insert up_to_1000 1 (Buffer ((Some <$> [9; 6]) ++ [None]))
       (Z.of_nat (length [9; 6])) two_of_four two_live
     = Returns (v', s') /\
     size v' = size two_of_four + Z.of_nat (length [9; 6]) /\
     holds s' v'
       (if size two_of_four <=? 1 then [5; 7] ++ [9; 6]
        else take (Z.to_nat 1) [5; 7] ++ [9; 6] ++ drop (Z.to_nat 1) [5; 7])) /\
  (forall r, referent r [5; 7] = Some 7 ->
   exists v' s',
     insert_value up_to_1000 1 r two_of_four two_live = Returns (v', s') /\
     size v' = size two_of_four + 1 /\
     holds s' v'
       (if size two_of_four <=? 1 then [5; 7] ++ [7]
        else take (Z.to_nat 1) [5; 7] ++ [7] ++ drop (Z.to_nat 1) [5; 7])) /\
  (forall lo,
     holds two_live other_two lo -> start other_two <> start two_of_four ->
     2 * (size two_of_four + size other_two) <= 1000 ->
     insert_vector up_to_1000 1 (Some other_two) 0 two_of_four
     = insert up_to_1000 1 (Buffer (data other_two)) (size other_two)
         two_of_four /\
     exists v' s',
       insert_vector up_to_1000 1 (Some other_two) 0 two_of_four two_live
       = Returns (v', s') /\
       size v' = size two_of_four + size other_two /\
       holds s' v'
         (if size two_of_four <=? 1 then [5; 7] ++ lo
          else take (Z.to_nat 1) [5; 7] ++ lo ++ drop (Z.to_nat 1) [5; 7]) /\
       holds s' other_two lo).
Proof.
  apply (insert_contents up_to_1000 up_to_1000_address_space 1000 1
           [9; 6] [None] 7 other_two two_of_four two_live [5; 7]).
  - exact two_of_four_holds_beside.
  - exact two_live_consistent.
  - lia.
  - simpl; lia.
  - exact up_to_1000_generous.
  - unfold initial_capacity; lia.
  - unfold size; simpl; lia.
  - unfold size; simpl; lia.
Defined.

Lemma reserve_behaviour_witness :
  reserve up_to_1000 0 two_of_four = clear up_to_1000 two_of_four /\
  (1 = capacity two_of_four ->
   reserve up_to_1000 1 two_of_four one_live = Returns (two_of_four, one_live)) /\
  (1 <> 0 -> 1 <> capacity two_of_four ->
   (up_to_1000 1 = true ->
    exists v' s',
      reserve up_to_1000 1 two_of_four one_live = Returns (v', s') /\
      capacity v' = 1 /\ size v' = Z.min 1 (size two_of_four) /\
      holds s' v' (take (Z.to_nat (Z.min 1 (size two_of_four))) [5; 7]) /\
      (start two_of_four ∉ live s') /\ (start v' ∈ live s')) /\
   (up_to_1000 1 = false ->
    reserve up_to_1000 1 two_of_four one_live = Throws bad_alloc)).
Proof.
  apply (reserve_behaviour up_to_1000 up_to_1000_address_space 1
           two_of_four one_live [5; 7]).
  - exact two_of_four_holds.
  - exact one_live_consistent.
  - lia.
Defined.

(** C10, as stated, fails: of the constructors that size the allocation by
    the element count, [vector(0, p)] raises no out-of-memory error, it
    throws [invalid_argument]; and the copy constructor from an empty vector
    does not raise [bad_alloc] to its caller: it is [noexcept], and the
    program ends in [std::terminate]. *)
Lemma zero_sized_not_out_of_memory :
  vector_ptr up_to_1000 0 (Some [Some 1]) one_live = Throws invalid_argument /\
  vector_ptr up_to_1000 0 (Some [Some 1]) one_live <> Throws bad_alloc /\
  size none_of_four = 0 /\
  vector_copy up_to_1000 none_of_four one_live = Terminates bad_alloc /\
  vector_copy up_to_1000 none_of_four one_live <> Throws bad_alloc.
Proof.
  split; [reflexivity|]. split; [discriminate|].
  split; [reflexivity|]. split; [reflexivity | discriminate].
Qed.

Lemma zero_sized_construction_witness :
  allocate up_to_1000 0 one_live = Returns (None, one_live) /\
  create_storage (T:=Z) up_to_1000 0 one_live = Throws bad_alloc /\
  vector_n 0 up_to_1000 0 one_live = Throws bad_alloc /\
  vector_fill up_to_1000 0 7 one_live = Throws bad_alloc /\
  vector_copy up_to_1000 none_of_four one_live = Terminates bad_alloc /\
  vector_move up_to_1000 none_of_four one_live = Terminates bad_alloc /\
  vector_list (T:=Z) up_to_1000 [] one_live = Terminates bad_alloc /\
  vector_ptr up_to_1000 0 (Some [Some 1]) one_live = Throws invalid_argument.
Proof.
  apply (zero_sized_construction 0 up_to_1000 none_of_four none_of_four 7
           (Some [Some 1]) one_live); reflexivity.
Defined.

(** [erase(3, 3)] on the eleven elements of [main.cpp] removes the
    positions 3, 4 and 5 and leaves the other eight in order. *)
Lemma erase_3_3_of_11 :
  result (mbind (vector_list up_to_1000
                   [11; 20; 40; 100; 135; 341; 900; 1000; 9000; -1; -432])
            (erase up_to_1000 3 3) nothing_live)
  = Returns {| start := 0;
               cells := (Some <$> [11; 20; 40; 900; 1000; 9000; -1; -432])
                        ++ [Some 9000; Some (-1); Some (-432)]
                        ++ replicate 11 None;
               finish := 8;
               end_of_storage := 22 |} /\
  contents_erase 3 3 [11; 20; 40; 100; 135; 341; 900; 1000; 9000; -1; -432]
  = [11; 20; 40; 900; 1000; 9000; -1; -432].
Proof. split; vm_compute; reflexivity. Qed.

Lemma plain_sequence_invariant_witness :
  match
    perform_all up_to_1000
      [PushBack 3; Insert 1 [9; 6]; Erase 0 2; PopBack; PopBack]
      two_of_four one_live
  with
  | Returns (v', s') =>
      0 <= size v' <= capacity v' /\
      take (Z.to_nat (size v')) (cells v')
      = Some <$> prescribed_all
                   [PushBack 3; Insert 1 [9; 6]; Erase 0 2; PopBack; PopBack]
                   [5; 7] /\
      holds s' v'
        (prescribed_all
           [PushBack 3; Insert 1 [9; 6]; Erase 0 2; PopBack; PopBack]
           [5; 7]) /\
      consistent s'
  | Throws e | Terminates e => e = bad_alloc
  | Undefined | Diverges => False
  end.
Proof.
  apply (plain_sequence_invariant up_to_1000 up_to_1000_address_space
           [PushBack 3; Insert 1 [9; 6]; Erase 0 2; PopBack; PopBack]
           two_of_four one_live [5; 7]).
  - exact two_of_four_holds.
  - exact one_live_consistent.
  - repeat constructor; simpl; lia.
Defined.

Lemma erase_without_wrap_witness :
  (exists v' s',
     erase up_to_1000 1 5 two_of_four one_live = Returns (v', s') /\
     holds s' v' (contents_erase 1 5 [5; 7])) /\
  (size two_of_four < 1 ->
   erase up_to_1000 1 5 two_of_four one_live = Returns (two_of_four, one_live)).
Proof.
  apply (erase_without_wrap up_to_1000 up_to_1000_address_space 1000 1 5
           two_of_four one_live [5; 7]).
  - exact two_of_four_holds.
  - exact one_live_consistent.
  - lia.
  - lia.
  - lia.
  - exact up_to_1000_generous.
  - unfold initial_capacity; lia.
  - unfold size; simpl; lia.
Defined.

Lemma index_checked_witness :
  (index 1 two_of_four = Throws out_of_range <-> size two_of_four <= 1) /\
  (1 < size two_of_four ->
   exists x, [5; 7] !! Z.to_nat 1 = Some x /\
             index 1 two_of_four = Returns 1 /\ get 1 two_of_four = Returns x).
Proof.
  apply (index_checked 1 two_of_four one_live [5; 7]).
  - exact two_of_four_holds.
  - lia.
Defined.

Lemma constructors_build_witness :
  constructs (T:=Z) (vector_default up_to_1000) one_live [] initial_capacity /\
  constructs (vector_fill up_to_1000 (Z.of_nat 3) 7) one_live
    (replicate 3 7) (2 * Z.of_nat 3) /\
  constructs (vector_n 0 up_to_1000 (Z.of_nat 3)) one_live
    (replicate 3 0) (2 * Z.of_nat 3) /\
  constructs (vector_list up_to_1000 [1; 2; 3]) one_live
    [1; 2; 3] (2 * Z.of_nat (length [1; 2; 3])) /\
  constructs
    (vector_ptr up_to_1000 (Z.of_nat (length [1; 2; 3]))
       (Some ((Some <$> [1; 2; 3]) ++ [None]))) one_live
    [1; 2; 3] (2 * Z.of_nat (length [1; 2; 3])) /\
  (forall n p,
     vector_ptr (T:=Z) up_to_1000 n None one_live = Throws invalid_argument /\
     vector_ptr (T:=Z) up_to_1000 0 p one_live = Throws invalid_argument).
Proof.
  apply (constructors_build 0 up_to_1000 up_to_1000_address_space 1000
           3 7 [1; 2; 3] [None] one_live).
  - exact up_to_1000_generous.
  - unfold initial_capacity; lia.
  - lia.
  - lia.
  - discriminate.
  - simpl; lia.
Defined.

Lemma copy_constructor_witness :
  constructs (vector_copy up_to_1000 two_of_four) one_live [5; 7]
    (2 * size two_of_four) /\
  holds (after_allocate one_live) two_of_four [5; 7] /\
  next one_live <> start two_of_four.
Proof.
  apply (copy_constructor up_to_1000 up_to_1000_address_space 1000
           two_of_four one_live [5; 7]).
  - exact two_of_four_holds.
  - exact one_live_consistent.
  - unfold size; simpl; lia.
  - exact up_to_1000_generous.
  - unfold size; simpl; lia.
Defined.

Lemma move_constructor_leaks_witness :
  exists other' s',
    vector_move up_to_1000 two_of_four one_live
    = Returns ((two_of_four, other'), s') /\
    holds s' two_of_four [5; 7] /\ holds s' other' [] /\
    capacity other' = initial_capacity /\
    start other' <> start two_of_four /\
    exists leaked,
      leaked ∈ live s' /\ (leaked ∉ live one_live) /\
      leaked <> start two_of_four /\ leaked <> start other' /\
      live s' = {[leaked]} ∪ ({[start other']} ∪ live one_live).
Proof.
  apply (move_constructor_leaks up_to_1000 up_to_1000_address_space 1000
           two_of_four one_live [5; 7]).
  - exact two_of_four_holds.
  - exact one_live_consistent.
  - unfold size; simpl; lia.
  - exact up_to_1000_generous.
  - unfold initial_capacity; lia.
  - unfold size; simpl; lia.
Defined.

Lemma move_assignment_witness :
  exists other' s',
    move_assign up_to_1000 two_of_four other_two two_live
    = Returns ((other_two, other'), s') /\
    holds s' other_two [9; 6] /\ holds s' other' [] /\
    capacity other' = initial_capacity /\
    start other' <> start other_two /\
    (start two_of_four ∉ live s') /\ (start other' ∉ live two_live) /\
    live s' = {[start other']} ∪ (live two_live ∖ {[start two_of_four]}).
Proof.
  apply (move_assignment up_to_1000 up_to_1000_address_space 1000
           two_of_four other_two two_live [5; 7] [9; 6]).
  - exact two_of_four_holds_beside.
  - exact other_two_holds.
  - simpl; lia.
  - exact two_live_consistent.
  - exact up_to_1000_generous.
  - unfold initial_capacity; lia.
Defined.

Lemma clear_resets_witness :
  (exists v' s',
     clear up_to_1000 two_of_four one_live = Returns (v', s') /\
     holds s' v' [] /\ size v' = 0 /\ empty v' = true /\
     capacity v' = initial_capacity /\
     (start two_of_four ∉ live s') /\
     live s' ∖ {[start v']} = live one_live ∖ {[start two_of_four]}) /\
  erase up_to_1000 0 0 two_of_four one_live
  = clear up_to_1000 two_of_four one_live.
Proof.
  apply (clear_resets up_to_1000 up_to_1000_address_space 1000
           two_of_four one_live [5; 7]).
  - exact two_of_four_holds.
  - exact one_live_consistent.
  - exact up_to_1000_generous.
  - unfold initial_capacity; lia.
Defined.


Lemma assign_replaces_witness :
  assign up_to_1000 None other_two two_live = Returns (other_two, two_live) /\
  exists this' s',
    assign up_to_1000 (Some two_of_four) other_two two_live
    = Returns (this', s') /\
    holds s' this' [5; 7] /\ holds s' two_of_four [5; 7] /\ consistent s' /\
    (size two_of_four <= capacity other_two ->
     s' = two_live /\ start this' = start other_two /\
     capacity this' = capacity other_two) /\
    (capacity other_two < size two_of_four ->
     capacity this' = 2 * size two_of_four /\
     (start other_two ∉ live s') /\
     live s' ∖ {[start this']} = live two_live ∖ {[start other_two]}).
Proof.
  apply (assign_replaces up_to_1000 up_to_1000_address_space 1000
           other_two two_of_four two_live [9; 6] [5; 7]).
  - exact other_two_holds.
  - exact two_of_four_holds_beside.
  - simpl; lia.
  - exact two_live_consistent.
  - exact up_to_1000_generous.
  - unfold size; simpl; lia.
Defined.

Lemma put_then_get_witness :
  (size two_of_four <= 1 -> put 1 8 two_of_four = Throws out_of_range) /\
  (1 < size two_of_four ->
   exists v',
     put 1 8 two_of_four = Returns v' /\
     holds one_live v' (<[Z.to_nat 1 := 8]> [5; 7]) /\
     start v' = start two_of_four /\ capacity v' = capacity two_of_four /\
     size v' = size two_of_four /\
     get 1 v' = Returns 8 /\
     forall j y, j <> Z.to_nat 1 -> [5; 7] !! j = Some y ->
                 get (Z.of_nat j) v' = Returns y).
Proof.
  apply (put_then_get 1 8 two_of_four one_live [5; 7]).
  - exact two_of_four_holds.
  - lia.
Defined.

Lemma push_back_growth_witness :
  (size other_two < capacity other_two ->
   forall r y, referent r [9; 6] = Some y ->
   exists v',
     push_back up_to_1000 r other_two two_live = Returns (v', two_live) /\
     start v' = start other_two /\ capacity v' = capacity other_two /\
     size v' = size other_two + 1 /\ holds two_live v' ([9; 6] ++ [y])) /\
  (size other_two = capacity other_two ->
   (exists v' s',
      push_back up_to_1000 (Outside 3) other_two two_live = Returns (v', s') /\
      capacity v' = 2 * (size other_two + 1) /\
      size v' = size other_two + 1 /\
      holds s' v' ([9; 6] ++ [3]) /\
      (start other_two ∉ live s') /\ (start v' ∉ live two_live) /\
      live s' ∖ {[start v']} = live two_live ∖ {[start other_two]}) /\
   forall k, push_back up_to_1000 (Element k) other_two two_live = Undefined).
Proof.
  apply (push_back_growth up_to_1000 up_to_1000_address_space 1000 3
           other_two two_live [9; 6]).
  - exact other_two_holds.
  - exact two_live_consistent.
  - exact up_to_1000_generous.
  - unfold size; simpl; lia.
Defined.

Lemma shrinking_bounds_capacity_witness :
  (size two_of_four = 0 ->
   pop_back up_to_1000 two_of_four one_live = Returns (two_of_four, one_live)) /\
  (0 < size two_of_four ->
   exists v' s',
     pop_back up_to_1000 two_of_four one_live = Returns (v', s') /\
     size v' = size two_of_four - 1 /\
     holds s' v' (contents_pop_back [5; 7]) /\ sanitized v' /\
     only_own_block one_live two_of_four s' v' /\
     erase up_to_1000 (size two_of_four - 1) 1 two_of_four one_live
     = pop_back up_to_1000 two_of_four one_live) /\
  (exists v' s',
     erase up_to_1000 1 5 two_of_four one_live = Returns (v', s') /\
     holds s' v' (contents_erase 1 5 [5; 7]) /\ sanitized v' /\
     only_own_block one_live two_of_four s' v').
Proof.
  apply (shrinking_bounds_capacity up_to_1000 up_to_1000_address_space 1000
           1 5 two_of_four one_live [5; 7]).
  - exact two_of_four_holds.
  - exact one_live_consistent.
  - exact up_to_1000_generous.
  - unfold initial_capacity; lia.
  - unfold size; simpl; lia.
  - unfold size; simpl; lia.
  - lia.
  - lia.
Defined.

Lemma insert_then_erase_witness :
  exists v' s' v'' s'',
    insert up_to_1000 1 (Buffer ((Some <$> [9; 6]) ++ [None]))
      (Z.of_nat (length [9; 6])) two_of_four one_live
    = Returns (v', s') /\
    size v' = size two_of_four + Z.of_nat (length [9; 6]) /\
    erase up_to_1000 1 (Z.of_nat (length [9; 6])) v' s' = Returns (v'', s'') /\
    holds s'' v'' [5; 7].
Proof.
  apply (insert_then_erase up_to_1000 up_to_1000_address_space 1000 1
           [9; 6] [None] two_of_four one_live [5; 7]).
  - exact two_of_four_holds.
  - exact one_live_consistent.
  - unfold size; simpl; lia.
  - discriminate.
  - exact up_to_1000_generous.
  - unfold initial_capacity; lia.
  - unfold size; simpl; lia.
Defined.

Lemma operations_never_leak_witness :
  match
    perform_all up_to_1000
      [PushBack 3; Insert 1 [9; 6]; Erase 0 2; PopBack; PopBack]
      two_of_four two_live
  with
  | Returns (v', s') =>
      start v' ∈ live s' /\
      live s' ∖ {[start v']} = live two_live ∖ {[start two_of_four]} /\
      forall b, b ∈ live two_live -> b <> start two_of_four ->
                b ∈ live s' /\ b <> start v'
  | Throws e | Terminates e => e = bad_alloc
  | Undefined | Diverges => False
  end.
Proof.
  apply (operations_never_leak up_to_1000 up_to_1000_address_space
           [PushBack 3; Insert 1 [9; 6]; Erase 0 2; PopBack; PopBack]
           two_of_four two_live [5; 7]).
  - exact two_of_four_holds_beside.
  - exact two_live_consistent.
  - repeat constructor; simpl; lia.
Defined.

Lemma allocation_failure_witness :
  vector_n 0 up_to_5 3 one_live = Throws bad_alloc /\
  vector_fill up_to_5 3 7 one_live = Throws bad_alloc /\
  vector_ptr up_to_5 3 (Some [Some 1; Some 2; Some 3]) one_live
  = Throws bad_alloc /\
  (size two_of_four = 3 ->
   vector_copy up_to_5 two_of_four one_live = Terminates bad_alloc /\
   vector_move up_to_5 two_of_four one_live = Terminates bad_alloc) /\
  (Z.of_nat (length [1; 2; 3]) = 3 ->
   vector_list up_to_5 [1; 2; 3] one_live = Terminates bad_alloc) /\
  (size other_two = capacity other_two -> size other_two + 1 = 3 ->
   push_back up_to_5 (Element 0) other_two one_live = Throws bad_alloc) /\
  (up_to_5 initial_capacity = false ->
   vector_default (T:=Z) up_to_5 one_live = Terminates bad_alloc /\
   insert up_to_5 1 (Into 0) 3 other_two one_live = Terminates bad_alloc /\
   (start other_two ∈ live one_live ->
    clear up_to_5 other_two one_live = Throws bad_alloc)).
Proof.
  apply (allocation_failure 0 up_to_5 3 1 3 7 [Some 1; Some 2; Some 3]
           [1; 2; 3] (Element 0) (Into 0) two_of_four other_two one_live).
  - lia.
  - reflexivity.
Defined.

Lemma constructor_capacity_wraps_witness :
  vector_fill up_to_1000 (2 ^ 63) 7 one_live = Throws bad_alloc /\
  size_type ((2 ^ 63 + 1) * capacity_factor) = 2 * (2 ^ 63 + 1) - 2 ^ 64 /\
  vector_fill up_to_1000 (2 ^ 63 + 1) 7 one_live = Undefined /\
  vector_n 0 up_to_1000 (2 ^ 63 + 1) one_live = Undefined /\
  vector_ptr up_to_1000 (2 ^ 63 + 1) (Some [Some 1; Some 2; Some 3]) one_live
  = Undefined.
Proof.
  apply (constructor_capacity_wraps 0 up_to_1000 (2 ^ 63 + 1) 7
           [Some 1; Some 2; Some 3] one_live).
  - lia.
  - reflexivity.
Defined.

End Runs.

(** * Further properties of [rational_t] over exact integers *)

Section RationalAlgebra.

Import Rational.

Local Notation "n # d" := {| num_ := n; denom_ := d |} (at level 55).

Lemma represents_self (r : rational_t) :
  reduced r -> represents r (num_ r) (denom_ r).
Proof. intros [Hd _]. split; [lia | reflexivity]. Qed.

(** Two reduced rationals that represent the same value are the same. *)
Lemma represents_unique (r s : rational_t) (N D N' D' : Z) :
  reduced r -> reduced s ->
  represents r N D -> represents s N' D' -> N * D' = N' * D -> r = s.
Proof.
  intros Hr Hs [HD Hrv] [HD' Hsv] Hv.
  apply reduced_unique; try assumption.
  apply (Z.mul_reg_r _ _ (D * D')); [nia|].
  transitivity (num_ r * D * denom_ s * D'); [ring|].
  rewrite Hrv.
  transitivity (N * D' * denom_ r * denom_ s); [ring|].
  rewrite Hv.
  transitivity (num_ s * D' * denom_ r * D); [rewrite Hsv|]; ring.
Qed.

Lemma add_represents (a b : rational_t) (Na Da Nb Db : Z) :
  reduced a -> reduced b -> represents a Na Da -> represents b Nb Db ->
  exists s, add Exact a b = Returns s /\ reduced s /\
            represents s (Na * Db + Nb * Da) (Da * Db).
Proof.
  intros Ha Hb [HDa Hav] [HDb Hbv].
  destruct (add_exact a b Ha Hb) as (s & Hs & Hred & Hv).
  pose proof Ha as [Hda _]. pose proof Hb as [Hdb _].
  exists s. split; [exact Hs|]. split; [exact Hred|]. split; [nia|].
  apply (Z.mul_reg_r _ _ (denom_ a * denom_ b)); [nia|].
  transitivity (num_ s * (denom_ a * denom_ b) * (Da * Db)); [ring|].
  rewrite Hv.
  transitivity ((num_ a * Da * (denom_ b * Db)
                 + num_ b * Db * (denom_ a * Da)) * denom_ s); [ring|].
  rewrite Hav, Hbv. ring.
Qed.

Lemma neg_represents (a : rational_t) (Na Da : Z) :
  reduced a -> represents a Na Da ->
  exists s, neg Exact a = Returns s /\ reduced s /\ represents s (- Na) Da.
Proof.
  intros Ha [HDa Hav]. rewrite (neg_exact a Ha).
  eexists. split; [reflexivity|]. split; [now apply reduced_neg|].
  split; [exact HDa|]. simpl. lia.
Qed.

Lemma sub_represents (a b : rational_t) (Na Da Nb Db : Z) :
  reduced a -> reduced b -> represents a Na Da -> represents b Nb Db ->
  exists s, sub Exact a b = Returns s /\ reduced s /\
            represents s (Na * Db - Nb * Da) (Da * Db).
Proof.
  intros Ha Hb Hav Hbv. unfold sub.
  destruct (neg_represents b Nb Db Hb Hbv) as (m & Hm & Hmr & Hmv).
  rewrite Hm. cbn [bind].
  destruct (add_represents a m Na Da (- Nb) Db Ha Hmr Hav Hmv)
    as (s & Hs & Hsr & Hsv).
  rewrite Hs. cbn [noexcept]. exists s. split; [reflexivity|].
  split; [exact Hsr|].
  replace (Na * Db - Nb * Da) with (Na * Db + - Nb * Da) by ring. exact Hsv.
Qed.

Lemma mul_represents (a b : rational_t) (Na Da Nb Db : Z) :
  reduced a -> reduced b -> represents a Na Da -> represents b Nb Db ->
  exists s, mul Exact a b = Returns s /\ reduced s /\
            represents s (Na * Nb) (Da * Db).
Proof.
  intros Ha Hb [HDa Hav] [HDb Hbv].
  destruct (mul_exact a b Ha Hb) as (s & Hs & Hred & Hv).
  pose proof Ha as [Hda _]. pose proof Hb as [Hdb _].
  exists s. split; [exact Hs|]. split; [exact Hred|]. split; [nia|].
  apply (Z.mul_reg_r _ _ (denom_ a * denom_ b)); [nia|].
  transitivity (num_ s * (denom_ a * denom_ b) * (Da * Db)); [ring|].
  rewrite Hv.
  transitivity (num_ a * Da * (num_ b * Db) * denom_ s); [ring|].
  rewrite Hav, Hbv. ring.
Qed.

Lemma div_represents (a b : rational_t) (Na Da Nb Db : Z) :
  reduced a -> reduced b -> represents a Na Da -> represents b Nb Db ->
  Nb <> 0 ->
  exists s, div Exact a b = Returns s /\ reduced s /\
            represents s (Na * Db) (Da * Nb).
Proof.
  intros Ha Hb [HDa Hav] [HDb Hbv] HNb.
  pose proof Ha as [Hda _]. pose proof Hb as [Hdb _].
  assert (Hnb : num_ b <> 0) by (intros E; rewrite E in Hbv; nia).
  destruct (div_exact a b Ha Hb Hnb) as (s & Hs & Hred & Hv).
  exists s. split; [exact Hs|]. split; [exact Hred|]. split; [nia|].
  apply (Z.mul_reg_r _ _ (denom_ a * num_ b)); [nia|].
  transitivity (num_ s * (denom_ a * num_ b) * (Da * Nb)); [ring|].
  rewrite Hv.
  transitivity (num_ a * Da * (Nb * denom_ b) * denom_ s); [ring|].
  rewrite Hav, <- Hbv. ring.
Qed.

(** Addition is commutative and associative: both orders and both
    groupings return the same reduced rational. *)
Theorem add_commutative_associative (a b c : rational_t) :
  reduced a -> reduced b -> reduced c ->
  (exists s, add Exact a b = Returns s /\ add Exact b a = Returns s) /\
  (exists ab bc s,
     add Exact a b = Returns ab /\ add Exact b c = Returns bc /\
     add Exact ab c = Returns s /\ add Exact a bc = Returns s).
Proof.
  intros Ha Hb Hc.
  pose proof (represents_self a Ha) as Ra.
  pose proof (represents_self b Hb) as Rb.
  pose proof (represents_self c Hc) as Rc.
  destruct (add_represents a b _ _ _ _ Ha Hb Ra Rb) as (ab & Hab & Habr & Rab).
  destruct (add_represents b a _ _ _ _ Hb Ha Rb Ra) as (ba & Hba & Hbar & Rba).
  destruct (add_represents b c _ _ _ _ Hb Hc Rb Rc) as (bc & Hbc & Hbcr & Rbc).
  destruct (add_represents ab c _ _ _ _ Habr Hc Rab Rc) as (s & Hs & Hsr & Rs).
  destruct (add_represents a bc _ _ _ _ Ha Hbcr Ra Rbc) as (t & Ht & Htr & Rt).
  split.
  - exists ab. split; [exact Hab|]. rewrite Hba. f_equal.
    apply (represents_unique _ _ _ _ _ _ Hbar Habr Rba Rab). ring.
  - exists ab, bc, s. repeat (split; [assumption|]).
    rewrite Ht. f_equal.
    apply (represents_unique _ _ _ _ _ _ Htr Hsr Rt Rs). ring.
Qed.

Lemma add_commutative_associative_witness :
  (exists s, add Exact (1 # 2) (-2 # 3) = Returns s /\
             add Exact (-2 # 3) (1 # 2) = Returns s) /\
  (exists ab bc s,
     add Exact (1 # 2) (-2 # 3) = Returns ab /\
     add Exact (-2 # 3) (5 # 6) = Returns bc /\
     add Exact ab (5 # 6) = Returns s /\ add Exact (1 # 2) bc = Returns s).
Proof.
  apply (add_commutative_associative (1 # 2) (-2 # 3) (5 # 6));
    unfold reduced; simpl; split; solve [lia | reflexivity].
Defined.

(** Multiplication is commutative and associative and distributes over
    addition: [a * (b + c)] and [a * b + a * c] return the same reduced
    rational. *)
Theorem mul_commutative_associative_distributive (a b c : rational_t) :
  reduced a -> reduced b -> reduced c ->
  (exists p, mul Exact a b = Returns p /\ mul Exact b a = Returns p) /\
  (exists ab bc p,
     mul Exact a b = Returns ab /\ mul Exact b c = Returns bc /\
     mul Exact ab c = Returns p /\ mul Exact a bc = Returns p) /\
  (exists bc ab ac p,
     add Exact b c = Returns bc /\ mul Exact a b = Returns ab /\
     mul Exact a c = Returns ac /\
     mul Exact a bc = Returns p /\ add Exact ab ac = Returns p).
Proof.
  intros Ha Hb Hc.
  pose proof (represents_self a Ha) as Ra.
  pose proof (represents_self b Hb) as Rb.
  pose proof (represents_self c Hc) as Rc.
  destruct (mul_represents a b _ _ _ _ Ha Hb Ra Rb) as (ab & Hab & Habr & Rab).
  destruct (mul_represents b a _ _ _ _ Hb Ha Rb Ra) as (ba & Hba & Hbar & Rba).
  destruct (mul_represents b c _ _ _ _ Hb Hc Rb Rc) as (bc & Hbc & Hbcr & Rbc).
  destruct (mul_represents a c _ _ _ _ Ha Hc Ra Rc) as (ac & Hac & Hacr & Rac).
  destruct (mul_represents ab c _ _ _ _ Habr Hc Rab Rc) as (p & Hp & Hpr & Rp).
  destruct (mul_represents a bc _ _ _ _ Ha Hbcr Ra Rbc) as (q & Hq & Hqr & Rq).
  destruct (add_represents b c _ _ _ _ Hb Hc Rb Rc) as (sbc & Hsbc & Hsbcr & Rsbc).
  destruct (mul_represents a sbc _ _ _ _ Ha Hsbcr Ra Rsbc)
    as (l & Hl & Hlr & Rl).
  destruct (add_represents ab ac _ _ _ _ Habr Hacr Rab Rac)
    as (r & Hr & Hrr & Rr).
  split; [|split].
  - exists ab. split; [exact Hab|]. rewrite Hba. f_equal.
    apply (represents_unique _ _ _ _ _ _ Hbar Habr Rba Rab). ring.
  - exists ab, bc, p. repeat (split; [assumption|]).
    rewrite Hq. f_equal.
    apply (represents_unique _ _ _ _ _ _ Hqr Hpr Rq Rp). ring.
  - exists sbc, ab, ac, l. repeat (split; [assumption|]).
    rewrite Hr. f_equal.
    apply (represents_unique _ _ _ _ _ _ Hrr Hlr Rr Rl). ring.
Qed.

Lemma mul_commutative_associative_distributive_witness :
  (exists p, mul Exact (1 # 2) (-2 # 3) = Returns p /\
             mul Exact (-2 # 3) (1 # 2) = Returns p) /\
  (exists ab bc p,
     mul Exact (1 # 2) (-2 # 3) = Returns ab /\
     mul Exact (-2 # 3) (5 # 6) = Returns bc /\
     mul Exact ab (5 # 6) = Returns p /\ mul Exact (1 # 2) bc = Returns p) /\
  (exists bc ab ac p,
     add Exact (-2 # 3) (5 # 6) = Returns bc /\
     mul Exact (1 # 2) (-2 # 3) = Returns ab /\
     mul Exact (1 # 2) (5 # 6) = Returns ac /\
     mul Exact (1 # 2) bc = Returns p /\ add Exact ab ac = Returns p).
Proof.
  apply (mul_commutative_associative_distributive (1 # 2) (-2 # 3) (5 # 6));
    unfold reduced; simpl; split; solve [lia | reflexivity].
Defined.

Lemma reduced_zero : reduced (0 # 1).
Proof. unfold reduced; simpl. split; [lia | reflexivity]. Qed.

Lemma reduced_one : reduced (1 # 1).
Proof. unfold reduced; simpl. split; [lia | reflexivity]. Qed.

(** Zero and one are neutral, every rational has an opposite and every
    nonzero rational an inverse: [a + 0 == a], [a * 1 == a], [a - a == 0],
    [-(-a) == a], and [a / a == 1] when the numerator of [a] is not zero;
    the default-constructed rational is the zero [0 / 1]. *)
Theorem neutral_and_inverse (a : rational_t) :
  reduced a ->
  rational_default = 0 # 1 /\
  add Exact a rational_default = Returns a /\
  mul Exact a (1 # 1) = Returns a /\
  sub Exact a a = Returns (0 # 1) /\
  (exists m, neg Exact a = Returns m /\ neg Exact m = Returns a) /\
  (num_ a <> 0 -> div Exact a a = Returns (1 # 1)).
Proof.
  intros Ha.
  pose proof (represents_self a Ha) as Ra.
  pose proof (represents_self _ reduced_zero) as R0.
  pose proof (represents_self _ reduced_one) as R1.
  pose proof Ha as [Hd _].
  split; [reflexivity|]. split; [|split; [|split; [|split]]].
  - destruct (add_represents a (0 # 1) _ _ _ _ Ha reduced_zero Ra R0)
      as (s & Hs & Hsr & Rs).
    unfold rational_default. rewrite Hs. f_equal.
    apply (represents_unique _ _ _ _ _ _ Hsr Ha Rs Ra). simpl. ring.
  - destruct (mul_represents a (1 # 1) _ _ _ _ Ha reduced_one Ra R1)
      as (s & Hs & Hsr & Rs).
    rewrite Hs. f_equal.
    apply (represents_unique _ _ _ _ _ _ Hsr Ha Rs Ra). simpl. ring.
  - destruct (sub_represents a a _ _ _ _ Ha Ha Ra Ra) as (s & Hs & Hsr & Rs).
    rewrite Hs. f_equal.
    apply (represents_unique _ _ _ _ _ _ Hsr reduced_zero Rs R0). simpl. ring.
  - rewrite (neg_exact a Ha). eexists. split; [reflexivity|].
    rewrite (neg_exact _ (reduced_neg a Ha)). simpl.
    rewrite Z.opp_involutive. now destruct a.
  - intros Hn.
    destruct (div_represents a a _ _ _ _ Ha Ha Ra Ra Hn) as (s & Hs & Hsr & Rs).
    rewrite Hs. f_equal.
    apply (represents_unique _ _ _ _ _ _ Hsr reduced_one Rs R1). simpl. ring.
Qed.

Lemma neutral_and_inverse_witness :
  rational_default = 0 # 1 /\
  add Exact (-2 # 3) rational_default = Returns (-2 # 3) /\
  mul Exact (-2 # 3) (1 # 1) = Returns (-2 # 3) /\
  sub Exact (-2 # 3) (-2 # 3) = Returns (0 # 1) /\
  (exists m, neg Exact (-2 # 3) = Returns m /\ neg Exact m = Returns (-2 # 3)) /\
  (num_ (-2 # 3) <> 0 -> div Exact (-2 # 3) (-2 # 3) = Returns (1 # 1)).
Proof.
  apply (neutral_and_inverse (-2 # 3)).
  unfold reduced; simpl; split; [lia | reflexivity].
Defined.

(** ** The order *)

Lemma lt_cross (a b : rational_t) :
  reduced a -> reduced b ->
  lt Exact a b = Returns (num_ a * denom_ b <? num_ b * denom_ a).
Proof.
  intros Ha Hb.
  destruct (sub_represents a b _ _ _ _ Ha Hb (represents_self a Ha)
              (represents_self b Hb)) as (d & Hd & Hdr & _ & Hdv).
  pose proof Ha as [Hda _]. pose proof Hb as [Hdb _]. pose proof Hdr as [Hdd _].
  unfold lt. rewrite Hd. cbn [bind noexcept]. f_equal.
  assert (Hp : 0 < denom_ a * denom_ b) by nia.
  destruct (Z.ltb_spec (num_ d) 0),
    (Z.ltb_spec (num_ a * denom_ b) (num_ b * denom_ a)); try reflexivity; nia.
Qed.

Lemma le_cross (a b : rational_t) :
  reduced a -> reduced b ->
  le Exact a b = Returns (num_ a * denom_ b <=? num_ b * denom_ a).
Proof.
  intros Ha Hb. unfold le, gt. rewrite (lt_cross b a Hb Ha).
  cbn [bind noexcept]. now rewrite Z.leb_antisym.
Qed.

Lemma eq_cross (a b : rational_t) :
  reduced a -> reduced b ->
  eq a b = (num_ a * denom_ b =? num_ b * denom_ a).
Proof.
  intros Ha Hb.
  destruct (Z.eqb_spec (num_ a * denom_ b) (num_ b * denom_ a)) as [E|E].
  - now apply eq_true_iff, reduced_unique.
  - apply not_true_is_false. rewrite eq_true_iff. intros ->. now apply E.
Qed.

(** The comparison operators decide the order of the values: for reduced
    [a = na / da] and [b = nb / db] each of [<], [>], [<=], [>=] returns,
    with the truth value of the same comparison between the cross products
    [na * db] and [nb * da], and [==] and [!=] compare the cross products
    for equality. *)
Theorem order_by_cross_products (a b : rational_t) :
  reduced a -> reduced b ->
  lt Exact a b = Returns (num_ a * denom_ b <? num_ b * denom_ a) /\
  gt Exact a b = Returns (num_ b * denom_ a <? num_ a * denom_ b) /\
  le Exact a b = Returns (num_ a * denom_ b <=? num_ b * denom_ a) /\
  ge Exact a b = Returns (num_ b * denom_ a <=? num_ a * denom_ b) /\
  eq a b = (num_ a * denom_ b =? num_ b * denom_ a) /\
  ne a b = negb (num_ a * denom_ b =? num_ b * denom_ a).
Proof.
  intros Ha Hb.
  split; [now apply lt_cross|].
  split; [unfold gt; now rewrite (lt_cross b a)|].
  split; [now apply le_cross|].
  split; [|split].
  - unfold ge. rewrite (lt_cross a b Ha Hb). cbn [bind noexcept].
    now rewrite Z.leb_antisym.
  - now apply eq_cross.
  - unfold ne. now rewrite eq_cross.
Qed.

Lemma order_by_cross_products_witness :
  lt Exact (1 # 3) (1 # 2)
  = Returns (num_ (1 # 3) * denom_ (1 # 2) <? num_ (1 # 2) * denom_ (1 # 3)) /\
  gt Exact (1 # 3) (1 # 2)
  = Returns (num_ (1 # 2) * denom_ (1 # 3) <? num_ (1 # 3) * denom_ (1 # 2)) /\
  le Exact (1 # 3) (1 # 2)
  = Returns (num_ (1 # 3) * denom_ (1 # 2) <=? num_ (1 # 2) * denom_ (1 # 3)) /\
  ge Exact (1 # 3) (1 # 2)
  = Returns (num_ (1 # 2) * denom_ (1 # 3) <=? num_ (1 # 3) * denom_ (1 # 2)) /\
  eq (1 # 3) (1 # 2)
  = (num_ (1 # 3) * denom_ (1 # 2) =? num_ (1 # 2) * denom_ (1 # 3)) /\
  ne (1 # 3) (1 # 2)
  = negb (num_ (1 # 3) * denom_ (1 # 2) =? num_ (1 # 2) * denom_ (1 # 3)).
Proof.
  apply (order_by_cross_products (1 # 3) (1 # 2));
    unfold reduced; simpl; split; solve [lia | reflexivity].
Defined.

Lemma cross_le_trans (na da nb db nc dc : Z) :
  0 < da -> 0 < db -> 0 < dc ->
  na * db <= nb * da -> nb * dc <= nc * db -> na * dc <= nc * da.
Proof.
  intros Hda Hdb Hdc H1 H2.
  apply (Z.mul_le_mono_pos_r _ _ db); [exact Hdb|].
  transitivity (nb * da * dc).
  - replace (na * dc * db) with (na * db * dc) by ring.
    apply Z.mul_le_mono_nonneg_r; lia.
  - replace (nb * da * dc) with (nb * dc * da) by ring.
    replace (nc * da * db) with (nc * db * da) by ring.
    apply Z.mul_le_mono_nonneg_r; lia.
Qed.

(** [<=] is a total order on reduced rationals, with [<] as its strict
    part: it is reflexive, antisymmetric (two rationals each [<=] the other
    are the same object value, field by field), transitive and total, and
    [a < b] holds exactly when [a <= b] and [a] differs from [b]. *)
Theorem comparisons_total_order (a b c : rational_t) :
  reduced a -> reduced b -> reduced c ->
  le Exact a a = Returns true /\
  (le Exact a b = Returns true -> le Exact b a = Returns true -> a = b) /\
  (le Exact a b = Returns true -> le Exact b c = Returns true ->
   le Exact a c = Returns true) /\
  (le Exact a b = Returns true \/ le Exact b a = Returns true) /\
  (lt Exact a b = Returns true <-> le Exact a b = Returns true /\ a <> b).
Proof.
  intros Ha Hb Hc.
  pose proof Ha as [Hda _]. pose proof Hb as [Hdb _]. pose proof Hc as [Hdc _].
  rewrite (lt_cross a b), (le_cross a a), (le_cross a b), (le_cross b a),
    (le_cross b c), (le_cross a c) by assumption.
  split; [f_equal; apply Z.leb_le; lia|].
  split; [|split; [|split]].
  - intros H1 H2. injection H1 as H1. injection H2 as H2.
    apply Z.leb_le in H1, H2. apply reduced_unique; try assumption. lia.
  - intros H1 H2. injection H1 as H1. injection H2 as H2.
    apply Z.leb_le in H1, H2. f_equal. apply Z.leb_le.
    now apply (cross_le_trans _ _ (num_ b) (denom_ b)).
  - destruct (Z.le_ge_cases (num_ a * denom_ b) (num_ b * denom_ a));
      [left | right]; f_equal; apply Z.leb_le; lia.
  - split.
    + intros H. injection H as H. apply Z.ltb_lt in H. split.
      * f_equal. apply Z.leb_le. lia.
      * intros ->. lia.
    + intros [H Hne]. injection H as H. apply Z.leb_le in H.
      f_equal. apply Z.ltb_lt.
      destruct (Z.eq_dec (num_ a * denom_ b) (num_ b * denom_ a)) as [E|E];
        [|lia].
      exfalso. apply Hne. now apply reduced_unique.
Qed.

Lemma comparisons_total_order_witness :
  le Exact (1 # 3) (1 # 3) = Returns true /\
  (le Exact (1 # 3) (1 # 2) = Returns true ->
   le Exact (1 # 2) (1 # 3) = Returns true -> (1 # 3) = (1 # 2)) /\
  (le Exact (1 # 3) (1 # 2) = Returns true ->
   le Exact (1 # 2) (5 # 6) = Returns true ->
   le Exact (1 # 3) (5 # 6) = Returns true) /\
  (le Exact (1 # 3) (1 # 2) = Returns true \/
   le Exact (1 # 2) (1 # 3) = Returns true) /\
  (lt Exact (1 # 3) (1 # 2) = Returns true <->
   le Exact (1 # 3) (1 # 2) = Returns true /\ (1 # 3) <> (1 # 2)).
Proof.
  apply (comparisons_total_order (1 # 3) (1 # 2) (5 # 6));
    unfold reduced; simpl; split; solve [lia | reflexivity].
Defined.

(** The order is compatible with the arithmetic: adding the same rational
    to both sides keeps [<=], negation reverses it, and multiplying both
    sides by a rational with a nonnegative numerator keeps it. *)
Theorem order_compatible (a b c : rational_t) :
  reduced a -> reduced b -> reduced c ->
  le Exact a b = Returns true ->
  (exists s t, add Exact a c = Returns s /\ add Exact b c = Returns t /\
               le Exact s t = Returns true) /\
  (exists m n, neg Exact a = Returns m /\ neg Exact b = Returns n /\
               le Exact n m = Returns true) /\
  (0 <= num_ c ->
   exists p q, mul Exact a c = Returns p /\ mul Exact b c = Returns q /\
               le Exact p q = Returns true).
Proof.
  intros Ha Hb Hc Hle.
  pose proof Ha as [Hda _]. pose proof Hb as [Hdb _]. pose proof Hc as [Hdc _].
  rewrite (le_cross a b Ha Hb) in Hle. injection Hle as Hle.
  apply Z.leb_le in Hle.
  pose proof (represents_self a Ha) as Ra.
  pose proof (represents_self b Hb) as Rb.
  pose proof (represents_self c Hc) as Rc.
  split; [|split].
  - destruct (add_represents a c _ _ _ _ Ha Hc Ra Rc) as (s & Hs & Hsr & _ & Sv).
    destruct (add_represents b c _ _ _ _ Hb Hc Rb Rc) as (t & Ht & Htr & _ & Tv).
    exists s, t. split; [exact Hs|]. split; [exact Ht|].
    rewrite (le_cross s t Hsr Htr). f_equal. apply Z.leb_le.
    pose proof Hsr as [Hds _]. pose proof Htr as [Hdt _].
    apply (Z.mul_le_mono_pos_r _ _ (denom_ a * denom_ c * (denom_ b * denom_ c)));
      [nia|].
    replace (num_ s * denom_ t * (denom_ a * denom_ c * (denom_ b * denom_ c)))
      with (num_ s * (denom_ a * denom_ c) * (denom_ b * denom_ c) * denom_ t)
      by ring.
    replace (num_ t * denom_ s * (denom_ a * denom_ c * (denom_ b * denom_ c)))
      with (num_ t * (denom_ b * denom_ c) * (denom_ a * denom_ c) * denom_ s)
      by ring.
    rewrite Sv, Tv.
    assert (0 < denom_ s * denom_ t * denom_ c * denom_ c) by nia.
    nia.
  - rewrite (neg_exact a Ha), (neg_exact b Hb). eexists _, _.
    split; [reflexivity|]. split; [reflexivity|].
    rewrite le_cross by now apply reduced_neg. simpl.
    f_equal. apply Z.leb_le. lia.
  - intros Hnc.
    destruct (mul_represents a c _ _ _ _ Ha Hc Ra Rc) as (s & Hs & Hsr & _ & Sv).
    destruct (mul_represents b c _ _ _ _ Hb Hc Rb Rc) as (t & Ht & Htr & _ & Tv).
    exists s, t. split; [exact Hs|]. split; [exact Ht|].
    rewrite (le_cross s t Hsr Htr). f_equal. apply Z.leb_le.
    pose proof Hsr as [Hds _]. pose proof Htr as [Hdt _].
    apply (Z.mul_le_mono_pos_r _ _ (denom_ a * denom_ c * (denom_ b * denom_ c)));
      [nia|].
    replace (num_ s * denom_ t * (denom_ a * denom_ c * (denom_ b * denom_ c)))
      with (num_ s * (denom_ a * denom_ c) * (denom_ b * denom_ c) * denom_ t)
      by ring.
    replace (num_ t * denom_ s * (denom_ a * denom_ c * (denom_ b * denom_ c)))
      with (num_ t * (denom_ b * denom_ c) * (denom_ a * denom_ c) * denom_ s)
      by ring.
    rewrite Sv, Tv.
    assert (0 <= denom_ s * denom_ t * denom_ c * num_ c) by nia.
    nia.
Qed.

Lemma order_compatible_witness :
  (exists s t, add Exact (1 # 3) (5 # 6) = Returns s /\
               add Exact (1 # 2) (5 # 6) = Returns t /\
               le Exact s t = Returns true) /\
  (exists m n, neg Exact (1 # 3) = Returns m /\ neg Exact (1 # 2) = Returns n /\
               le Exact n m = Returns true) /\
  (0 <= num_ (5 # 6) ->
   exists p q, mul Exact (1 # 3) (5 # 6) = Returns p /\
               mul Exact (1 # 2) (5 # 6) = Returns q /\
               le Exact p q = Returns true).
Proof.
  apply (order_compatible (1 # 3) (1 # 2) (5 # 6)).
  - unfold reduced; simpl; split; [lia | reflexivity].
  - unfold reduced; simpl; split; [lia | reflexivity].
  - unfold reduced; simpl; split; [lia | reflexivity].
  - reflexivity.
Defined.

(** ** Increment and decrement *)

Lemma reduced_shift (a : rational_t) (k : Z) :
  reduced a -> reduced (num_ a + k * denom_ a # denom_ a).
Proof.
  unfold reduced; simpl. intros [Hd Hg]. split; [exact Hd|].
  rewrite Z.gcd_abs_l in *. rewrite Z.gcd_comm, Z.gcd_add_mult_diag_r.
  now rewrite Z.gcd_comm.
Qed.

Lemma add_one (a : rational_t) :
  reduced a -> add Exact a (1 # 1) = Returns (num_ a + denom_ a # denom_ a).
Proof.
  intros Ha. pose proof (reduced_shift a 1 Ha) as Hs.
  rewrite Z.mul_1_l in Hs.
  destruct (add_represents a (1 # 1) _ _ _ _ Ha reduced_one
              (represents_self a Ha) (represents_self _ reduced_one))
    as (s & E & Hsr & Rs).
  rewrite E. f_equal.
  apply (represents_unique _ _ _ _ _ _ Hsr Hs Rs (represents_self _ Hs)).
  simpl. ring.
Qed.

Lemma sub_one (a : rational_t) :
  reduced a -> sub Exact a (1 # 1) = Returns (num_ a - denom_ a # denom_ a).
Proof.
  intros Ha. pose proof (reduced_shift a (-1) Ha) as Hs.
  replace (num_ a + -1 * denom_ a) with (num_ a - denom_ a) in Hs by ring.
  destruct (sub_represents a (1 # 1) _ _ _ _ Ha reduced_one
              (represents_self a Ha) (represents_self _ reduced_one))
    as (s & E & Hsr & Rs).
  rewrite E. f_equal.
  apply (represents_unique _ _ _ _ _ _ Hsr Hs Rs (represents_self _ Hs)).
  simpl. ring.
Qed.

(** Increment and decrement of a reduced [n / d]: [++] stores
    [(n + d) / d] and [--] stores [(n - d) / d], already in reduced form;
    the postfix forms return the old value beside it; the prefix forms undo
    each other. *)
Theorem increment_decrement (a : rational_t) :
  reduced a ->
  pre_inc Exact a = Returns (num_ a + denom_ a # denom_ a) /\
  pre_dec Exact a = Returns (num_ a - denom_ a # denom_ a) /\
  post_inc Exact a = Returns (a, num_ a + denom_ a # denom_ a) /\
  post_dec Exact a = Returns (a, num_ a - denom_ a # denom_ a) /\
  (exists i, pre_inc Exact a = Returns i /\ pre_dec Exact i = Returns a) /\
  (exists j, pre_dec Exact a = Returns j /\ pre_inc Exact j = Returns a).
Proof.
  intros Ha.
  assert (E1 : rational Exact 1 1 = Returns (1 # 1)) by reflexivity.
  assert (Hi : forall x, reduced x ->
            pre_inc Exact x = Returns (num_ x + denom_ x # denom_ x)).
  { intros x Hx. unfold pre_inc. rewrite E1. cbn [bind].
    now rewrite (add_one x Hx). }
  assert (Hd : forall x, reduced x ->
            pre_dec Exact x = Returns (num_ x - denom_ x # denom_ x)).
  { intros x Hx. unfold pre_dec. rewrite E1. cbn [bind].
    now rewrite (sub_one x Hx). }
  split; [now apply Hi|]. split; [now apply Hd|].
  split; [|split; [|split]].
  - unfold post_inc. rewrite E1. cbn [bind]. now rewrite (add_one a Ha).
  - unfold post_dec. rewrite E1. cbn [bind]. now rewrite (sub_one a Ha).
  - eexists. split; [now apply Hi|].
    pose proof (reduced_shift a 1 Ha) as Hs. rewrite Z.mul_1_l in Hs.
    rewrite (Hd _ Hs). simpl. f_equal. destruct a; simpl. f_equal. ring.
  - eexists. split; [now apply Hd|].
    pose proof (reduced_shift a (-1) Ha) as Hs.
    replace (num_ a + -1 * denom_ a) with (num_ a - denom_ a) in Hs by ring.
    rewrite (Hi _ Hs). simpl. f_equal. destruct a; simpl. f_equal. ring.
Qed.

Lemma increment_decrement_witness :
  pre_inc Exact (-2 # 3)
  = Returns (num_ (-2 # 3) + denom_ (-2 # 3) # denom_ (-2 # 3)) /\
  pre_dec Exact (-2 # 3)
  = Returns (num_ (-2 # 3) - denom_ (-2 # 3) # denom_ (-2 # 3)) /\
  post_inc Exact (-2 # 3)
  = Returns (-2 # 3, num_ (-2 # 3) + denom_ (-2 # 3) # denom_ (-2 # 3)) /\
  post_dec Exact (-2 # 3)
  = Returns (-2 # 3, num_ (-2 # 3) - denom_ (-2 # 3) # denom_ (-2 # 3)) /\
  (exists i, pre_inc Exact (-2 # 3) = Returns i /\
             pre_dec Exact i = Returns (-2 # 3)) /\
  (exists j, pre_dec Exact (-2 # 3) = Returns j /\
             pre_inc Exact j = Returns (-2 # 3)).
Proof.
  apply (increment_decrement (-2 # 3)).
  unfold reduced; simpl; split; [lia | reflexivity].
Defined.

(** ** The constructor and equality *)

(** Two constructions with nonzero denominators compare equal with [==]
    exactly when they denote the same fraction ([n * d' = n' * d]), as
    [2 / 5 == 4 / 10 == 12 / 30]; and constructing from the fields of a
    constructed rational gives that rational back. *)
Theorem constructor_equality (n d n' d' : Z) :
  d <> 0 -> d' <> 0 ->
  exists r s,
    rational Exact n d = Returns r /\ rational Exact n' d' = Returns s /\
    (eq r s = true <-> n * d' = n' * d) /\
    rational Exact (num_ r) (denom_ r) = Returns r.
Proof.
  intros Hd Hd'.
  destruct (rational_exact n d Hd) as (r & Hr & Hrr & Hrv).
  destruct (rational_exact n' d' Hd') as (s & Hs & Hsr & Hsv).
  exists r, s. split; [exact Hr|]. split; [exact Hs|].
  pose proof Hrr as [Hdr _]. pose proof Hsr as [Hds _].
  split; [|apply rational_exact_is; [lia | exact Hrr | reflexivity]].
  rewrite eq_true_iff. split.
  - intros <-.
    apply (Z.mul_reg_r _ _ (denom_ r)); [lia|].
    transitivity (n * denom_ r * d'); [ring|]. rewrite <- Hrv.
    transitivity (num_ r * d' * d); [ring|]. rewrite Hsv. ring.
  - intros Hv.
    apply (represents_unique r s n d n' d'); try assumption; split; assumption.
Qed.

Lemma constructor_equality_witness :
  exists r s,
    rational Exact 2 5 = Returns r /\ rational Exact 12 30 = Returns s /\
    (eq r s = true <-> 2 * 30 = 12 * 5) /\
    rational Exact (num_ r) (denom_ r) = Returns r.
Proof.
  apply (constructor_equality 2 5 12 30); lia.
Defined.

End RationalAlgebra.

(** * [rational_t] over [char] and [int] *)

Section RationalFixedWidth.

Import Rational.

Local Notation "n # d" := {| num_ := n; denom_ := d |} (at level 55).

Variables (k : int_type) (w : Z).

Hypothesis width_k : width k = Some w.

Lemma width_bounds : 0 < w <= 32.
Proof. destruct k; inversion width_k; lia. Qed.

Lemma arith_exact (z : Z) : arith Exact z = Returns z.
Proof. reflexivity. Qed.

Lemma arith_int (z : Z) : - 2 ^ 31 <= z < 2 ^ 31 -> arith k z = Returns z.
Proof.
  intros Hz. unfold arith. rewrite width_k.
  destruct (Z.leb_spec (- 2 ^ 31) z), (Z.ltb_spec z (2 ^ 31));
    try reflexivity; lia.
Qed.

Lemma arith_overflow (z : Z) : 2 ^ 31 <= z -> arith k z = Undefined.
Proof.
  intros Hz. unfold arith. rewrite width_k.
  destruct (Z.ltb_spec z (2 ^ 31)); [lia|]. now rewrite andb_false_r.
Qed.

Lemma pow_width : 2 ^ (w - 1) <= 2 ^ 31.
Proof. pose proof width_bounds. apply Z.pow_le_mono_r; lia. Qed.

Lemma check_fixed_exact (n d : Z) :
  - 2 ^ (w - 1) < n < 2 ^ (w - 1) -> 0 < d < 2 ^ (w - 1) ->
  check k (n # d) = check Exact (n # d).
Proof.
  intros Hn Hd. pose proof width_bounds as Hw.
  destruct (reduce_pos n d) as (Hg & Hr & _ & Hgd & Hqd & Hqp & Hqn); [lia|].
  assert (Hqd0 : 0 < Z.quot d (Z.gcd n d)) by (destruct Hr; assumption).
  unfold check. cbn [denom_ num_].
  destruct (Z.ltb_spec d 0) as [|_]; [lia|]. cbn [bind denom_ num_].
  unfold gcd.
  rewrite (fits_true k w (Z.abs n)), (fits_true k w (Z.abs d)) by (auto; lia).
  cbn [andb bind fits width]. unfold quot.
  destruct (Z.eqb_spec (Z.gcd n d) 0) as [|_]; [lia|].
  rewrite (arith_fits k w (Z.quot d (Z.gcd n d))) by (auto; lia).
  rewrite (arith_fits k w (Z.quot n (Z.gcd n d))) by (auto; lia).
  rewrite !arith_exact. cbn [bind]. unfold narrow. rewrite width_k.
  rewrite (wrap_id w (Z.quot n (Z.gcd n d))) by lia.
  rewrite (wrap_id w (Z.quot d (Z.gcd n d))) by lia.
  reflexivity.
Qed.

(** Away from the most negative value the constructor of the fixed-width
    instantiation does what the exact one does. *)
Lemma rational_fixed_exact (n d : Z) :
  - 2 ^ (w - 1) < n < 2 ^ (w - 1) -> - 2 ^ (w - 1) < d < 2 ^ (w - 1) ->
  rational k n d = rational Exact n d.
Proof.
  intros Hn Hd. pose proof width_bounds as Hw. unfold rational.
  assert (En : narrow k n = n)
    by (unfold narrow; rewrite width_k; apply wrap_id; lia).
  assert (Ed : narrow k d = d)
    by (unfold narrow; rewrite width_k; apply wrap_id; lia).
  rewrite En, Ed. cbn [narrow width].
  destruct (Z.eqb_spec d 0) as [|Hd0]; [reflexivity|].
  destruct (Z.ltb_spec d 0) as [Hneg|Hpos].
  - transitivity (check k (- n # - d)).
    + unfold check. cbn [denom_ num_].
      destruct (Z.ltb_spec d 0) as [_|]; [|lia].
      destruct (Z.ltb_spec (- d) 0) as [|_]; [lia|].
      rewrite (arith_fits k w (- d)), (arith_fits k w (- n)) by (auto; lia).
      cbn [bind]. unfold narrow. rewrite width_k.
      rewrite (wrap_id w (- n)), (wrap_id w (- d)) by lia.
      reflexivity.
    + rewrite check_fixed_exact by lia.
      unfold check. cbn [denom_ num_].
      destruct (Z.ltb_spec d 0) as [_|]; [|lia].
      destruct (Z.ltb_spec (- d) 0) as [|_]; [lia|].
      reflexivity.
  - apply check_fixed_exact; lia.
Qed.

(** The local variables [temp_denom] and [temp_num] of [operator+]: the
    quotients are exact and bounded by the operands. *)
Lemma temp_bounds (a b : rational_t) :
  0 < denom_ a -> 0 < denom_ b ->
  let g := Z.gcd (denom_ a) (denom_ b) in
  let L := Z.quot (denom_ a * denom_ b) g in
  0 < g /\ 0 < L <= denom_ a * denom_ b /\
  Z.quot L (denom_ a) * g = denom_ b /\ Z.quot L (denom_ b) * g = denom_ a /\
  0 <= Z.quot L (denom_ a) <= denom_ b /\
  0 <= Z.quot L (denom_ b) <= denom_ a /\
  Z.abs (Z.quot L (denom_ a) * num_ a) <= Z.abs (num_ a) * denom_ b /\
  Z.abs (Z.quot L (denom_ b) * num_ b) <= Z.abs (num_ b) * denom_ a.
Proof.
  intros Hda Hdb g L.
  assert (Hg : 0 < g).
  { assert (g <> 0)
      by (unfold g; intros E; apply Z.gcd_eq_0_l in E; lia).
    pose proof (Z.gcd_nonneg (denom_ a) (denom_ b)). fold g in H0. lia. }
  destruct (Z.gcd_divide_l (denom_ a) (denom_ b)) as [a' Ha'].
  destruct (Z.gcd_divide_r (denom_ a) (denom_ b)) as [b' Hb'].
  fold g in Ha', Hb'.
  assert (Ha0 : 0 < a') by nia. assert (Hb0 : 0 < b') by nia.
  assert (EL : L = a' * b' * g).
  { unfold L. rewrite Ha', Hb'.
    replace (a' * g * (b' * g)) with (g * (a' * b' * g)) by ring.
    apply quot_exact. lia. }
  assert (Eql : Z.quot L (denom_ a) = b').
  { rewrite EL, Ha'. replace (a' * b' * g) with (a' * g * b') by ring.
    apply quot_exact. nia. }
  assert (Eqr : Z.quot L (denom_ b) = a').
  { rewrite EL, Hb'. replace (a' * b' * g) with (b' * g * a') by ring.
    apply quot_exact. nia. }
  rewrite Eql, Eqr, EL.
  split; [exact Hg|]. split; [nia|].
  split; [lia|]. split; [lia|]. split; [nia|]. split; [nia|].
  rewrite !Z.abs_mul, (Z.abs_eq a'), (Z.abs_eq b') by lia.
  pose proof (Z.abs_nonneg (num_ a)). pose proof (Z.abs_nonneg (num_ b)).
  split; nia.
Qed.

(** [operator+] up to the construction of the result, when every
    intermediate is a value of [int] and both denominators are values of
    [IntT]. *)
Lemma add_steps (a b : rational_t) :
  0 < denom_ a < 2 ^ (w - 1) -> 0 < denom_ b < 2 ^ (w - 1) ->
  denom_ a * denom_ b < 2 ^ 31 ->
  Z.abs (num_ a) * denom_ b + Z.abs (num_ b) * denom_ a < 2 ^ 31 ->
  let L := Z.quot (denom_ a * denom_ b) (Z.gcd (denom_ a) (denom_ b)) in
  let N := Z.quot L (denom_ a) * num_ a + Z.quot L (denom_ b) * num_ b in
  add k a b = noexcept (rational k N L) /\
  add Exact a b = noexcept (rational Exact N L).
Proof.
  intros Hda Hdb Hp Hs L N. pose proof width_bounds as Hw.
  pose proof pow_width as Hm.
  pose proof (Z.abs_nonneg (num_ a)). pose proof (Z.abs_nonneg (num_ b)).
  assert (0 <= Z.abs (num_ a) * denom_ b) by nia.
  assert (0 <= Z.abs (num_ b) * denom_ a) by nia.
  destruct (temp_bounds a b ltac:(lia) ltac:(lia))
    as (Hg & HL & _ & _ & Hql & Hqr & Htl & Htr).
  fold L in HL, Hql, Hqr, Htl, Htr.
  set (g := Z.gcd (denom_ a) (denom_ b)) in *.
  set (p := denom_ a * denom_ b) in *.
  unfold add. fold p. unfold gcd. fold g.
  rewrite (fits_true k w (Z.abs (denom_ a))),
    (fits_true k w (Z.abs (denom_ b))) by (auto; lia).
  cbn [fits width andb]. rewrite !arith_exact, (arith_int p) by lia.
  cbn [bind]. unfold quot.
  destruct (Z.eqb_spec g 0) as [|_]; [lia|].
  rewrite !arith_exact. fold L. rewrite (arith_int L) by lia.
  cbn [bind].
  destruct (Z.eqb_spec (denom_ a) 0) as [|_]; [lia|].
  destruct (Z.eqb_spec (denom_ b) 0) as [|_]; [lia|].
  rewrite !arith_exact.
  rewrite (arith_int (Z.quot L (denom_ a))) by lia. cbn [bind].
  rewrite (arith_int (Z.quot L (denom_ a) * num_ a)) by lia. cbn [bind].
  rewrite (arith_int (Z.quot L (denom_ b))) by lia. cbn [bind].
  rewrite (arith_int (Z.quot L (denom_ b) * num_ b)) by lia. cbn [bind].
  rewrite arith_int by lia. cbn [bind].
  split; reflexivity.
Qed.

(** As long as no intermediate value leaves the open range
    [(-2^(w-1), 2^(w-1))] of [IntT], the operators of the fixed-width
    instantiation do what exact arithmetic does: negation when the numerator
    is not the most negative value, multiplication and division when the
    two products stay in range, addition when the product of the
    denominators and the sum of the absolute cross products stay in range;
    division by a zero numerator ends in [std::terminate] in both. *)
Theorem fixed_width_agrees (a b : rational_t) :
  reduced a -> reduced b ->
  let m := 2 ^ (w - 1) in
  (- m < num_ a < m -> denom_ a < m -> neg k a = neg Exact a) /\
  (- m < num_ a * num_ b < m -> denom_ a * denom_ b < m ->
   mul k a b = mul Exact a b) /\
  (- m < num_ a * denom_ b < m -> - m < denom_ a * num_ b < m ->
   div k a b = div Exact a b) /\
  (denom_ a * denom_ b < m ->
   Z.abs (num_ a) * denom_ b + Z.abs (num_ b) * denom_ a < m ->
   add k a b = add Exact a b).
Proof.
  intros [Hda _] [Hdb _] m. pose proof width_bounds as Hw.
  pose proof pow_width as Hm. fold m in Hm.
  split; [|split; [|split]].
  - intros Hn Hd. unfold neg. rewrite arith_exact, arith_int by lia.
    cbn [bind]. now rewrite rational_fixed_exact by (fold m; lia).
  - intros Hn Hd. unfold mul. rewrite !arith_exact, !arith_int by nia.
    cbn [bind]. now rewrite rational_fixed_exact by (fold m; nia).
  - intros Hn Hd. unfold div. rewrite !arith_exact, !arith_int by nia.
    cbn [bind]. now rewrite rational_fixed_exact by (fold m; nia).
  - intros Hp Hs.
    destruct (temp_bounds a b Hda Hdb)
      as (Hg & HL & _ & _ & Hql & Hqr & Htl & Htr).
    destruct (add_steps a b) as [E E']; fold m; try nia.
    rewrite E, E'.
    now rewrite rational_fixed_exact by (fold m; lia).
Qed.

(** The result of [operator+] is constructed from the [int] values
    [temp_num] and [temp_denom], which are narrowed to [IntT].  When the
    least common denominator [temp_denom] of [a] and [b] lies strictly
    between [2^(w-1)] and [2^w], it is stored as the negative number
    [temp_denom - 2^w], and [check] then negates the numerator: the
    difference [a - b] comes out with the opposite sign, and [a < b]
    returns what [a > b] should, where exact arithmetic gives the right
    answer.  (For [int] the product of the denominators overflows before
    that; the case arises for [char].) *)
Theorem comparison_inverted_by_narrowing (a b : rational_t) :
  reduced a -> reduced b ->
  let m := 2 ^ (w - 1) in
  let L := Z.quot (denom_ a * denom_ b) (Z.gcd (denom_ a) (denom_ b)) in
  let N := Z.quot L (denom_ a) * num_ a + Z.quot L (denom_ b) * - num_ b in
  - m < num_ b < m -> denom_ a < m -> denom_ b < m ->
  denom_ a * denom_ b < 2 ^ 31 ->
  Z.abs (num_ a) * denom_ b + Z.abs (num_ b) * denom_ a < 2 ^ 31 ->
  m < L < 2 * m -> - m < N < m ->
  lt k a b = Returns (num_ b * denom_ a <? num_ a * denom_ b) /\
  lt Exact a b = Returns (num_ a * denom_ b <? num_ b * denom_ a).
Proof.
  intros Ha Hb m L N Hnb Hdam Hdbm Hp Hs HL HN.
  pose proof width_bounds as Hw. pose proof pow_width as Hm. fold m in Hm.
  pose proof Ha as [Hda _]. pose proof Hb as [Hdb _].
  assert (Hpw : 2 ^ w = 2 * m).
  { unfold m. rewrite <- Z.pow_succ_r by lia. f_equal. lia. }
  split.
  2:{ pose proof (represents_self a Ha) as Ra.
      pose proof (represents_self b Hb) as Rb.
      destruct (sub_represents a b _ _ _ _ Ha Hb Ra Rb)
        as (d & Hd & Hdr & _ & Hdv).
      pose proof Hdr as [Hdd _].
      unfold lt. rewrite Hd. cbn [bind noexcept]. f_equal.
      assert (0 < denom_ a * denom_ b) by nia.
      destruct (Z.ltb_spec (num_ d) 0),
        (Z.ltb_spec (num_ a * denom_ b) (num_ b * denom_ a));
        try reflexivity; nia. }
  destruct (temp_bounds a b Hda Hdb) as (Hg & _ & Eql & Eqr & _).
  fold L in Eql, Eqr.
  set (g := Z.gcd (denom_ a) (denom_ b)) in *.
  assert (EN : N * g = num_ a * denom_ b - num_ b * denom_ a).
  { unfold N.
    transitivity (Z.quot L (denom_ a) * g * num_ a
                  - Z.quot L (denom_ b) * g * num_ b); [ring|].
    rewrite Eql, Eqr. ring. }
  (* negation of [b] *)
  assert (Eneg : neg k b = Returns (- num_ b # denom_ b)).
  { unfold neg. rewrite arith_int by lia. cbn [bind].
    rewrite rational_fixed_exact by (fold m; lia).
    rewrite (rational_exact_is _ _ (- num_ b # denom_ b));
      [reflexivity | lia | now apply reduced_neg | reflexivity]. }
  (* the sum *)
  destruct (add_steps a (- num_ b # denom_ b)) as [Eadd _];
    cbn [num_ denom_]; fold m; rewrite ?Z.abs_opp; try lia.
  cbn [num_ denom_] in Eadd. fold g L N in Eadd.
  (* the construction from the narrowed denominator *)
  assert (Ewrap : narrow k L = L - 2 * m).
  { unfold narrow, wrap. rewrite width_k. fold m. rewrite Hpw.
    replace (L + m) with (L - m + 1 * (2 * m)) by ring.
    rewrite Z.mod_add, Z.mod_small by lia. lia. }
  assert (Econs : rational k N L = rational Exact N (L - 2 * m)).
  { rewrite <- rational_fixed_exact by (fold m; lia).
    unfold rational. rewrite Ewrap.
    replace (narrow k (L - 2 * m)) with (L - 2 * m); [reflexivity|].
    unfold narrow. rewrite width_k. symmetry.
    apply wrap_id; fold m; lia. }
  destruct (rational_exact N (L - 2 * m)) as (r & Hr & Hrr & Hrv); [lia|].
  pose proof Hrr as [Hdr _].
  unfold lt, sub. rewrite Eneg. cbn [bind]. rewrite Eadd, Econs, Hr.
  cbn [bind noexcept]. f_equal.
  assert (Hsign : forall x y c d,
            x * c = y * d -> c < 0 -> 0 < d -> (x < 0 <-> 0 < y))
    by (intros; nia).
  assert (Hscale : forall y c, y * g = c -> (0 < y <-> 0 < c))
    by (intros; nia).
  pose proof (Hsign _ _ _ _ Hrv ltac:(lia) Hdr) as H1.
  pose proof (Hscale _ _ EN) as H2.
  destruct (Z.ltb_spec (num_ r) 0),
    (Z.ltb_spec (num_ b * denom_ a) (num_ a * denom_ b));
    try reflexivity; lia.
Qed.

(** Storing a denominator narrows it to [IntT]: when the product of the
    denominators is a multiple of [2^w] that an [int] can hold, the
    intermediate of a multiplication has the stored denominator zero, and
    the product of two valid rationals ends in [std::terminate] on
    [invalid_argument]. *)
Theorem mul_denominator_wraps (a b : rational_t) :
  - 2 ^ 31 <= num_ a * num_ b < 2 ^ 31 ->
  - 2 ^ 31 <= denom_ a * denom_ b < 2 ^ 31 ->
  (denom_ a * denom_ b) mod 2 ^ w = 0 ->
  mul k a b = Terminates invalid_argument.
Proof.
  intros Hn Hd Hz. pose proof width_bounds as Hw.
  unfold mul. rewrite !arith_int by lia. cbn [bind]. unfold rational.
  assert (E : narrow k (denom_ a * denom_ b) = 0).
  { unfold narrow, wrap. rewrite width_k.
    assert (Hpw : 2 ^ w = 2 * 2 ^ (w - 1))
      by (rewrite <- Z.pow_succ_r by lia; f_equal; lia).
    assert (0 < 2 ^ (w - 1)) by (apply Z.pow_pos_nonneg; lia).
    rewrite Z.add_mod, Hz, Z.add_0_l, Z.mod_mod by lia.
    rewrite Z.mod_small by lia. lia. }
  rewrite E. reflexivity.
Qed.

(** The arithmetic itself is done in [int]: when the product of the two
    denominators is not a value of [int], multiplication and addition have
    undefined behaviour (signed overflow), whether or not the reduced result
    would be representable. *)
Theorem denominator_product_overflows (a b : rational_t) :
  2 ^ 31 <= denom_ a * denom_ b ->
  mul k a b = Undefined /\ add k a b = Undefined.
Proof.
  intros Hd. split.
  - unfold mul. rewrite (arith_overflow (denom_ a * denom_ b)) by exact Hd.
    unfold arith at 1. rewrite width_k.
    destruct ((- 2 ^ 31 <=? num_ a * num_ b) && (num_ a * num_ b <? 2 ^ 31));
      reflexivity.
  - unfold add. now rewrite arith_overflow by exact Hd.
Qed.

End RationalFixedWidth.

Section RationalFixedWidthRuns.

Import Rational.

Local Notation "n # d" := {| num_ := n; denom_ := d |} (at level 55).

Lemma fixed_width_agrees_witness :
  let m := 2 ^ (8 - 1) in
  (- m < num_ (-2 # 3) < m -> denom_ (-2 # 3) < m ->
   neg Char (-2 # 3) = neg Exact (-2 # 3)) /\
  (- m < num_ (-2 # 3) * num_ (5 # 6) < m ->
   denom_ (-2 # 3) * denom_ (5 # 6) < m ->
   mul Char (-2 # 3) (5 # 6) = mul Exact (-2 # 3) (5 # 6)) /\
  (- m < num_ (-2 # 3) * denom_ (5 # 6) < m ->
   - m < denom_ (-2 # 3) * num_ (5 # 6) < m ->
   div Char (-2 # 3) (5 # 6) = div Exact (-2 # 3) (5 # 6)) /\
  (denom_ (-2 # 3) * denom_ (5 # 6) < m ->
   Z.abs (num_ (-2 # 3)) * denom_ (5 # 6)
   + Z.abs (num_ (5 # 6)) * denom_ (-2 # 3) < m ->
   add Char (-2 # 3) (5 # 6) = add Exact (-2 # 3) (5 # 6)).
Proof.
  apply (fixed_width_agrees Char 8 eq_refl (-2 # 3) (5 # 6));
    unfold reduced; simpl; split; solve [lia | reflexivity].
Defined.

Lemma comparison_inverted_by_narrowing_witness :
  lt Char (1 # 3) (1 # 64)
  = Returns (num_ (1 # 64) * denom_ (1 # 3) <? num_ (1 # 3) * denom_ (1 # 64)) /\
  lt Exact (1 # 3) (1 # 64)
  = Returns (num_ (1 # 3) * denom_ (1 # 64) <? num_ (1 # 64) * denom_ (1 # 3)).
Proof.
  apply (comparison_inverted_by_narrowing Char 8 eq_refl (1 # 3) (1 # 64)).
  - unfold reduced; simpl; split; [lia | reflexivity].
  - unfold reduced; simpl; split; [lia | reflexivity].
  - simpl; lia.
  - simpl; lia.
  - simpl; lia.
  - simpl; lia.
  - simpl; lia.
  - vm_compute; split; reflexivity.
  - vm_compute; split; reflexivity.
Defined.

Lemma mul_denominator_wraps_witness :
  mul Char (1 # 16) (3 # 16) = Terminates invalid_argument.
Proof.
  apply (mul_denominator_wraps Char 8 eq_refl (1 # 16) (3 # 16)).
  - simpl; lia.
  - simpl; lia.
  - reflexivity.
Defined.

Lemma denominator_product_overflows_witness :
  mul Int (1 # 65536) (1 # 65536) = Undefined /\
  add Int (1 # 65536) (1 # 65536) = Undefined.
Proof.
  apply (denominator_product_overflows Int 32 eq_refl (1 # 65536) (1 # 65536)).
  simpl. lia.
Defined.

End RationalFixedWidthRuns.
